(** * SIMDBinaryPacking (FastPFor, headers/simdbinarypacking.h)

    A shallow embedding of [SIMDBinaryPacking::encodeArray] and
    [SIMDBinaryPacking::decodeArray] and the properties of the stream
    format they implement.

    Conventions of the embedding.
    - A [uint32_t] is a [Z]; where the C++ computes in 32 bits the
      wrap-around is written [wrap32], and [static_cast<uint8_t>] is
      [cast_u8].
    - A [uint32_t*] is modelled by the array it points into and a cursor
      counted in words.  Addresses are counted in words too (byte address
      divided by four), so that "16-byte aligned" reads "multiple of 4".
    - [encodeArray] and [decodeArray] thread two cursors ([in], [out]) and
      can throw; they are written in a state-and-error monad.  A store or a
      load outside the arrays (undefined behaviour in C++) is the explicit
      outcome [OutOfBounds].
    - An [assert] is checked: a failed one is the outcome
      [AssertionFailed].  The loops are recursions on a bound; reaching it
      is the outcome [LoopBound], which is shown never to happen.
    - The registers carry a ghost log of the calls to the width kernels:
      the cursor handed to the kernel and the bit width.  No result depends
      on it.
    - The parameter [length] of [decodeArray] is not used by the source and
      is left out.
    - The default branch of the preprocessor ([EJK] not defined) is the one
      embedded. *)

From Stdlib Require Import ZArith List Lia Bool Arith.
Import ListNotations.
Local Open Scope Z_scope.

(** ** Machine words *)

Definition wrap32 (z : Z) : Z := z mod 2 ^ 32.
Definition cast_u8 (z : Z) : Z := z mod 2 ^ 8.
Definition is_u32 (z : Z) : Prop := 0 <= z < 2 ^ 32.

(** ** Class constants *)

Definition CookiePadder : Z := 123456.
Definition MiniBlockSize : Z := 128.
Definition HowManyMiniBlocks : Z := 16.
Definition BlockSize : Z := MiniBlockSize.

(** ** Helpers of util.h *)

(** Modelled from the spec: [needPaddingTo128Bits] of util.h, which is not
    part of the sources at hand.  "Returns true iff cursor is not a multiple
    of four words (16 bytes)."  The argument is a word address. *)
Definition needPaddingTo128Bits (p : Z) : bool := negb (p mod 4 =? 0).

(** Modelled from the spec: [checkifdivisibleby] of util.h, which is not
    part of the sources at hand.  The spec has the encoder fail with
    InvalidLength when the "input length is zero or not a multiple of 128";
    the function answers [true] when the check passes. *)
Definition checkifdivisibleby (a x : Z) : bool := (0 <? a) && (a mod x =? 0).

Definition list_max (l : list Z) : Z := fold_right Z.max 0 l.

(** Modelled from the spec: [maxbits] of util.h, which is not part of the
    sources at hand.  "maxbits is 0 if all values are zero, else
    floor(log2(max)) + 1." *)
Definition maxbits (l : list Z) : Z :=
  let m := list_max l in if m =? 0 then 0 else Z.log2 m + 1.

(** ** Arrays *)

(** [store buf pos ws]: the array [buf] after the words [ws] have been
    stored at index [pos]; [None] when the store leaves the array. *)
Definition store (buf : list Z) (pos : nat) (ws : list Z) : option (list Z) :=
  if (pos + length ws <=? length buf)%nat
  then Some (firstn pos buf ++ ws ++ skipn (pos + length ws) buf)
  else None.

(** ** The state and error monad *)

Inductive error : Set :=
| InvalidLength        (* thrown by checkifdivisibleby *)
| BadOutputAlignment   (* runtime_error "bad initial output align" *)
| StreamCorrupt        (* logic_error "SIMDBinaryPacking alignment issue." *)
| AssertionFailed      (* a failed assert *)
| OutOfBounds          (* access outside an array *)
| LoopBound.           (* the model's bound on a loop was reached *)

Inductive outcome (A : Type) : Type :=
| Ok (a : A)
| Err (e : error).
Arguments Ok {A} a.
Arguments Err {A} e.

(** The registers of both functions: the two cursors, the arrays they
    walk, and a ghost log of the kernel calls made so far (cursor offset
    handed to the kernel, bit width). *)
Record state : Type := mkState {
  s_in : list Z;            (* the words in[0], in[1], ... up to the end *)
  s_inoff : nat;            (* in - initial in *)
  s_outbuf : list Z;        (* the array behind out, from the initial out *)
  s_out : nat;              (* out - initial out *)
  s_calls : list (nat * Z)  (* ghost *)
}.

Definition M (A : Type) : Type := state -> outcome A * state.

Definition ret {A} (a : A) : M A := fun s => (Ok a, s).
Definition fail {A} (e : error) : M A := fun s => (Err e, s).
Definition bind {A B} (c : M A) (f : A -> M B) : M B :=
  fun s => match c s with
           | (Ok a, s') => f a s'
           | (Err e, s') => (Err e, s')
           end.
Definition get : M state := fun s => (Ok s, s).

Notation "x <- c1 ;; c2" := (bind c1 (fun x => c2))
  (at level 61, c1 at next level, right associativity).
Notation "c1 ;; c2" := (bind c1 (fun _ => c2))
  (at level 61, right associativity).

Definition check (b : bool) (e : error) : M unit :=
  if b then ret tt else fail e.

(** [*out++ = v] *)
Definition write_out (v : Z) : M unit := fun s =>
  match store (s_outbuf s) (s_out s) [v] with
  | Some b => (Ok tt, mkState (s_in s) (s_inoff s) b (S (s_out s)) (s_calls s))
  | None => (Err OutOfBounds, s)
  end.

(** what a kernel stores at [out + off] *)
Definition store_out (off : nat) (ws : list Z) : M unit := fun s =>
  match store (s_outbuf s) (s_out s + off) ws with
  | Some b => (Ok tt, mkState (s_in s) (s_inoff s) b (s_out s) (s_calls s))
  | None => (Err OutOfBounds, s)
  end.

(** [out += n] *)
Definition advance_out (n : nat) : M unit := fun s =>
  if (s_out s + n <=? length (s_outbuf s))%nat
  then (Ok tt, mkState (s_in s) (s_inoff s) (s_outbuf s) (s_out s + n) (s_calls s))
  else (Err OutOfBounds, s).

(** [in[0]] *)
Definition peek_in : M Z := fun s =>
  match s_in s with
  | w :: _ => (Ok w, s)
  | [] => (Err OutOfBounds, s)
  end.

(** [in += n] *)
Definition advance_in (n : nat) : M unit := fun s =>
  if (n <=? length (s_in s))%nat
  then (Ok tt, mkState (skipn n (s_in s)) (s_inoff s + n) (s_outbuf s) (s_out s) (s_calls s))
  else (Err OutOfBounds, s).

(** the [n] words a kernel loads from [in] on *)
Definition load_in (n : nat) : M (list Z) := fun s =>
  if (n <=? length (s_in s))%nat
  then (Ok (firstn n (s_in s)), s)
  else (Err OutOfBounds, s).

Definition log_call (off : nat) (bit : Z) : M unit := fun s =>
  (Ok tt, mkState (s_in s) (s_inoff s) (s_outbuf s) (s_out s) (s_calls s ++ [(off, bit)])).

(** [for (uint32_t i = i0; i < i0 + n; ++i) body(i)] *)
Fixpoint for_range (i n : nat) (body : nat -> M unit) : M unit :=
  match n with
  | O => ret tt
  | S n' => body i ;; for_range (S i) n' body
  end.

(** ** The codec *)

(** The [i]-th miniblock from [in] on: [in + i * MiniBlockSize] up to
    [in + (i + 1) * MiniBlockSize]. *)
Definition miniblock (inp : list Z) (i : nat) : list Z :=
  firstn 128 (skipn (i * 128) inp).

(** [(Bs[4k] << 24) | (Bs[4k+1] << 16) | (Bs[4k+2] << 8) | Bs[4k+3]],
    in 32 bits. *)
Definition header_word (Bs : list Z) (k : nat) : Z :=
  Z.lor (Z.lor (Z.lor (wrap32 (Z.shiftl (nth (4 * k) Bs 0) 24))
                      (wrap32 (Z.shiftl (nth (4 * k + 1) Bs 0) 16)))
               (wrap32 (Z.shiftl (nth (4 * k + 2) Bs 0) 8)))
        (nth (4 * k + 3) Bs 0).

(** The four widths the decoder takes from one header word. *)
Definition header_widths (w : Z) : list Z :=
  [cast_u8 (Z.shiftr w 24); cast_u8 (Z.shiftr w 16);
   cast_u8 (Z.shiftr w 8); cast_u8 w].

Section Codec.

(** The width kernels of simdbitpacking.h, which is not part of the
    sources at hand, are parameters: [SIMD_fastpackwithoutmask_32 m bit] is
    the sequence of words the pack kernel stores for the 128 words [m], and
    [SIMD_fastunpack_32 src bit] the words the unpack kernel stores when it
    loads [src]. *)
Variable SIMD_fastpackwithoutmask_32 : list Z -> Z -> list Z.
Variable SIMD_fastunpack_32 : list Z -> Z -> list Z.

(** *** encodeArray *)

(** [while (needPaddingTo128Bits(out)) *out++ = CookiePadder;] *)
Fixpoint pad_out (fuel : nat) (out_addr : Z) : M unit :=
  s <- get ;;
  if needPaddingTo128Bits (out_addr + Z.of_nat (s_out s))
  then match fuel with
       | O => fail LoopBound
       | S fuel' => write_out CookiePadder ;; pad_out fuel' out_addr
       end
  else ret tt.

(** The widths [Bs] of a block of which [howmany] miniblocks are present:
    the entries from [howmany] on are the zeros of the memset.  In the loop
    over full blocks [howmany] is 16 and every entry is assigned. *)
Definition block_widths (inp : list Z) (howmany : nat) : list Z :=
  map (fun i => maxbits (miniblock inp i)) (seq 0 howmany)
  ++ repeat 0 (16 - howmany).

(** One block: the widths, the four header words, then one kernel call per
    miniblock.  The source has this text twice, for a full block (with 16)
    and for the trailing one (with [howmany]). *)
Definition encode_block (howmany : nat) : M unit :=
  s <- get ;;
  let inp := s_in s in
  let Bs := block_widths inp howmany in
  write_out (header_word Bs 0) ;;
  write_out (header_word Bs 1) ;;
  write_out (header_word Bs 2) ;;
  write_out (header_word Bs 3) ;;
  for_range 0 howmany (fun i =>
    s' <- get ;;
    log_call (s_out s') (nth i Bs 0) ;;
    store_out 0 (SIMD_fastpackwithoutmask_32 (miniblock inp i) (nth i Bs 0)) ;;
    advance_out (Z.to_nat (wrap32 (MiniBlockSize / 32 * nth i Bs 0)))).

(** [for (; in + HowManyMiniBlocks * MiniBlockSize <= final;
          in += HowManyMiniBlocks * MiniBlockSize)] *)
Fixpoint encode_full_blocks (fuel : nat) : M unit :=
  s <- get ;;
  if (Z.to_nat (HowManyMiniBlocks * MiniBlockSize) <=? length (s_in s))%nat
  then match fuel with
       | O => fail LoopBound
       | S fuel' =>
           encode_block 16 ;;
           advance_in (Z.to_nat (HowManyMiniBlocks * MiniBlockSize)) ;;
           encode_full_blocks fuel'
       end
  else ret tt.

(** [if (in < final) { ... }]: the trailing block of fewer than 16
    miniblocks. *)
Definition encode_trailing : M unit :=
  s <- get ;;
  if (0 <? length (s_in s))%nat
  then
    let howmany := (length (s_in s) / Z.to_nat MiniBlockSize)%nat in
    encode_block howmany ;;
    advance_in (howmany * Z.to_nat MiniBlockSize) ;;
    s' <- get ;;
    check (match s_in s' with [] => true | _ => false end) AssertionFailed
  else ret tt.

Definition encodeArray_body (out_addr : Z) : M nat :=
  s0 <- get ;;
  let length := Z.of_nat (List.length (s_in s0)) in
  check (checkifdivisibleby length BlockSize) InvalidLength ;;
  let initout := s_out s0 in
  write_out (wrap32 length) ;;
  pad_out 4 out_addr ;;
  encode_full_blocks (List.length (s_in s0)) ;;
  encode_trailing ;;
  s1 <- get ;;
  ret (s_out s1 - initout)%nat.

(** [encodeArray in length out nvalue], with [length] the length of [inp],
    [outbuf] the array behind [out] and [out_addr] the address of [out].
    The answer is [nvalue] or the exception, with the final registers. *)
Definition encodeArray (inp : list Z) (outbuf : list Z) (out_addr : Z)
  : outcome nat * state :=
  encodeArray_body out_addr (mkState inp 0 outbuf 0 []).

(** *** decodeArray *)

(** [while (needPaddingTo128Bits(in)) { if (in[0] != CookiePadder) throw ...; ++in; }] *)
Fixpoint skip_padding (fuel : nat) (in_addr : Z) : M unit :=
  s <- get ;;
  if needPaddingTo128Bits (in_addr + Z.of_nat (s_inoff s))
  then match fuel with
       | O => fail LoopBound
       | S fuel' =>
           w <- peek_in ;;
           check (w =? CookiePadder) StreamCorrupt ;;
           advance_in 1 ;;
           skip_padding fuel' in_addr
       end
  else ret tt.

(** [for (uint32_t i = 0; i < 4; ++i, ++in) { Bs[0 + 4 * i] = ...; ... }] *)
Definition read_header : M (list Z) :=
  w0 <- peek_in ;; advance_in 1 ;;
  w1 <- peek_in ;; advance_in 1 ;;
  w2 <- peek_in ;; advance_in 1 ;;
  w3 <- peek_in ;; advance_in 1 ;;
  ret (header_widths w0 ++ header_widths w1 ++ header_widths w2 ++ header_widths w3).

(** One block of the decoder: the header, then one kernel call per
    miniblock, storing at [out + i * MiniBlockSize]. *)
Definition decode_block (howmany : nat) : M unit :=
  Bs <- read_header ;;
  for_range 0 howmany (fun i =>
    s <- get ;;
    let bit := nth i Bs 0 in
    let n := Z.to_nat (wrap32 (MiniBlockSize / 32 * bit)) in
    log_call (s_inoff s) bit ;;
    src <- load_in n ;;
    store_out (i * Z.to_nat MiniBlockSize) (SIMD_fastunpack_32 src bit) ;;
    advance_in n).

(** [for (; out < initout + actuallength / (HowManyMiniBlocks * MiniBlockSize)
                          * HowManyMiniBlocks * MiniBlockSize;
          out += HowManyMiniBlocks * MiniBlockSize)] *)
Fixpoint decode_full_blocks (fuel : nat) (initout : nat) (actuallength : Z) : M unit :=
  s <- get ;;
  if Z.of_nat (s_out s) <?
     Z.of_nat initout
     + wrap32 (wrap32 (actuallength / (HowManyMiniBlocks * MiniBlockSize)
                       * HowManyMiniBlocks) * MiniBlockSize)
  then match fuel with
       | O => fail LoopBound
       | S fuel' =>
           decode_block 16 ;;
           advance_out (Z.to_nat (HowManyMiniBlocks * MiniBlockSize)) ;;
           decode_full_blocks fuel' initout actuallength
       end
  else ret tt.

(** [if (out < initout + actuallength) { ... }]: the trailing block. *)
Definition decode_trailing (initout : nat) (actuallength : Z) : M unit :=
  s <- get ;;
  if Z.of_nat (s_out s) <? Z.of_nat initout + actuallength
  then
    let howmany :=
      Z.to_nat ((Z.of_nat initout + actuallength - Z.of_nat (s_out s))
                / MiniBlockSize) in
    decode_block howmany ;;
    advance_out (howmany * Z.to_nat MiniBlockSize) ;;
    s' <- get ;;
    check (Z.of_nat (s_out s') =? Z.of_nat initout + actuallength)
          AssertionFailed
  else ret tt.

Definition decodeArray_body (in_addr out_addr : Z) : M (nat * nat) :=
  actuallength <- peek_in ;; advance_in 1 ;;
  s0 <- get ;;
  check (negb (needPaddingTo128Bits (out_addr + Z.of_nat (s_out s0))))
        BadOutputAlignment ;;
  skip_padding 4 in_addr ;;
  let initout := s_out s0 in
  decode_full_blocks (Z.to_nat actuallength) initout actuallength ;;
  decode_trailing initout actuallength ;;
  s1 <- get ;;
  ret (s_inoff s1, (s_out s1 - initout)%nat).

(** [decodeArray in length out nvalue], with [inbuf] the array behind [in]
    and [outbuf] the one behind [out].  The answer is the pair of the
    returned cursor (as [in] plus a number of words) and [nvalue], or the
    exception, with the final registers. *)
Definition decodeArray (inbuf : list Z) (in_addr : Z) (outbuf : list Z) (out_addr : Z)
  : outcome (nat * nat) * state :=
  decodeArray_body in_addr out_addr (mkState inbuf 0 outbuf 0 []).

End Codec.

(** ** A reference pair of width kernels

    The kernels are outside the header, and the properties below hold for
    any pair that meets their contract.  The pair defined here meets it and
    serves to run the codec on inputs. *)

Fixpoint to_digits (B : Z) (n : nat) (v : Z) : list Z :=
  match n with
  | O => []
  | S n' => v mod B :: to_digits B n' (v / B)
  end.

Definition from_digits (B : Z) (l : list Z) : Z :=
  fold_right (fun d acc => d + B * acc) 0 l.

Definition width_ok (bit : Z) : bool := (0 <=? bit) && (bit <=? 32).

(** Modelled from the spec: a pack kernel in place of
    [SIMD_fastpackwithoutmask_32] of simdbitpacking.h, which is not part of
    the sources at hand.  It "reads 128 input words and writes exactly
    4 * bits output words": the 128 values are the base-[2^bit] digits of
    one number, whose base-[2^32] digits are the words stored.  At a width
    outside 0..32, of which the spec says nothing, it stores nothing. *)
Definition ref_pack (m : list Z) (bit : Z) : list Z :=
  if width_ok bit
  then to_digits (2 ^ 32) (Z.to_nat (4 * bit)) (from_digits (2 ^ bit) m)
  else [].

(** Modelled from the spec: an unpack kernel in place of
    [SIMD_fastunpack_32] of simdbitpacking.h, which is not part of the
    sources at hand.  It "inverts pack: reads 4 * bits input words and
    writes exactly 128 output words".  At a width outside 0..32 it stores
    nothing. *)
Definition ref_unpack (src : list Z) (bit : Z) : list Z :=
  if width_ok bit
  then to_digits (2 ^ bit) 128 (from_digits (2 ^ 32) src)
  else [].

(** ** The stream, described

    [encoded_stream] says in one expression what [encodeArray] stores: the
    length, the padding, then one frame per block of up to 16 miniblocks. *)

(** [l] cut in pieces of [n] elements, the last one possibly shorter. *)
Fixpoint chunks (fuel n : nat) (l : list Z) : list (list Z) :=
  match fuel with
  | O => []
  | S fuel' =>
      match l with
      | [] => []
      | _ => firstn n l :: chunks fuel' n (skipn n l)
      end
  end.

Definition blocks (inp : list Z) : list (list Z) :=
  chunks (length inp) 2048 inp.

(** The number of padding words that take the cursor at address [a] to the
    next multiple of four. *)
Definition pad_count (a : Z) : nat := Z.to_nat ((- a) mod 4).

Section Stream.

Variable pack : list Z -> Z -> list Z.

Definition frame_header (blk : list Z) : list Z :=
  let Bs := block_widths blk (length blk / 128) in
  [header_word Bs 0; header_word Bs 1; header_word Bs 2; header_word Bs 3].

Definition frame_payload (blk : list Z) : list Z :=
  concat (map (fun i => pack (miniblock blk i) (maxbits (miniblock blk i)))
              (seq 0 (length blk / 128))).

Definition enc_frame (blk : list Z) : list Z :=
  frame_header blk ++ frame_payload blk.

Definition encoded_stream (inp : list Z) (out_addr : Z) : list Z :=
  wrap32 (Z.of_nat (length inp))
  :: repeat CookiePadder (pad_count (out_addr + 1))
  ++ concat (map enc_frame (blocks inp)).

End Stream.

(** The kernel calls of one block whose header went to offset [off]: the
    destination of each call and its width. *)
Fixpoint calls_from (off : nat) (bs : list Z) : list (nat * Z) :=
  match bs with
  | [] => []
  | b :: bs' => (off, b) :: calls_from (off + Z.to_nat (4 * b)) bs'
  end.

Definition miniblock_widths (blk : list Z) : list Z :=
  map (fun i => maxbits (miniblock blk i)) (seq 0 (length blk / 128)).

Definition frame_calls (off : nat) (blk : list Z) : list (nat * Z) :=
  calls_from (off + 4) (miniblock_widths blk).

(** The length of a frame, from the widths alone. *)
Definition frame_length (blk : list Z) : nat :=
  (4 + fold_right (fun b acc => Z.to_nat (4 * b) + acc) 0 (miniblock_widths blk))%nat.

Fixpoint stream_calls (off : nat) (bls : list (list Z)) : list (nat * Z) :=
  match bls with
  | [] => []
  | blk :: bls' => frame_calls off blk ++ stream_calls (off + frame_length blk) bls'
  end.

(** ** The contract of the width kernels *)

(** Modelled from the spec: the contract of [SIMD_fastpackwithoutmask_32]
    of simdbitpacking.h, which is not part of the sources at hand.  "pack
    reads 128 input words and writes exactly 4 * bits output words", for
    bits in 0..32. *)
Definition pack_contract (pack : list Z -> Z -> list Z) : Prop :=
  forall m b, 0 <= b <= 32 -> length (pack m b) = Z.to_nat (4 * b).

(** Modelled from the spec: the contract of [SIMD_fastunpack_32] of
    simdbitpacking.h, which is not part of the sources at hand.  "unpack
    inverts pack: reads 4 * bits input words and writes exactly 128 output
    words", for 128 values that fit in [bits] bits (of the others the
    contract of pack says nothing). *)
Definition unpack_contract (pack unpack : list Z -> Z -> list Z) : Prop :=
  forall m b, 0 <= b <= 32 -> length m = 128%nat ->
              Forall (fun v => 0 <= v < 2 ^ b) m ->
              unpack (pack m b) b = m.

(** ** Vocabulary of the statements *)

(** What [checkifdivisibleby length BlockSize] lets through. *)
Definition valid_length (L : Z) : Prop := 0 < L /\ L mod 128 = 0.

Definition is_byte (b : Z) : Prop := 0 <= b < 256.

Definition is_u32b (z : Z) : bool := (0 <=? z) && (z <? 2 ^ 32).

(** The sixteen widths the decoder takes from four header words. *)
Definition decode_header (hw : list Z) : list Z := flat_map header_widths hw.

(** [l] with the word at index [j] replaced by [v]. *)
Definition mutate (j : nat) (v : Z) (l : list Z) : list Z :=
  firstn j l ++ v :: skipn (S j) l.

(** The miniblocks of a block, or of the whole input, in order. *)
Definition miniblocks_of (blk : list Z) : list (list Z) :=
  map (miniblock blk) (seq 0 (length blk / 128)).

(** At the offset of the kernel call [c], the stream [strm] holds the payload
    of the miniblock [m], packed at its width [maxbits m]. *)
Definition payload_at (pack : list Z -> Z -> list Z) (strm : list Z)
  (c : nat * Z) (m : list Z) : Prop :=
  snd c = maxbits m
  /\ firstn (Z.to_nat (4 * snd c)) (skipn (fst c) strm) = pack m (snd c).

(** A kernel call whose cursor is a multiple of four words from the start
    of the stream. *)
Definition aligned_call (c : nat * Z) : Prop := (fst c mod 4 = 0)%nat.

(** A computation that never throws StreamCorrupt. *)
Definition never_corrupt {A} (c : M A) : Prop :=
  forall s e s', c s = (Err e, s') -> e <> StreamCorrupt.

(** A computation whose only exception is [OutOfBounds]. *)
Definition only_oob {A} (c : M A) : Prop :=
  forall s e s', c s = (Err e, s') -> e = OutOfBounds.

(** A computation that, when it returns, leaves the component [f] of the
    registers as it was. *)
Definition keeps {X A} (f : state -> X) (c : M A) : Prop :=
  forall s a s', c s = (Ok a, s') -> f s' = f s.

(** A computation whose exceptions all satisfy [P]. *)
Definition raises_only {A} (P : error -> Prop) (c : M A) : Prop :=
  forall s e s', c s = (Err e, s') -> P e.

(** A kernel call at an address that is a multiple of 16 bytes, for an
    array at the word address [base]. *)
Definition call_aligned_at (base : Z) (c : nat * Z) : Prop :=
  (base + Z.of_nat (fst c)) mod 4 = 0.

(** Between two kernel calls: the cursor [cur] of the array at [base] is
    16-byte aligned, and so was every kernel call so far. *)
Definition aligned_run (base : Z) (cur : state -> nat) (s : state) : Prop :=
  (base + Z.of_nat (cur s)) mod 4 = 0
  /\ Forall (call_aligned_at base) (s_calls s).

(** The payload words of a list of miniblocks: four per bit of width. *)
Definition payload_words (ms : list (list Z)) : nat :=
  fold_right (fun m acc => (Z.to_nat (4 * maxbits m) + acc)%nat) 0%nat ms.

(** ** Inputs to run on *)

(** The input of scenario S2, [1; 2; ...; 128], and arrays for it. *)
Definition sample_input : list Z := map Z.of_nat (seq 1 128).
Definition sample_outbuf : list Z := repeat 0 48.
Definition sample_dst : list Z := repeat 0 128.

(** An input of [2^32] words, all zero, and arrays large enough for it. *)
Definition huge_input : list Z := repeat 0 (Z.to_nat (2 ^ 32)).
Definition huge_outbuf : list Z := repeat 0 (Z.to_nat (2 ^ 33)).
Definition huge_dst : list Z := repeat 1 (Z.to_nat (2 ^ 32)).

(** * Proofs *)

(** ** Lists and arrays *)

Lemma store_at_end (pre room ws : list Z) :
  (length ws <= length room)%nat ->
  store (pre ++ room) (length pre) ws
  = Some ((pre ++ ws) ++ skipn (length ws) room).
Proof.
  intros Hle. unfold store.
  rewrite length_app.
  destruct (Nat.leb_spec (length pre + length ws) (length pre + length room)) as [_|Hn];
    [|lia].
  f_equal.
  rewrite firstn_app, Nat.sub_diag, firstn_all, firstn_O, app_nil_r.
  rewrite skipn_app, skipn_all2 by lia.
  replace (length pre + length ws - length pre)%nat with (length ws) by lia.
  now rewrite <- app_assoc.
Qed.

Lemma skipn_skipn_add {A} (a b : nat) (l : list A) :
  skipn a (skipn b l) = skipn (b + a) l.
Proof.
  revert l; induction b as [|b IH]; intros l; [reflexivity|].
  destruct l as [|x l]; [now rewrite !skipn_nil|].
  cbn [skipn Nat.add]. apply IH.
Qed.

Lemma concat_length_sum (ls : list (list Z)) :
  length (concat ls) = fold_right (fun l acc => (length l + acc)%nat) 0%nat ls.
Proof.
  induction ls as [|l ls IH]; [reflexivity|].
  cbn [concat fold_right]. now rewrite length_app, IH.
Qed.

(** ** Widths *)

Lemma list_max_nonneg (l : list Z) : 0 <= list_max l.
Proof. unfold list_max. induction l as [|x l IH]; cbn; lia. Qed.

Lemma list_max_ge (l : list Z) (x : Z) : In x l -> x <= list_max l.
Proof.
  unfold list_max. induction l as [|y l IH]; cbn; [tauto|].
  intros [->|Hin]; [lia|]. specialize (IH Hin). lia.
Qed.

Lemma list_max_in (l : list Z) : list_max l = 0 \/ In (list_max l) l.
Proof.
  unfold list_max. induction l as [|y l IH]; cbn; [now left|].
  destruct (Z.max_spec y (fold_right Z.max 0 l)) as [[_ ->]|[_ ->]].
  - destruct IH as [IH|IH]; [now left|now right; right].
  - now right; left.
Qed.

Lemma list_max_u32 (l : list Z) : Forall is_u32 l -> is_u32 (list_max l).
Proof.
  intros H. destruct (list_max_in l) as [->|Hin].
  - unfold is_u32; lia.
  - rewrite Forall_forall in H. now apply H.
Qed.

Lemma bits_range (m : Z) :
  0 <= m < 2 ^ 32 -> 0 <= (if m =? 0 then 0 else Z.log2 m + 1) <= 32.
Proof.
  intros Hm. destruct (Z.eqb_spec m 0); [lia|].
  assert (Z.log2 m < 32) by (apply Z.log2_lt_pow2; lia).
  pose proof (Z.log2_nonneg m). lia.
Qed.

Lemma maxbits_range (l : list Z) : Forall is_u32 l -> 0 <= maxbits l <= 32.
Proof. intros H. apply bits_range, (list_max_u32 _ H). Qed.

(** Every value of the list fits in [maxbits] bits. *)
Lemma maxbits_fits (l : list Z) :
  Forall is_u32 l -> Forall (fun v => 0 <= v < 2 ^ maxbits l) l.
Proof.
  intros H. rewrite Forall_forall in *. intros v Hv.
  pose proof (H v Hv) as [Hv0 _]. split; [exact Hv0|].
  pose proof (list_max_ge l v Hv) as Hle.
  unfold maxbits. cbv zeta.
  destruct (Z.eqb_spec (list_max l) 0) as [E|E].
  - rewrite E in Hle. change (2 ^ 0) with 1. 
    assert (v = 0) by lia. subst v. lia.
  - assert (0 < list_max l) by lia.
    pose proof (Z.log2_spec (list_max l) ltac:(lia)) as [_ Hup].
    rewrite <- Z.add_1_r in Hup. lia.
Qed.

(** [maxbits] is the ceiling of the binary logarithm of the maximum plus one. *)
Lemma maxbits_log2_up (l : list Z) : maxbits l = Z.log2_up (list_max l + 1).
Proof.
  unfold maxbits. cbv zeta.
  destruct (Z.eqb_spec (list_max l) 0) as [E|E].
  - now rewrite E.
  - pose proof (list_max_nonneg l).
    rewrite Z.log2_up_eqn by lia.
    replace (Z.pred (list_max l + 1)) with (list_max l) by lia. lia.
Qed.

Lemma wrap32_words (b : Z) :
  0 <= b <= 32 -> wrap32 (MiniBlockSize / 32 * b) = 4 * b.
Proof.
  intros Hb. unfold wrap32. change (MiniBlockSize / 32) with 4.
  apply Z.mod_small. change (2 ^ 32) with 4294967296. lia.
Qed.

(** ** The steps of the monad on an array split at the cursor *)

Lemma write_out_ok v sin io pre room c :
  (1 <= length room)%nat ->
  write_out v (mkState sin io (pre ++ room) (length pre) c)
  = (Ok tt, mkState sin io ((pre ++ [v]) ++ skipn 1 room) (length (pre ++ [v])) c).
Proof.
  intros H. unfold write_out. cbn [s_outbuf s_out s_in s_inoff s_calls].
  rewrite store_at_end by exact H.
  now rewrite length_app, Nat.add_1_r.
Qed.

Lemma kernel_store_ok ws n sin io pre room c :
  n = length ws ->
  (length ws <= length room)%nat ->
  (store_out 0 ws ;; advance_out n) (mkState sin io (pre ++ room) (length pre) c)
  = (Ok tt, mkState sin io ((pre ++ ws) ++ skipn (length ws) room)
                    (length (pre ++ ws)) c).
Proof.
  intros -> H. unfold bind, store_out, advance_out.
  cbn [s_outbuf s_out s_in s_inoff s_calls].
  rewrite Nat.add_0_r, store_at_end by exact H.
  cbn [s_outbuf s_out s_in s_inoff s_calls].
  rewrite !length_app, length_skipn.
  destruct (Nat.leb_spec (length pre + length ws)
              (length pre + length ws + (length room - length ws))) as [_|Hn]; [|lia].
  reflexivity.
Qed.

Section Encoder.

Variable pack : list Z -> Z -> list Z.
Hypothesis pack_length : pack_contract pack.

Lemma pack_loop_ok inp Bs n : forall i sin io pre room c,
  (forall j, (i <= j < i + n)%nat -> 0 <= nth j Bs 0 <= 32) ->
  let payload :=
    concat (map (fun j => pack (miniblock inp j) (nth j Bs 0)) (seq i n)) in
  (length payload <= length room)%nat ->
  for_range i n (fun i =>
    s' <- get ;;
    log_call (s_out s') (nth i Bs 0) ;;
    store_out 0 (pack (miniblock inp i) (nth i Bs 0)) ;;
    advance_out (Z.to_nat (wrap32 (MiniBlockSize / 32 * nth i Bs 0))))
    (mkState sin io (pre ++ room) (length pre) c)
  = (Ok tt, mkState sin io ((pre ++ payload) ++ skipn (length payload) room)
                    (length (pre ++ payload))
                    (c ++ calls_from (length pre)
                            (map (fun j => nth j Bs 0) (seq i n)))).
Proof.
  induction n as [|n IH]; intros i sin io pre room c Hb payload Hroom.
  - subst payload. cbn [for_range seq map concat calls_from length skipn].
    now rewrite !app_nil_r.
  - subst payload. cbn [seq map concat calls_from] in *.
    rewrite length_app in Hroom.
    assert (Hbi : 0 <= nth i Bs 0 <= 32) by (apply Hb; lia).
    pose proof (pack_length (miniblock inp i) _ Hbi) as Hlen.
    cbn [for_range]. unfold bind at 1. unfold bind at 1. unfold get at 1.
    unfold bind at 1. unfold log_call at 1.
    cbn [s_outbuf s_out s_in s_inoff s_calls].
    rewrite kernel_store_ok; [| rewrite wrap32_words, Hlen by exact Hbi; reflexivity | lia].
    rewrite IH; [| intros j Hj; apply Hb; lia | rewrite length_skipn; lia].
    f_equal. f_equal.
    + rewrite skipn_skipn_add, length_app. now rewrite <- !app_assoc.
    + now rewrite <- !app_assoc.
    + rewrite <- app_assoc. cbn [app]. now rewrite length_app, Hlen.
Qed.

End Encoder.

Lemma bind_ok {A B} (c : M A) (f : A -> M B) s a s' :
  c s = (Ok a, s') -> bind c f s = f a s'.
Proof. intros H. unfold bind. now rewrite H. Qed.

Lemma bind_err {A B} (c : M A) (f : A -> M B) s e s' :
  c s = (Err e, s') -> bind c f s = (Err e, s').
Proof. intros H. unfold bind. now rewrite H. Qed.

Lemma bind_get {B} (f : state -> M B) s : bind get f s = f s s.
Proof. reflexivity. Qed.

(** ** Miniblocks *)

Lemma miniblock_firstn (h i : nat) (l : list Z) :
  (i < h)%nat -> miniblock (firstn (h * 128) l) i = miniblock l i.
Proof.
  intros Hi. unfold miniblock.
  rewrite skipn_firstn_comm, firstn_firstn.
  f_equal. lia.
Qed.

Lemma Forall_firstn_skipn (P : Z -> Prop) (n : nat) (l : list Z) :
  Forall P l -> Forall P (firstn n l) /\ Forall P (skipn n l).
Proof.
  intros H. rewrite <- (firstn_skipn n l) in H. now apply Forall_app in H.
Qed.

Lemma miniblock_Forall (P : Z -> Prop) (l : list Z) (i : nat) :
  Forall P l -> Forall P (miniblock l i).
Proof.
  intros H. unfold miniblock.
  apply Forall_firstn_skipn, Forall_firstn_skipn, H.
Qed.

Lemma miniblock_length (l : list Z) (i : nat) :
  ((i + 1) * 128 <= length l)%nat -> length (miniblock l i) = 128%nat.
Proof.
  intros H. unfold miniblock. rewrite length_firstn, length_skipn. lia.
Qed.

Lemma miniblock_app (l r : list Z) (i : nat) :
  ((i + 1) * 128 <= length l)%nat -> miniblock (l ++ r) i = miniblock l i.
Proof.
  intros H. unfold miniblock.
  rewrite skipn_app, firstn_app, length_skipn.
  replace (128 - (length l - i * 128))%nat with 0%nat by lia.
  now rewrite firstn_O, app_nil_r.
Qed.

Lemma nth_block_widths (inp : list Z) (h j : nat) :
  (j < h)%nat -> nth j (block_widths inp h) 0 = maxbits (miniblock inp j).
Proof.
  intros Hj. unfold block_widths.
  rewrite app_nth1 by (rewrite length_map, length_seq; exact Hj).
  rewrite (nth_indep _ 0 (maxbits (miniblock inp 0)))
    by (rewrite length_map, length_seq; exact Hj).
  rewrite (map_nth (fun i => maxbits (miniblock inp i))).
  now rewrite seq_nth by exact Hj.
Qed.

Lemma block_widths_firstn (inp : list Z) (h : nat) :
  block_widths (firstn (h * 128) inp) h = block_widths inp h.
Proof.
  unfold block_widths. f_equal. apply map_ext_in. intros i Hi.
  apply in_seq in Hi. now rewrite miniblock_firstn by lia.
Qed.

Lemma div128 (h : nat) : (h * 128 / 128 = h)%nat.
Proof. apply Nat.div_mul. discriminate. Qed.

Section EncodeBlock.

Variable pack : list Z -> Z -> list Z.
Hypothesis pack_length : pack_contract pack.

Lemma frame_payload_firstn (inp : list Z) (h : nat) :
  (h * 128 <= length inp)%nat ->
  frame_payload pack (firstn (h * 128) inp)
  = concat (map (fun j => pack (miniblock inp j)
                               (nth j (block_widths inp h) 0)) (seq 0 h)).
Proof.
  intros Hl. unfold frame_payload.
  rewrite length_firstn, Nat.min_l, div128 by exact Hl.
  f_equal. apply map_ext_in. intros i Hi. apply in_seq in Hi.
  now rewrite miniblock_firstn, nth_block_widths by lia.
Qed.

Lemma miniblock_widths_firstn (inp : list Z) (h : nat) :
  (h * 128 <= length inp)%nat ->
  miniblock_widths (firstn (h * 128) inp)
  = map (fun j => nth j (block_widths inp h) 0) (seq 0 h).
Proof.
  intros Hl. unfold miniblock_widths.
  rewrite length_firstn, Nat.min_l, div128 by exact Hl.
  apply map_ext_in. intros i Hi. apply in_seq in Hi.
  now rewrite miniblock_firstn, nth_block_widths by lia.
Qed.

Lemma frame_header_firstn (inp : list Z) (h : nat) :
  (h * 128 <= length inp)%nat ->
  frame_header (firstn (h * 128) inp)
  = let Bs := block_widths inp h in
    [header_word Bs 0; header_word Bs 1; header_word Bs 2; header_word Bs 3].
Proof.
  intros Hl. unfold frame_header.
  rewrite length_firstn, Nat.min_l, div128 by exact Hl.
  now rewrite block_widths_firstn.
Qed.

Lemma encode_block_ok (h : nat) sin io pre room c :
  (h * 128 <= length sin)%nat ->
  Forall is_u32 sin ->
  let F := enc_frame pack (firstn (h * 128) sin) in
  (length F <= length room)%nat ->
  encode_block pack h (mkState sin io (pre ++ room) (length pre) c)
  = (Ok tt, mkState sin io ((pre ++ F) ++ skipn (length F) room)
                    (length (pre ++ F))
                    (c ++ frame_calls (length pre) (firstn (h * 128) sin))).
Proof.
  intros Hl Hu F Hroom. subst F. unfold enc_frame in *.
  rewrite frame_header_firstn, frame_payload_firstn in * by exact Hl.
  unfold frame_calls. rewrite miniblock_widths_firstn by exact Hl.
  cbv zeta in *. rewrite length_app in Hroom. cbn [length] in Hroom.
  unfold encode_block. rewrite bind_get. cbn [s_in]. cbv zeta.
  set (Bs := block_widths sin h) in *.
  erewrite bind_ok by (apply write_out_ok; lia).
  erewrite bind_ok by (apply write_out_ok; rewrite !length_skipn; lia).
  erewrite bind_ok by (apply write_out_ok; rewrite !length_skipn; lia).
  erewrite bind_ok by (apply write_out_ok; rewrite !length_skipn; lia).
  rewrite (pack_loop_ok pack pack_length).
  - f_equal. f_equal.
    + rewrite !skipn_skipn_add, !length_app. cbn [length].
      rewrite <- !app_assoc. reflexivity.
    + rewrite <- !app_assoc. reflexivity.
    + rewrite !length_app. cbn [length]. do 2 f_equal. lia.
  - intros j Hj. subst Bs. rewrite nth_block_widths by lia.
    apply maxbits_range, miniblock_Forall, Hu.
  - rewrite !length_skipn. lia.
Qed.

End EncodeBlock.

Lemma chunks_nil (fuel n : nat) : chunks fuel n [] = [].
Proof. now destruct fuel. Qed.

Lemma chunks_cons (fuel n : nat) (l : list Z) :
  (0 < length l)%nat ->
  chunks (S fuel) n l = firstn n l :: chunks fuel n (skipn n l).
Proof. destruct l; cbn [length chunks]; [lia|reflexivity]. Qed.

Lemma advance_in_ok n sin io ob o c :
  (n <= length sin)%nat ->
  advance_in n (mkState sin io ob o c)
  = (Ok tt, mkState (skipn n sin) (io + n) ob o c).
Proof.
  intros H. unfold advance_in. cbn [s_outbuf s_out s_in s_inoff s_calls].
  now destruct (Nat.leb_spec n (length sin)); [|lia].
Qed.

Lemma encode_full_blocks_eq pack fuel s :
  encode_full_blocks pack fuel s
  = if (2048 <=? length (s_in s))%nat
    then match fuel with
         | O => (Err LoopBound, s)
         | S fuel' =>
             (encode_block pack 16 ;;
              advance_in 2048 ;;
              encode_full_blocks pack fuel') s
         end
    else (Ok tt, s).
Proof.
  destruct fuel; cbn [encode_full_blocks]; rewrite bind_get;
    change (Z.to_nat (HowManyMiniBlocks * MiniBlockSize)) with 2048%nat;
    now destruct (2048 <=? length (s_in s))%nat.
Qed.

Lemma encode_full_blocks_step {B} pack fuel (k : M B) s :
  (2048 <= length (s_in s))%nat ->
  (encode_full_blocks pack (S fuel) ;; k) s
  = (encode_block pack 16 ;; advance_in 2048 ;;
     (encode_full_blocks pack fuel ;; k)) s.
Proof.
  intros H. unfold bind at 1. rewrite encode_full_blocks_eq.
  destruct (Nat.leb_spec 2048 (length (s_in s))); [|lia].
  unfold bind. destruct (encode_block pack 16 s) as [[[]|e] s1]; [|reflexivity].
  destruct (advance_in 2048 s1) as [[[]|e] s2]; reflexivity.
Qed.

Lemma encode_full_blocks_exit {B} pack fuel (k : M B) s :
  (length (s_in s) < 2048)%nat ->
  (encode_full_blocks pack fuel ;; k) s = k s.
Proof.
  intros H. unfold bind at 1. rewrite encode_full_blocks_eq.
  now destruct (Nat.leb_spec 2048 (length (s_in s))); [lia|].
Qed.

Section EncodeLoops.

Variable pack : list Z -> Z -> list Z.
Hypothesis pack_length : pack_contract pack.

Lemma miniblock_widths_range (blk : list Z) :
  Forall is_u32 blk -> Forall (fun b => 0 <= b <= 32) (miniblock_widths blk).
Proof.
  intros Hu. unfold miniblock_widths. apply Forall_forall. intros b Hb.
  apply in_map_iff in Hb as [i [<- _]].
  apply maxbits_range, miniblock_Forall, Hu.
Qed.

Lemma enc_frame_length (blk : list Z) :
  Forall is_u32 blk -> length (enc_frame pack blk) = frame_length blk.
Proof.
  intros Hu. unfold enc_frame, frame_length, frame_payload, miniblock_widths.
  rewrite length_app. cbn [frame_header length]. do 4 f_equal.
  induction (seq 0 (length blk / 128)) as [|i l IH]; [reflexivity|].
  cbn [map concat fold_right]. rewrite length_app, IH. f_equal.
  apply pack_length, maxbits_range, miniblock_Forall, Hu.
Qed.

Lemma encode_blocks_ok (fuel : nat) : forall sin io pre room c,
  (length sin <= fuel)%nat ->
  (length sin mod 128 = 0)%nat ->
  Forall is_u32 sin ->
  let F := concat (map (enc_frame pack) (chunks fuel 2048 sin)) in
  (length F <= length room)%nat ->
  (encode_full_blocks pack fuel ;; encode_trailing pack)
    (mkState sin io (pre ++ room) (length pre) c)
  = (Ok tt, mkState [] (io + length sin) ((pre ++ F) ++ skipn (length F) room)
                    (length (pre ++ F))
                    (c ++ stream_calls (length pre) (chunks fuel 2048 sin))).
Proof.
  induction fuel as [|fuel IH]; intros sin io pre room c Hf Hm Hu F Hroom.
  - destruct sin; [|cbn [length] in Hf; lia].
    subst F. cbn. now rewrite !app_nil_r, Nat.add_0_r.
  - destruct (Nat.leb_spec 2048 (length sin)) as [Hge|Hlt].
    + (* a full block *)
      rewrite encode_full_blocks_step by exact Hge.
      subst F. rewrite chunks_cons in * by lia.
      cbn [map concat stream_calls] in *. rewrite length_app in Hroom.
      pose proof (Forall_firstn_skipn _ 2048 _ Hu) as [Hu1 Hu2].
      erewrite bind_ok; cycle 1.
      { change 2048%nat with (16 * 128)%nat.
        apply (encode_block_ok pack pack_length); [exact Hge|exact Hu|].
        change (16 * 128)%nat with 2048%nat. lia. }
      change (16 * 128)%nat with 2048%nat.
      erewrite bind_ok by (apply advance_in_ok; lia).
      rewrite IH; [ | rewrite length_skipn; lia | | exact Hu2 | ]; cycle 1.
      { rewrite length_skipn.
        pose proof (Nat.Div0.div_mod (length sin) 128).
        pose proof (Nat.Div0.mod_divides (length sin) 128) as [Hd _].
        destruct (Hd Hm) as [k Hk]. rewrite Hk.
        replace (128 * k - 2048)%nat with ((k - 16) * 128)%nat by lia.
        apply Nat.Div0.mod_mul. }
      { rewrite length_skipn. lia. }
      f_equal. f_equal.
      * rewrite length_skipn. lia.
      * rewrite skipn_skipn_add, !length_app. now rewrite <- !app_assoc.
      * now rewrite <- !app_assoc.
      * rewrite <- app_assoc. do 2 f_equal.
        rewrite length_app. now rewrite (enc_frame_length _ Hu1).
    + (* the loop is left *)
      rewrite encode_full_blocks_exit by exact Hlt.
      destruct sin as [|x sin']; [subst F; cbn; now rewrite !app_nil_r, Nat.add_0_r|].
      set (sin := x :: sin') in *.
      assert (Hpos : (0 < length sin)%nat) by (subst sin; cbn [length]; lia).
      subst F. rewrite chunks_cons in * by exact Hpos.
      rewrite (firstn_all2 (n:=2048)) in * by lia.
      rewrite (skipn_all2 (n:=2048)) in * by lia.
      rewrite chunks_nil in *. cbn [map concat stream_calls] in *.
      rewrite !app_nil_r in *.
      unfold encode_trailing. rewrite bind_get. cbn [s_in].
      destruct (Nat.ltb_spec 0 (length sin)) as [_|]; [|lia].
      change (Z.to_nat MiniBlockSize) with 128%nat.
      pose proof (Nat.Div0.mod_divides (length sin) 128) as [Hd _].
      destruct (Hd Hm) as [k Hk].
      assert (Hq : (length sin / 128 = k)%nat)
        by (rewrite Hk, Nat.mul_comm; apply Nat.div_mul; discriminate).
      rewrite Hq.
      assert (Hall : firstn (k * 128) sin = sin) by (apply firstn_all2; lia).
      erewrite bind_ok; cycle 1.
      { apply (encode_block_ok pack pack_length); [lia|exact Hu|].
        rewrite Hall. exact Hroom. }
      rewrite Hall.
      erewrite bind_ok by (apply advance_in_ok; lia).
      rewrite bind_get. cbn [s_in].
      rewrite skipn_all2 by lia. cbn [check]. unfold ret.
      replace (k * 128)%nat with (length sin) by lia. reflexivity.
Qed.

End EncodeLoops.

Lemma bind_seq_assoc {A B C} (c : M A) (d : M B) (k : M C) s :
  (c ;; d ;; k) s = ((c ;; d) ;; k) s.
Proof. unfold bind. now destruct (c s) as [[a|e] s1]. Qed.

(** ** Padding *)

Lemma pad_count_aligned (a : Z) : a mod 4 = 0 -> pad_count a = 0%nat.
Proof.
  intros H. unfold pad_count.
  replace ((- a) mod 4) with 0; [reflexivity|].
  symmetry. apply Z.mod_opp_l_z; [lia|exact H].
Qed.

Lemma pad_count_step (a : Z) :
  a mod 4 <> 0 -> pad_count a = S (pad_count (a + 1)).
Proof.
  intros H. unfold pad_count.
  rewrite <- Z2Nat.inj_succ by (apply Z.mod_pos_bound; lia).
  f_equal. Z.div_mod_to_equations. lia.
Qed.

Lemma pad_count_le (a : Z) : (pad_count a <= 3)%nat.
Proof.
  unfold pad_count. pose proof (Z.mod_pos_bound (- a) 4 ltac:(lia)). lia.
Qed.

Lemma needPadding_false (a : Z) :
  a mod 4 = 0 -> needPaddingTo128Bits a = false.
Proof. intros H. unfold needPaddingTo128Bits. now rewrite H. Qed.

Lemma needPadding_true (a : Z) :
  a mod 4 <> 0 -> needPaddingTo128Bits a = true.
Proof.
  intros H. unfold needPaddingTo128Bits.
  now destruct (Z.eqb_spec (a mod 4) 0).
Qed.

Lemma pad_out_ok (addr : Z) (fuel : nat) : forall sin io pre room c,
  let P := repeat CookiePadder (pad_count (addr + Z.of_nat (length pre))) in
  (length P <= fuel)%nat ->
  (length P <= length room)%nat ->
  pad_out fuel addr (mkState sin io (pre ++ room) (length pre) c)
  = (Ok tt, mkState sin io ((pre ++ P) ++ skipn (length P) room)
                    (length (pre ++ P)) c).
Proof.
  induction fuel as [|fuel IH]; intros sin io pre room c P Hf Hroom; subst P;
    rewrite repeat_length in *;
    destruct (Z.eq_dec ((addr + Z.of_nat (length pre)) mod 4) 0) as [E|E].
  - cbn [pad_out]. rewrite bind_get. cbn [s_out].
    rewrite needPadding_false, pad_count_aligned by exact E.
    cbn [repeat length skipn]. unfold ret. now rewrite !app_nil_r.
  - rewrite pad_count_step in Hf by exact E. lia.
  - cbn [pad_out]. rewrite bind_get. cbn [s_out].
    rewrite needPadding_false, pad_count_aligned by exact E.
    cbn [repeat length skipn]. unfold ret. now rewrite !app_nil_r.
  - cbn [pad_out]. rewrite bind_get. cbn [s_out].
    rewrite needPadding_true by exact E.
    rewrite pad_count_step in * by exact E.
    erewrite bind_ok by (apply write_out_ok; lia).
    assert (Ha : addr + Z.of_nat (length (pre ++ [CookiePadder]))
                 = addr + Z.of_nat (length pre) + 1)
      by (rewrite length_app; cbn [length]; lia).
    rewrite IH; rewrite ?repeat_length, ?length_skipn, Ha; [|lia|lia].
    cbn [repeat length]. f_equal. f_equal.
    + rewrite skipn_skipn_add. rewrite <- !app_assoc. reflexivity.
    + rewrite <- !app_assoc. reflexivity.
Qed.

(** ** encodeArray stores the described stream *)


Lemma checkifdivisibleby_true (L : Z) :
  valid_length L -> checkifdivisibleby L BlockSize = true.
Proof.
  intros [H0 Hm]. unfold checkifdivisibleby.
  change BlockSize with 128. rewrite Hm.
  now destruct (Z.ltb_spec 0 L); [|lia].
Qed.

Section EncodeArray.

Variable pack : list Z -> Z -> list Z.
Hypothesis pack_length : pack_contract pack.

Lemma encodeArray_ok (inp outbuf : list Z) (addr : Z) :
  valid_length (Z.of_nat (length inp)) ->
  Forall is_u32 inp ->
  let strm := encoded_stream pack inp addr in
  (length strm <= length outbuf)%nat ->
  encodeArray pack inp outbuf addr
  = (Ok (length strm),
     mkState [] (length inp) (strm ++ skipn (length strm) outbuf)
             (length strm)
             (stream_calls (1 + pad_count (addr + 1)) (blocks inp))).
Proof.
  intros Hv Hu strm Hroom. subst strm. unfold encoded_stream in *.
  cbn [length] in Hroom. rewrite length_app, repeat_length in Hroom.
  unfold encodeArray, encodeArray_body.
  rewrite bind_get. cbn [s_in s_out]. cbv zeta.
  rewrite checkifdivisibleby_true by exact Hv. cbn [check].
  unfold bind at 1. unfold ret at 1.
  change (mkState inp 0 outbuf 0 []) with (mkState inp 0 ([] ++ outbuf) (length (@nil Z)) []).
  erewrite bind_ok by (apply write_out_ok; lia).
  erewrite bind_ok; cycle 1.
  { apply pad_out_ok; rewrite repeat_length; cbn [app length];
      change (Z.of_nat 1) with 1;
      [pose proof (pad_count_le (addr + 1)) | rewrite length_skipn]; lia. }
  rewrite bind_seq_assoc.
  destruct Hv as [Hpos Hmod].
  erewrite bind_ok; cycle 1.
  { apply (encode_blocks_ok pack pack_length); [lia| |exact Hu|].
    - apply Nat2Z.inj. rewrite Nat2Z.inj_mod. exact Hmod.
    - rewrite !length_skipn, repeat_length. cbn [app length].
      fold (blocks inp).
      change (Z.of_nat 1) with 1. lia. }
  rewrite bind_get. cbn [s_out]. unfold ret.
  cbn [app length]. change (Z.of_nat 1) with 1.
  fold (blocks inp).
  rewrite skipn_skipn_add, skipn_skipn_add, repeat_length, !length_app, repeat_length.
  cbn [length]. rewrite Nat.sub_0_r.
  rewrite <- !app_assoc. cbn [app].
  do 2 f_equal.
Qed.

End EncodeArray.

(** ** Header words *)

Lemma land_high_low (hi lo n : Z) :
  0 <= n -> 0 <= lo < 2 ^ n -> Z.land (hi * 2 ^ n) lo = 0.
Proof.
  intros Hn Hlo. apply Z.bits_inj'. intros m Hm.
  rewrite Z.land_spec, Z.bits_0, <- Z.shiftl_mul_pow2 by exact Hn.
  destruct (Z.lt_ge_cases m n) as [Hlt|Hge].
  - now rewrite Z.shiftl_spec_low.
  - rewrite <- (Z.mod_small lo (2 ^ n)) by exact Hlo.
    rewrite Z.mod_pow2_bits_high by lia. apply andb_false_r.
Qed.

Lemma lor_high_low (hi lo n : Z) :
  0 <= n -> 0 <= lo < 2 ^ n -> Z.lor (hi * 2 ^ n) lo = hi * 2 ^ n + lo.
Proof.
  intros Hn Hlo. pose proof (land_high_low hi lo n Hn Hlo) as H.
  now rewrite <- Z.lxor_lor, <- Z.add_nocarry_lxor.
Qed.


Lemma header_word_sum (Bs : list Z) (k : nat) :
  is_byte (nth (4 * k) Bs 0) -> is_byte (nth (4 * k + 1) Bs 0) ->
  is_byte (nth (4 * k + 2) Bs 0) -> is_byte (nth (4 * k + 3) Bs 0) ->
  header_word Bs k
  = nth (4 * k) Bs 0 * 2 ^ 24 + nth (4 * k + 1) Bs 0 * 2 ^ 16
    + nth (4 * k + 2) Bs 0 * 2 ^ 8 + nth (4 * k + 3) Bs 0.
Proof.
  unfold header_word, is_byte, wrap32.
  generalize (nth (4 * k) Bs 0) (nth (4 * k + 1) Bs 0)
             (nth (4 * k + 2) Bs 0) (nth (4 * k + 3) Bs 0).
  intros a b c d Ha Hb Hc Hd.
  rewrite !Z.shiftl_mul_pow2 by lia.
  change (2 ^ 32) with 4294967296. change (2 ^ 24) with 16777216.
  change (2 ^ 16) with 65536. change (2 ^ 8) with 256.
  rewrite !Z.mod_small by lia.
  change 16777216 with (2 ^ 24) at 1.
  rewrite lor_high_low by (change (2 ^ 24) with 16777216; lia).
  replace (a * 2 ^ 24 + b * 65536) with ((a * 256 + b) * 2 ^ 16)
    by (change (2 ^ 24) with 16777216; change (2 ^ 16) with 65536; lia).
  change 256 with (2 ^ 8) at 2.
  rewrite lor_high_low by (change (2 ^ 16) with 65536; change (2 ^ 8) with 256; lia).
  replace ((a * 256 + b) * 2 ^ 16 + c * 2 ^ 8) with ((a * 65536 + b * 256 + c) * 2 ^ 8)
    by (change (2 ^ 16) with 65536; change (2 ^ 8) with 256; lia).
  rewrite lor_high_low by (change (2 ^ 8) with 256; lia).
  change (2 ^ 8) with 256. lia.
Qed.

Lemma header_widths_word (Bs : list Z) (k : nat) :
  is_byte (nth (4 * k) Bs 0) -> is_byte (nth (4 * k + 1) Bs 0) ->
  is_byte (nth (4 * k + 2) Bs 0) -> is_byte (nth (4 * k + 3) Bs 0) ->
  header_widths (header_word Bs k)
  = [nth (4 * k) Bs 0; nth (4 * k + 1) Bs 0;
     nth (4 * k + 2) Bs 0; nth (4 * k + 3) Bs 0].
Proof.
  intros Ha Hb Hc Hd. rewrite header_word_sum by assumption.
  unfold is_byte in *. unfold header_widths, cast_u8.
  generalize dependent (nth (4 * k) Bs 0). generalize dependent (nth (4 * k + 1) Bs 0).
  generalize dependent (nth (4 * k + 2) Bs 0). generalize dependent (nth (4 * k + 3) Bs 0).
  intros d Hd c Hc b Hb a Ha.
  rewrite !Z.shiftr_div_pow2 by lia.
  change (2 ^ 24) with 16777216. change (2 ^ 16) with 65536. change (2 ^ 8) with 256.
  repeat f_equal; Z.div_mod_to_equations; lia.
Qed.

(** The decoder's reading of the four header words gives back a vector of
    sixteen bytes. *)
Lemma header_roundtrip (Bs : list Z) :
  length Bs = 16%nat -> Forall is_byte Bs ->
  header_widths (header_word Bs 0) ++ header_widths (header_word Bs 1)
  ++ header_widths (header_word Bs 2) ++ header_widths (header_word Bs 3) = Bs.
Proof.
  intros Hl HB.
  assert (Hn : forall i, (i < 16)%nat -> is_byte (nth i Bs 0)).
  { intros i Hi. rewrite Forall_forall in HB. apply HB, nth_In. lia. }
  rewrite !header_widths_word by (apply Hn; cbn; lia).
  do 17 (destruct Bs as [|? Bs]; [discriminate Hl || reflexivity|]).
  discriminate Hl.
Qed.

(** ** The steps of the decoder *)

Lemma peek_advance_ok {B} (k : Z -> M B) w sin io ob o c :
  (x <- peek_in ;; advance_in 1 ;; k x) (mkState (w :: sin) io ob o c)
  = k w (mkState sin (io + 1) ob o c).
Proof. reflexivity. Qed.

Lemma read_header_ok w0 w1 w2 w3 sin io ob o c :
  read_header (mkState (w0 :: w1 :: w2 :: w3 :: sin) io ob o c)
  = (Ok (header_widths w0 ++ header_widths w1
         ++ header_widths w2 ++ header_widths w3),
     mkState sin (io + 4) ob o c).
Proof.
  unfold read_header. rewrite !peek_advance_ok. unfold ret.
  do 2 f_equal. lia.
Qed.

Lemma load_in_ok (src tail : list Z) n io ob o c :
  n = length src ->
  load_in n (mkState (src ++ tail) io ob o c)
  = (Ok src, mkState (src ++ tail) io ob o c).
Proof.
  intros ->. unfold load_in. cbn [s_in].
  rewrite length_app.
  destruct (Nat.leb_spec (length src) (length src + length tail)); [|lia].
  now rewrite firstn_app, Nat.sub_diag, firstn_all, firstn_O, app_nil_r.
Qed.

Lemma advance_in_app (src tail : list Z) n io ob o c :
  n = length src ->
  advance_in n (mkState (src ++ tail) io ob o c)
  = (Ok tt, mkState tail (io + length src) ob o c).
Proof.
  intros ->. rewrite advance_in_ok by (rewrite length_app; lia).
  now rewrite skipn_app, Nat.sub_diag, skipn_all, skipn_O.
Qed.

Lemma store_out_ok (off : nat) (ws done : list Z) sin io pre room c :
  off = length done ->
  (length ws <= length room)%nat ->
  store_out off ws (mkState sin io ((pre ++ done) ++ room) (length pre) c)
  = (Ok tt, mkState sin io ((pre ++ done ++ ws) ++ skipn (length ws) room)
                    (length pre) c).
Proof.
  intros -> H. unfold store_out. cbn [s_outbuf s_out s_in s_inoff s_calls].
  rewrite <- length_app, store_at_end by exact H.
  now rewrite <- !app_assoc.
Qed.

Lemma advance_out_ok (n : nat) (done : list Z) sin io pre room c :
  n = length done ->
  advance_out n (mkState sin io ((pre ++ done) ++ room) (length pre) c)
  = (Ok tt, mkState sin io ((pre ++ done) ++ room) (length (pre ++ done)) c).
Proof.
  intros ->. unfold advance_out. cbn [s_outbuf s_out s_in s_inoff s_calls].
  rewrite !length_app.
  destruct (Nat.leb_spec (length pre + length done)
              (length pre + length done + length room)); [|lia].
  reflexivity.
Qed.

Lemma firstn_add_split (a b : nat) (l : list Z) :
  firstn (a + b) l = firstn a l ++ firstn b (skipn a l).
Proof.
  revert l; induction a as [|a IH]; intros l; [reflexivity|].
  destruct l as [|x l]; [now rewrite !firstn_nil|].
  cbn [Nat.add firstn skipn app]. now rewrite IH.
Qed.

Lemma concat_miniblocks_firstn (l : list Z) (h : nat) :
  concat (map (miniblock l) (seq 0 h)) = firstn (h * 128) l.
Proof.
  induction h as [|h IH]; [reflexivity|].
  rewrite seq_S, map_app, concat_app, IH. cbn [Nat.add map concat].
  rewrite app_nil_r. unfold miniblock.
  rewrite <- firstn_add_split. f_equal. lia.
Qed.

Lemma concat_miniblocks (l : list Z) (h : nat) :
  length l = (h * 128)%nat -> concat (map (miniblock l) (seq 0 h)) = l.
Proof.
  intros H. rewrite concat_miniblocks_firstn. apply firstn_all2. lia.
Qed.

Section DecodeBlock.

Variable pack unpack : list Z -> Z -> list Z.
Hypothesis pack_length : pack_contract pack.
Hypothesis unpack_pack : unpack_contract pack unpack.

Lemma unpack_loop_ok (blk Bs : list Z) (n : nat) : forall i tail io pre done room c,
  Forall is_u32 blk ->
  ((i + n) * 128 <= length blk)%nat ->
  (forall j, (i <= j < i + n)%nat -> nth j Bs 0 = maxbits (miniblock blk j)) ->
  length done = (i * 128)%nat ->
  (n * 128 <= length room)%nat ->
  let payload :=
    concat (map (fun j => pack (miniblock blk j) (maxbits (miniblock blk j)))
                (seq i n)) in
  let decoded := concat (map (miniblock blk) (seq i n)) in
  for_range i n (fun i =>
    s <- get ;;
    log_call (s_inoff s) (nth i Bs 0) ;;
    src <- load_in (Z.to_nat (wrap32 (MiniBlockSize / 32 * nth i Bs 0))) ;;
    store_out (i * Z.to_nat MiniBlockSize) (unpack src (nth i Bs 0)) ;;
    advance_in (Z.to_nat (wrap32 (MiniBlockSize / 32 * nth i Bs 0))))
    (mkState (payload ++ tail) io ((pre ++ done) ++ room) (length pre) c)
  = (Ok tt, mkState tail (io + length payload)
                    ((pre ++ done ++ decoded) ++ skipn (length decoded) room)
                    (length pre)
                    (c ++ calls_from io
                            (map (fun j => maxbits (miniblock blk j)) (seq i n)))).
Proof.
  induction n as [|n IH]; intros i tail io pre done room c Hu Hl HB Hd Hroom
                                 payload decoded; subst payload decoded.
  - cbn [for_range seq map concat calls_from length skipn app]. unfold ret.
    now rewrite !app_nil_r, Nat.add_0_r.
  - cbn [seq map concat calls_from for_range].
    assert (Hum : Forall is_u32 (miniblock blk i)) by now apply miniblock_Forall.
    pose proof (maxbits_range _ Hum) as Hb.
    pose proof (pack_length (miniblock blk i) _ Hb) as Hlen.
    assert (Hml : length (miniblock blk i) = 128%nat)
      by (apply miniblock_length; lia).
    unfold bind at 1. rewrite bind_get. cbn [s_inoff].
    rewrite HB by lia. rewrite wrap32_words by exact Hb.
    unfold bind at 1. unfold log_call at 1.
    cbn [s_outbuf s_out s_in s_inoff s_calls].
    rewrite <- app_assoc.
    erewrite bind_ok by (apply load_in_ok; now rewrite Hlen).
    rewrite unpack_pack by (try apply maxbits_fits; assumption).
    change (Z.to_nat MiniBlockSize) with 128%nat.
    erewrite bind_ok by (apply store_out_ok; [now rewrite Hd | lia]).
    rewrite advance_in_app by (now rewrite Hlen).
    rewrite IH;
      [ | exact Hu | lia | intros j Hj; apply HB; lia
        | rewrite length_app, Hd, Hml; lia | rewrite length_skipn; lia ].
    f_equal. f_equal.
    + rewrite length_app. lia.
    + rewrite skipn_skipn_add, length_app. now rewrite <- !app_assoc.
    + rewrite <- app_assoc. cbn [app]. now rewrite Hlen.
Qed.

End DecodeBlock.

Lemma block_widths_length (inp : list Z) (h : nat) :
  (h <= 16)%nat -> length (block_widths inp h) = 16%nat.
Proof.
  intros H. unfold block_widths.
  rewrite length_app, length_map, length_seq, repeat_length. lia.
Qed.

Lemma block_widths_bytes (inp : list Z) (h : nat) :
  Forall is_u32 inp -> Forall is_byte (block_widths inp h).
Proof.
  intros Hu. unfold block_widths. apply Forall_app. split.
  - apply Forall_forall. intros b Hb. apply in_map_iff in Hb as [i [<- _]].
    pose proof (maxbits_range (miniblock inp i) (miniblock_Forall _ _ i Hu)).
    unfold is_byte. lia.
  - apply Forall_forall. intros b Hb. apply repeat_spec in Hb. subst b.
    unfold is_byte. lia.
Qed.

Lemma block_loop_bound (L : Z) :
  0 <= L < 2 ^ 32 ->
  wrap32 (wrap32 (L / (HowManyMiniBlocks * MiniBlockSize) * HowManyMiniBlocks)
          * MiniBlockSize)
  = L / 2048 * 2048.
Proof.
  intros HL. unfold wrap32.
  change (HowManyMiniBlocks * MiniBlockSize) with 2048.
  change HowManyMiniBlocks with 16. change MiniBlockSize with 128.
  change (2 ^ 32) with 4294967296 in *.
  assert (0 <= L / 2048 <= L / 2048 * 2048 /\ L / 2048 * 2048 <= L)
    by (Z.div_mod_to_equations; lia).
  rewrite (Z.mod_small (L / 2048 * 16)) by lia.
  rewrite Z.mod_small by lia. lia.
Qed.

Lemma decode_full_blocks_eq unpack fuel initout L s :
  decode_full_blocks unpack fuel initout L s
  = if Z.of_nat (s_out s) <?
       Z.of_nat initout
       + wrap32 (wrap32 (L / (HowManyMiniBlocks * MiniBlockSize)
                         * HowManyMiniBlocks) * MiniBlockSize)
    then match fuel with
         | O => (Err LoopBound, s)
         | S fuel' =>
             (decode_block unpack 16 ;;
              advance_out 2048 ;;
              decode_full_blocks unpack fuel' initout L) s
         end
    else (Ok tt, s).
Proof.
  destruct fuel; cbn [decode_full_blocks]; rewrite bind_get;
    change (Z.to_nat (HowManyMiniBlocks * MiniBlockSize)) with 2048%nat;
    now destruct (Z.of_nat (s_out s) <? _).
Qed.

Lemma decode_full_blocks_step {B} unpack fuel initout L (k : M B) s :
  0 <= L < 2 ^ 32 ->
  Z.of_nat (s_out s) < Z.of_nat initout + L / 2048 * 2048 ->
  (decode_full_blocks unpack (S fuel) initout L ;; k) s
  = (decode_block unpack 16 ;; advance_out 2048 ;;
     (decode_full_blocks unpack fuel initout L ;; k)) s.
Proof.
  intros HL H. unfold bind at 1. rewrite decode_full_blocks_eq.
  rewrite block_loop_bound by exact HL.
  destruct (Z.ltb_spec (Z.of_nat (s_out s)) (Z.of_nat initout + L / 2048 * 2048));
    [|lia].
  unfold bind. destruct (decode_block unpack 16 s) as [[[]|e] s1]; [|reflexivity].
  destruct (advance_out 2048 s1) as [[[]|e] s2]; reflexivity.
Qed.

Lemma decode_full_blocks_exit {B} unpack fuel initout L (k : M B) s :
  0 <= L < 2 ^ 32 ->
  Z.of_nat initout + L / 2048 * 2048 <= Z.of_nat (s_out s) ->
  (decode_full_blocks unpack fuel initout L ;; k) s = k s.
Proof.
  intros HL H. unfold bind at 1. rewrite decode_full_blocks_eq.
  rewrite block_loop_bound by exact HL.
  now destruct (Z.ltb_spec (Z.of_nat (s_out s)) (Z.of_nat initout + L / 2048 * 2048));
    [lia|].
Qed.

Section DecodeLoops.

Variable pack unpack : list Z -> Z -> list Z.
Hypothesis pack_length : pack_contract pack.
Hypothesis unpack_pack : unpack_contract pack unpack.

Lemma decode_block_ok (h : nat) (blk tail : list Z) io pre room c :
  length blk = (h * 128)%nat ->
  (h <= 16)%nat ->
  Forall is_u32 blk ->
  (length blk <= length room)%nat ->
  decode_block unpack h
    (mkState (enc_frame pack blk ++ tail) io (pre ++ room) (length pre) c)
  = (Ok tt, mkState tail (io + length (enc_frame pack blk))
                    ((pre ++ blk) ++ skipn (length blk) room) (length pre)
                    (c ++ frame_calls io blk)).
Proof.
  intros Hl Hh Hu Hroom.
  unfold enc_frame, frame_header, frame_payload, frame_calls, miniblock_widths.
  rewrite Hl, div128. cbv zeta.
  rewrite <- app_assoc. cbn [app].
  unfold decode_block.
  erewrite bind_ok by apply read_header_ok.
  rewrite header_roundtrip
    by (apply block_widths_length || apply block_widths_bytes; assumption).
  replace (pre ++ room) with ((pre ++ []) ++ room) by now rewrite app_nil_r.
  rewrite (unpack_loop_ok pack unpack pack_length unpack_pack blk);
    [ | exact Hu | lia | intros j Hj; apply nth_block_widths; lia
      | reflexivity | lia ].
  rewrite concat_miniblocks by exact Hl.
  cbn [app length]. rewrite Hl.
  do 2 f_equal. lia.
Qed.

Lemma decode_blocks_ok (fuelc : nat) :
  forall fueld rest tail io pre room c initout L,
  (length rest <= fuelc)%nat ->
  (length rest <= fueld)%nat ->
  (length rest mod 128 = 0)%nat ->
  Forall is_u32 rest ->
  0 <= L < 2 ^ 32 ->
  Z.of_nat (length pre) + Z.of_nat (length rest) = Z.of_nat initout + L ->
  (initout <= length pre)%nat ->
  ((length pre - initout) mod 2048 = 0)%nat ->
  (length rest <= length room)%nat ->
  let F := concat (map (enc_frame pack) (chunks fuelc 2048 rest)) in
  (decode_full_blocks unpack fueld initout L ;; decode_trailing unpack initout L)
    (mkState (F ++ tail) io (pre ++ room) (length pre) c)
  = (Ok tt, mkState tail (io + length F)
                    ((pre ++ rest) ++ skipn (length rest) room)
                    (length (pre ++ rest))
                    (c ++ stream_calls io (chunks fuelc 2048 rest))).
Proof.
  induction fuelc as [|fuelc IH];
    intros fueld rest tail io pre room c initout L Hfc Hfd Hm Hu HL Hsum Hio Hal
           Hroom F; subst F.
  - destruct rest; [|cbn [length] in Hfc; lia]. cbn [length] in *.
    cbn [chunks map concat app stream_calls length skipn].
    rewrite decode_full_blocks_exit;
      [ | exact HL | cbn [s_out]; Z.div_mod_to_equations; lia ].
    unfold decode_trailing. rewrite bind_get. cbn [s_out].
    destruct (Z.ltb_spec (Z.of_nat (length pre)) (Z.of_nat initout + L)); [lia|].
    unfold ret. now rewrite !app_nil_r, Nat.add_0_r.
  - assert (Hd : exists d, (length pre - initout = 2048 * d)%nat)
      by (apply Nat.Div0.mod_divides; exact Hal).
    destruct Hd as [d Hd].
    destruct (Nat.leb_spec 2048 (length rest)) as [Hge|Hlt].
    + (* a full block *)
      destruct fueld as [|fueld]; [lia|].
      rewrite decode_full_blocks_step;
        [ | exact HL | cbn [s_out]; Z.div_mod_to_equations; lia ].
      rewrite chunks_cons by lia.
      cbn [map concat stream_calls]. rewrite <- app_assoc.
      pose proof (Forall_firstn_skipn _ 2048 _ Hu) as [Hu1 Hu2].
      assert (Hl1 : length (firstn 2048 rest) = 2048%nat)
        by (rewrite length_firstn; lia).
      erewrite bind_ok; cycle 1.
      { apply decode_block_ok; [exact Hl1|lia|exact Hu1|lia]. }
      erewrite bind_ok by (apply advance_out_ok; now rewrite Hl1).
      rewrite IH with (initout := initout) (L := L);
        [ | rewrite length_skipn; lia | rewrite length_skipn; lia | | exact Hu2
          | exact HL
          | rewrite length_app, Hl1, length_skipn; lia
          | rewrite length_app; lia
          | 
          | rewrite !length_skipn; lia ]; cycle 1.
      { rewrite length_skipn.
        pose proof (Nat.Div0.mod_divides (length rest) 128) as [Hd' _].
        destruct (Hd' Hm) as [k Hk]. rewrite Hk.
        replace (128 * k - 2048)%nat with ((k - 16) * 128)%nat by lia.
        apply Nat.Div0.mod_mul. }
      { rewrite length_app, Hl1.
        replace (length pre + 2048 - initout)%nat with ((d + 1) * 2048)%nat by lia.
        apply Nat.Div0.mod_mul. }
      f_equal. f_equal.
      * rewrite length_app. lia.
      * rewrite skipn_skipn_add, Hl1. rewrite <- !app_assoc.
        rewrite (app_assoc (firstn 2048 rest)), firstn_skipn, length_skipn.
        do 3 f_equal. lia.
      * now rewrite <- !app_assoc, firstn_skipn.
      * rewrite <- app_assoc. do 2 f_equal.
        now rewrite (enc_frame_length pack pack_length _ Hu1).
    + (* the loop is left *)
      rewrite decode_full_blocks_exit;
        [ | exact HL | cbn [s_out]; Z.div_mod_to_equations; lia ].
      unfold decode_trailing. rewrite bind_get. cbn [s_out].
      destruct rest as [|x rest'].
      { cbn [length] in *.
        destruct (Z.ltb_spec (Z.of_nat (length pre)) (Z.of_nat initout + L)); [lia|].
        cbn [chunks map concat app stream_calls length skipn]. unfold ret.
        now rewrite !app_nil_r, Nat.add_0_r. }
      set (rest := x :: rest') in *.
      assert (Hpos : (0 < length rest)%nat) by (subst rest; cbn [length]; lia).
      destruct (Z.ltb_spec (Z.of_nat (length pre)) (Z.of_nat initout + L)); [|lia].
      rewrite chunks_cons by exact Hpos.
      rewrite (firstn_all2 (n:=2048)) by lia.
      rewrite (skipn_all2 (n:=2048)) by lia.
      rewrite chunks_nil. cbn [map concat stream_calls].
      rewrite !app_nil_r.
      change (Z.to_nat MiniBlockSize) with 128%nat. change MiniBlockSize with 128.
      pose proof (Nat.Div0.mod_divides (length rest) 128) as [Hd' _].
      destruct (Hd' Hm) as [k Hk].
      replace ((Z.of_nat initout + L - Z.of_nat (length pre)) / 128) with (Z.of_nat k)
        by (Z.div_mod_to_equations; lia).
      rewrite Nat2Z.id.
      erewrite bind_ok; cycle 1.
      { apply decode_block_ok; [lia|lia|exact Hu|lia]. }
      erewrite bind_ok by (apply advance_out_ok; lia).
      rewrite bind_get. cbn [s_out].
      rewrite length_app.
      destruct (Z.eqb_spec (Z.of_nat (length pre + length rest)) (Z.of_nat initout + L));
        [|lia].
      reflexivity.
Qed.

End DecodeLoops.

Lemma skip_padding_ok (addr : Z) (fuel : nat) : forall tail io ob o c,
  let p := pad_count (addr + Z.of_nat io) in
  (p <= fuel)%nat ->
  skip_padding fuel addr (mkState (repeat CookiePadder p ++ tail) io ob o c)
  = (Ok tt, mkState tail (io + p) ob o c).
Proof.
  induction fuel as [|fuel IH]; intros tail io ob o c p Hf; subst p;
    destruct (Z.eq_dec ((addr + Z.of_nat io) mod 4) 0) as [E|E].
  - cbn [skip_padding]. rewrite bind_get. cbn [s_inoff].
    rewrite needPadding_false, pad_count_aligned by exact E.
    cbn [repeat app]. unfold ret. now rewrite Nat.add_0_r.
  - rewrite pad_count_step in Hf by exact E. lia.
  - cbn [skip_padding]. rewrite bind_get. cbn [s_inoff].
    rewrite needPadding_false, pad_count_aligned by exact E.
    cbn [repeat app]. unfold ret. now rewrite Nat.add_0_r.
  - cbn [skip_padding]. rewrite bind_get. cbn [s_inoff].
    rewrite needPadding_true by exact E.
    rewrite pad_count_step in * by exact E.
    cbn [repeat app].
    unfold bind at 1. unfold peek_in at 1. cbn [s_in].
    rewrite Z.eqb_refl. cbn [check].
    unfold bind at 1. unfold ret at 1.
    unfold bind at 1. unfold advance_in at 1. cbn [s_in length Nat.leb skipn].
    cbn [s_outbuf s_out s_in s_inoff s_calls].
    replace (addr + Z.of_nat io + 1) with (addr + Z.of_nat (io + 1)) by lia.
    rewrite IH by (replace (addr + Z.of_nat (io + 1)) with (addr + Z.of_nat io + 1); lia).
    do 2 f_equal. lia.
Qed.

Section DecodeArray.

Variable pack unpack : list Z -> Z -> list Z.
Hypothesis pack_length : pack_contract pack.
Hypothesis unpack_pack : unpack_contract pack unpack.

Lemma decodeArray_ok (inp tail dst : list Z) (addr in_addr out_addr : Z) :
  valid_length (Z.of_nat (length inp)) ->
  Z.of_nat (length inp) < 2 ^ 32 ->
  Forall is_u32 inp ->
  in_addr mod 4 = addr mod 4 ->
  out_addr mod 4 = 0 ->
  (length inp <= length dst)%nat ->
  let strm := encoded_stream pack inp addr in
  decodeArray unpack (strm ++ tail) in_addr dst out_addr
  = (Ok (length strm, length inp),
     mkState tail (length strm) (inp ++ skipn (length inp) dst) (length inp)
             (stream_calls (1 + pad_count (addr + 1)) (blocks inp))).
Proof.
  intros [Hpos Hmod] Hlt Hu Hin Hout Hdst strm. subst strm.
  unfold encoded_stream. cbn [app length]. rewrite <- app_assoc.
  unfold decodeArray, decodeArray_body.
  rewrite peek_advance_ok. rewrite bind_get. cbn [s_out].
  rewrite Z.add_0_r, needPadding_false by exact Hout. cbn [negb check].
  unfold bind at 1. unfold ret at 1.
  assert (Hpc : pad_count (addr + 1) = pad_count (in_addr + Z.of_nat (0 + 1))).
  { unfold pad_count. f_equal. cbn [Nat.add]. change (Z.of_nat 1) with 1.
    Z.div_mod_to_equations. lia. }
  rewrite Hpc.
  erewrite bind_ok by (apply skip_padding_ok; rewrite <- Hpc; pose proof (pad_count_le (addr + 1)); lia).
  rewrite bind_seq_assoc.
  assert (Hw : wrap32 (Z.of_nat (length inp)) = Z.of_nat (length inp))
    by (apply Z.mod_small; lia).
  rewrite Hw, Nat2Z.id.
  change (mkState ?i ?io dst 0 []) with (mkState i io ([] ++ dst) (length (@nil Z)) []).
  unfold blocks.
  erewrite bind_ok; cycle 1.
  { apply (decode_blocks_ok pack unpack pack_length unpack_pack);
      try assumption; try lia; cbn [length]; try reflexivity.
    apply Nat2Z.inj. rewrite Nat2Z.inj_mod. exact Hmod. }
  rewrite bind_get. cbn [s_inoff s_out app length]. unfold ret.
  rewrite length_app, repeat_length, Nat.sub_0_r.
  reflexivity.
Qed.

End DecodeArray.

(** ** The reference kernels meet the contract *)

Lemma to_digits_length (B : Z) (n : nat) : forall v, length (to_digits B n v) = n.
Proof. induction n as [|n IH]; intros v; cbn; [reflexivity|now rewrite IH]. Qed.

Lemma from_digits_bound (B : Z) (l : list Z) :
  0 < B -> Forall (fun d => 0 <= d < B) l ->
  0 <= from_digits B l < B ^ Z.of_nat (length l).
Proof.
  intros HB H. induction H as [|d l Hd _ IH].
  - cbn. lia.
  - cbn [from_digits fold_right length]. fold (from_digits B l).
    rewrite Nat2Z.inj_succ, Z.pow_succ_r by lia. nia.
Qed.

Lemma to_from_digits (B : Z) (l : list Z) :
  0 < B -> Forall (fun d => 0 <= d < B) l ->
  to_digits B (length l) (from_digits B l) = l.
Proof.
  intros HB H. induction H as [|d l Hd _ IH]; [reflexivity|].
  cbn [from_digits fold_right length to_digits]. fold (from_digits B l).
  replace (d + B * from_digits B l) with (d + from_digits B l * B) by lia.
  f_equal.
  - rewrite Z.mod_add by lia. now apply Z.mod_small.
  - rewrite Z.div_add by lia.
    rewrite (Z.div_small d B) by exact Hd. now rewrite Z.add_0_l.
Qed.

Lemma from_to_digits (B : Z) (n : nat) : forall v,
  0 < B -> 0 <= v < B ^ Z.of_nat n ->
  from_digits B (to_digits B n v) = v.
Proof.
  induction n as [|n IH]; intros v HB Hv.
  - cbn in *. lia.
  - cbn [to_digits from_digits fold_right]. fold (from_digits B (to_digits B n (v / B))).
    rewrite Nat2Z.inj_succ, Z.pow_succ_r in Hv by lia.
    rewrite IH; [ | exact HB | ].
    + pose proof (Z.div_mod v B ltac:(lia)). lia.
    + split; [apply Z.div_pos; lia|].
      apply Z.div_lt_upper_bound; lia.
Qed.

Lemma ref_pack_length (m : list Z) (b : Z) :
  0 <= b <= 32 -> length (ref_pack m b) = Z.to_nat (4 * b).
Proof.
  intros Hb. unfold ref_pack, width_ok.
  destruct (Z.leb_spec 0 b); [|lia]. destruct (Z.leb_spec b 32); [|lia].
  cbn [andb]. apply to_digits_length.
Qed.

Lemma ref_unpack_pack (m : list Z) (b : Z) :
  0 <= b <= 32 -> length m = 128%nat ->
  Forall (fun v => 0 <= v < 2 ^ b) m ->
  ref_unpack (ref_pack m b) b = m.
Proof.
  intros Hb Hl Hm. unfold ref_unpack, ref_pack, width_ok.
  destruct (Z.leb_spec 0 b); [|lia]. destruct (Z.leb_spec b 32); [|lia].
  cbn [andb].
  assert (H2b : 0 < 2 ^ b) by (apply Z.pow_pos_nonneg; lia).
  pose proof (from_digits_bound (2 ^ b) m H2b Hm) as HV.
  rewrite from_to_digits.
  - rewrite <- Hl. now apply to_from_digits.
  - reflexivity.
  - rewrite Hl in HV. rewrite Z2Nat.id by lia.
    rewrite <- Z.pow_mul_r in * by lia.
    replace (32 * (4 * b)) with (b * Z.of_nat 128) by lia. exact HV.
Qed.

(** ** The size of the stream *)

Lemma widths_sum_bound (ws : list Z) :
  Forall (fun b => 0 <= b <= 32) ws ->
  (fold_right (fun b acc => Z.to_nat (4 * b) + acc) 0 ws <= 128 * length ws)%nat.
Proof.
  intros H. induction H as [|b ws Hb _ IH]; cbn [fold_right length]; lia.
Qed.

Lemma frame_length_bound (blk : list Z) :
  Forall is_u32 blk -> (frame_length blk <= 4 + length blk)%nat.
Proof.
  intros Hu. unfold frame_length.
  pose proof (widths_sum_bound _ (miniblock_widths_range blk Hu)) as H.
  unfold miniblock_widths in H at 2. rewrite length_map, length_seq in H.
  pose proof (Nat.Div0.mul_div_le (length blk) 128). lia.
Qed.

Lemma frame_length_ge (blk : list Z) : (4 <= frame_length blk)%nat.
Proof. unfold frame_length. lia. Qed.

Section StreamSize.

Variable pack : list Z -> Z -> list Z.
Hypothesis pack_length : pack_contract pack.

Lemma frames_length_bound (fuel : nat) : forall inp,
  Forall is_u32 inp ->
  (length (concat (map (enc_frame pack) (chunks fuel 2048 inp)))
   <= length inp + 4 * (length inp / 2048 + 1))%nat.
Proof.
  induction fuel as [|fuel IH]; intros inp Hu; [cbn; lia|].
  destruct inp as [|x inp']; [cbn; lia|].
  set (inp := x :: inp') in *.
  rewrite chunks_cons by (subst inp; cbn [length]; lia).
  cbn [map concat]. rewrite length_app.
  pose proof (Forall_firstn_skipn _ 2048 _ Hu) as [Hu1 Hu2].
  rewrite (enc_frame_length pack pack_length _ Hu1).
  pose proof (frame_length_bound _ Hu1) as Hb.
  specialize (IH _ Hu2). rewrite length_firstn in Hb. rewrite length_skipn in IH.
  destruct (Nat.leb_spec 2048 (length inp)) as [Hge|Hlt].
  - replace (length inp / 2048)%nat with (S ((length inp - 2048) / 2048))%nat.
    + lia.
    + replace (length inp) with ((length inp - 2048) + 1 * 2048)%nat at 2 by lia.
      rewrite Nat.div_add by discriminate. lia.
  - replace (length inp - 2048)%nat with 0%nat in IH by lia.
    rewrite Nat.Div0.div_0_l in IH. 
    rewrite (Nat.div_small (length inp)) by lia.
    assert (E : skipn 2048 inp = []) by (apply skipn_all2; lia).
    rewrite E, chunks_nil. cbn [map concat length]. lia.
Qed.

(** The sizing rule: the length, a four-word header per block, 32 bits per
    input word and up to three padding words are room enough. *)
Lemma encoded_stream_bound (inp : list Z) (addr : Z) :
  Forall is_u32 inp ->
  (length (encoded_stream pack inp addr)
   <= 4 + length inp + 4 * (length inp / 2048 + 1))%nat.
Proof.
  intros Hu. unfold encoded_stream, blocks. cbn [length].
  rewrite length_app, repeat_length.
  pose proof (frames_length_bound (length inp) inp Hu).
  pose proof (pad_count_le (addr + 1)). lia.
Qed.

Lemma frames_length_ge (fuel : nat) (inp : list Z) :
  (0 < length inp <= fuel)%nat ->
  (4 <= length (concat (map (enc_frame pack) (chunks fuel 2048 inp))))%nat.
Proof.
  intros [H0 Hf]. destruct fuel as [|fuel]; [lia|].
  rewrite chunks_cons by exact H0. cbn [map concat].
  rewrite length_app. unfold enc_frame at 1. rewrite length_app.
  cbn [frame_header length]. lia.
Qed.

End StreamSize.

Lemma Forall_repeat {A} (P : A -> Prop) (x : A) (n : nat) :
  P x -> Forall P (repeat x n).
Proof. intros H. induction n; cbn; constructor; assumption. Qed.


Lemma forallb_is_u32 (l : list Z) : forallb is_u32b l = true -> Forall is_u32 l.
Proof.
  intros H. rewrite forallb_forall in H. apply Forall_forall. intros z Hz.
  specialize (H z Hz). unfold is_u32b in H.
  apply andb_true_iff in H as [H1 H2]. unfold is_u32. lia.
Qed.

(** ** Where StreamCorrupt can come from *)


Lemma bind_inv_err {A B} (c : M A) (f : A -> M B) s e s' :
  bind c f s = (Err e, s') ->
  c s = (Err e, s') \/ exists a s1, c s = (Ok a, s1) /\ f a s1 = (Err e, s').
Proof.
  unfold bind. destruct (c s) as [[a|e1] s1]; intros H.
  - right. now exists a, s1.
  - left. now injection H as -> ->.
Qed.

Lemma nc_bind {A B} (c : M A) (f : A -> M B) :
  never_corrupt c -> (forall a, never_corrupt (f a)) -> never_corrupt (bind c f).
Proof.
  intros Hc Hf s e s' H. apply bind_inv_err in H as [H|[a [s1 [_ H]]]].
  - exact (Hc _ _ _ H).
  - exact (Hf _ _ _ _ H).
Qed.

Lemma nc_ret {A} (a : A) : never_corrupt (ret a).
Proof. intros s e s' H. discriminate H. Qed.

Lemma nc_get : never_corrupt get.
Proof. intros s e s' H. discriminate H. Qed.

Lemma nc_check b e : e <> StreamCorrupt -> never_corrupt (check b e).
Proof.
  intros He s e' s' H. destruct b; cbn in H; [discriminate H|].
  unfold fail in H. now injection H as <- _.
Qed.

Lemma nc_peek_in : never_corrupt peek_in.
Proof.
  intros s e s' H. unfold peek_in in H.
  destruct (s_in s); [|discriminate H]. now injection H as <- _.
Qed.

Lemma nc_advance_in n : never_corrupt (advance_in n).
Proof.
  intros s e s' H. unfold advance_in in H.
  destruct (n <=? length (s_in s))%nat; [discriminate H|]. now injection H as <- _.
Qed.

Lemma nc_load_in n : never_corrupt (load_in n).
Proof.
  intros s e s' H. unfold load_in in H.
  destruct (n <=? length (s_in s))%nat; [discriminate H|]. now injection H as <- _.
Qed.

Lemma nc_advance_out n : never_corrupt (advance_out n).
Proof.
  intros s e s' H. unfold advance_out in H.
  destruct (s_out s + n <=? length (s_outbuf s))%nat; [discriminate H|].
  now injection H as <- _.
Qed.

Lemma nc_store_out off ws : never_corrupt (store_out off ws).
Proof.
  intros s e s' H. unfold store_out in H.
  destruct (store _ _ _); [discriminate H|]. now injection H as <- _.
Qed.

Lemma nc_log_call off b : never_corrupt (log_call off b).
Proof. intros s e s' H. discriminate H. Qed.

Lemma nc_for_range body n : forall i,
  (forall j, never_corrupt (body j)) -> never_corrupt (for_range i n body).
Proof.
  induction n as [|n IH]; intros i Hb; cbn [for_range].
  - apply nc_ret.
  - apply nc_bind; [apply Hb|]. intros _. now apply IH.
Qed.

Create HintDb nc.

#[local] Hint Resolve nc_ret nc_get nc_peek_in nc_advance_in nc_load_in
  nc_advance_out nc_store_out nc_log_call : nc.

Ltac nc_step :=
  repeat first
    [ apply nc_bind; [|intros ?]
    | apply nc_for_range; intros ?
    | apply nc_check; discriminate
    | solve [auto with nc] ].

Lemma nc_read_header : never_corrupt read_header.
Proof. unfold read_header. nc_step. Qed.

Lemma nc_decode_block unpack h : never_corrupt (decode_block unpack h).
Proof. unfold decode_block. apply nc_bind; [apply nc_read_header|]. intros Bs. nc_step. Qed.

Lemma nc_decode_full_blocks unpack fuel initout L :
  never_corrupt (decode_full_blocks unpack fuel initout L).
Proof.
  induction fuel as [|fuel IH]; cbn [decode_full_blocks];
    apply nc_bind; try apply nc_get; intros s;
    destruct (Z.of_nat (s_out s) <? _); try apply nc_ret.
  - intros s0 e s' H. unfold fail in H. now injection H as <- _.
  - apply nc_bind; [apply nc_decode_block|]. intros _.
    apply nc_bind; [apply nc_advance_out|]. intros _. exact IH.
Qed.

Lemma nc_decode_trailing unpack initout L :
  never_corrupt (decode_trailing unpack initout L).
Proof.
  unfold decode_trailing. apply nc_bind; [apply nc_get|]. intros s.
  destruct (Z.of_nat (s_out s) <? _); [|apply nc_ret].
  cbv zeta. apply nc_bind; [apply nc_decode_block|]. intros _. nc_step.
Qed.

(** A StreamCorrupt out of the padding loop: the cursor is on a word that
    differs from CookiePadder, is not aligned and has not reached the next
    aligned address; nothing else has moved. *)
Lemma skip_padding_corrupt addr fuel : forall s s',
  skip_padding fuel addr s = (Err StreamCorrupt, s') ->
  (exists w rest, s_in s' = w :: rest /\ w <> CookiePadder)
  /\ (addr + Z.of_nat (s_inoff s')) mod 4 <> 0
  /\ (s_inoff s <= s_inoff s'
      < s_inoff s + pad_count (addr + Z.of_nat (s_inoff s)))%nat
  /\ s_outbuf s' = s_outbuf s /\ s_out s' = s_out s /\ s_calls s' = s_calls s.
Proof.
  induction fuel as [|fuel IH]; intros s s' H; cbn [skip_padding] in H;
    rewrite bind_get in H;
    destruct (needPaddingTo128Bits (addr + Z.of_nat (s_inoff s))) eqn:En;
    try discriminate H.
  unfold needPaddingTo128Bits in En. apply negb_true_iff, Z.eqb_neq in En.
  rewrite (pad_count_step _ En).
  unfold bind at 1 in H. unfold peek_in at 1 in H.
  destruct s as [sin io ob o c]. cbn [s_in s_inoff s_outbuf s_out s_calls] in *.
  destruct sin as [|w sin]; [discriminate H|].
  destruct (Z.eqb_spec w CookiePadder) as [E|E].
  - cbn [check] in H. unfold bind at 1 in H. unfold ret at 1 in H.
    unfold bind at 1 in H. unfold advance_in at 1 in H.
    cbn [s_in length Nat.leb skipn s_inoff s_outbuf s_out s_calls] in H.
    apply IH in H. cbn [s_in s_inoff s_outbuf s_out s_calls] in H.
    destruct H as (H1 & H2 & H3 & H4).
    replace (addr + Z.of_nat (io + 1)) with (addr + Z.of_nat io + 1) in H3 by lia.
    repeat split; try tauto; lia.
  - cbn [check] in H. unfold bind at 1 in H. unfold fail at 1 in H.
    injection H as <-. cbn [s_in s_inoff s_outbuf s_out s_calls].
    repeat split; try lia; try assumption. now exists w, sin.
Qed.

(** ** Blocks *)

Lemma chunks_Forall (P : Z -> Prop) (fuel n : nat) : forall l,
  Forall P l -> Forall (Forall P) (chunks fuel n l).
Proof.
  induction fuel as [|fuel IH]; intros l H; [constructor|].
  destruct l as [|x l']; [constructor|].
  cbn [chunks]. pose proof (Forall_firstn_skipn P n _ H) as [H1 H2].
  constructor; [exact H1|]. now apply IH.
Qed.

Lemma chunks_length_le (fuel n : nat) : forall l,
  Forall (fun c => length c <= n)%nat (chunks fuel n l).
Proof.
  induction fuel as [|fuel IH]; intros l; [constructor|].
  destruct l as [|x l']; [constructor|].
  cbn [chunks]. constructor; [|apply IH].
  rewrite length_firstn. lia.
Qed.

Lemma concat_chunks (fuel n : nat) : forall l,
  (0 < n)%nat -> (length l <= fuel)%nat -> concat (chunks fuel n l) = l.
Proof.
  induction fuel as [|fuel IH]; intros l Hn Hf.
  - destruct l; [reflexivity|cbn [length] in Hf; lia].
  - destruct l as [|x l']; [reflexivity|].
    set (l := x :: l') in *. 
    assert (Hl : (0 < length l)%nat) by (subst l; cbn [length]; lia).
    rewrite chunks_cons by exact Hl. cbn [concat].
    rewrite IH; [apply firstn_skipn|exact Hn|rewrite length_skipn; lia].
Qed.

Lemma blocks_cons (inp : list Z) :
  (0 < length inp)%nat ->
  blocks inp = firstn 2048 inp :: chunks (length inp - 1) 2048 (skipn 2048 inp).
Proof.
  intros H. unfold blocks.
  replace (length inp) with (S (length inp - 1)) at 1 by lia.
  now apply chunks_cons.
Qed.

(** ** Kernel calls are aligned *)


Lemma calls_from_aligned (bs : list Z) : forall off,
  (off mod 4 = 0)%nat -> Forall (fun b => 0 <= b <= 32) bs ->
  Forall aligned_call (calls_from off bs).
Proof.
  induction bs as [|b bs IH]; intros off Ho Hb; [constructor|].
  inversion Hb as [|? ? Hb1 Hb2]; subst.
  cbn [calls_from]. constructor; [exact Ho|].
  apply IH; [|exact Hb2].
  replace (Z.to_nat (4 * b)) with (Z.to_nat b * 4)%nat by lia.
  rewrite Nat.Div0.mod_add. exact Ho.
Qed.

Lemma frame_length_mod4 (blk : list Z) :
  Forall is_u32 blk -> (frame_length blk mod 4 = 0)%nat.
Proof.
  intros Hu. unfold frame_length.
  pose proof (miniblock_widths_range blk Hu) as H.
  induction H as [|b ws Hb _ IH]; [reflexivity|].
  cbn [fold_right].
  replace (4 + (Z.to_nat (4 * b) + fold_right (fun (b0 : Z) (acc : nat) => (Z.to_nat (4 * b0) + acc)%nat) 0%nat ws))%nat
    with ((4 + fold_right (fun (b0 : Z) (acc : nat) => (Z.to_nat (4 * b0) + acc)%nat) 0%nat ws) + Z.to_nat b * 4)%nat by lia.
  rewrite Nat.Div0.mod_add. exact IH.
Qed.

Lemma stream_calls_aligned (bls : list (list Z)) : forall off,
  (off mod 4 = 0)%nat -> Forall (Forall is_u32) bls ->
  Forall aligned_call (stream_calls off bls).
Proof.
  induction bls as [|blk bls IH]; intros off Ho Hu; [constructor|].
  inversion Hu as [|? ? Hu1 Hu2]; subst.
  cbn [stream_calls]. apply Forall_app. split.
  - unfold frame_calls. apply calls_from_aligned.
    + replace (off + 4)%nat with (off + 1 * 4)%nat by lia.
      now rewrite Nat.Div0.mod_add.
    + now apply miniblock_widths_range.
  - apply IH; [|exact Hu2].
    pose proof (frame_length_mod4 blk Hu1) as Hf.
    rewrite Nat.Div0.add_mod, Ho, Hf. reflexivity.
Qed.

Lemma calls_from_length (bs : list Z) (off : nat) :
  length (calls_from off bs) = length bs.
Proof. revert off; induction bs as [|b bs IH]; intros off; cbn; [|rewrite IH]; reflexivity. Qed.

Lemma stream_calls_length (fuel : nat) : forall inp off,
  (length inp <= fuel)%nat -> (length inp mod 128 = 0)%nat ->
  length (stream_calls off (chunks fuel 2048 inp)) = (length inp / 128)%nat.
Proof.
  induction fuel as [|fuel IH]; intros inp off Hf Hm.
  - destruct inp; [reflexivity|cbn [length] in Hf; lia].
  - destruct inp as [|x inp']; [reflexivity|].
    set (inp := x :: inp') in *.
    assert (Hl : (0 < length inp)%nat) by (subst inp; cbn [length]; lia).
    rewrite chunks_cons by exact Hl. cbn [stream_calls].
    rewrite length_app. unfold frame_calls at 1.
    rewrite calls_from_length. unfold miniblock_widths.
    rewrite length_map, length_seq, length_firstn.
    pose proof (Nat.Div0.mod_divides (length inp) 128) as [Hd _].
    destruct (Hd Hm) as [k Hk].
    rewrite IH; rewrite length_skipn; [ | lia | ].
    + rewrite Hk.
      destruct (Nat.leb_spec 16 k).
      * rewrite Nat.min_l by lia.
        replace (128 * k - 2048)%nat with ((k - 16) * 128)%nat by lia.
        rewrite Nat.div_mul by discriminate.
        replace (128 * k)%nat with (k * 128)%nat by lia.
        rewrite Nat.div_mul by discriminate.
        change (2048 / 128)%nat with 16%nat. lia.
      * rewrite Nat.min_r by lia.
        replace (128 * k - 2048)%nat with 0%nat by lia.
        rewrite Nat.Div0.div_0_l. lia.
    + rewrite Hk. replace (128 * k - 2048)%nat with ((k - 16) * 128)%nat by lia.
      apply Nat.Div0.mod_mul.
Qed.



(** ** An input of 2^32 words *)

Lemma huge_input_length : Z.of_nat (length huge_input) = 2 ^ 32.
Proof. unfold huge_input. rewrite repeat_length. apply Z2Nat.id. lia. Qed.

Lemma huge_input_valid : valid_length (Z.of_nat (length huge_input)).
Proof. rewrite huge_input_length. split; reflexivity. Qed.

Lemma huge_input_u32 : Forall is_u32 huge_input.
Proof. apply Forall_repeat. unfold is_u32. lia. Qed.

Lemma huge_outbuf_length : Z.of_nat (length huge_outbuf) = 2 ^ 33.
Proof. unfold huge_outbuf. rewrite repeat_length. apply Z2Nat.id. lia. Qed.

(** What [encodeArray] does at a length of [2^32]: the prefix is 0. *)
Lemma encodeArray_at_2_32 (inp outbuf : list Z) :
  Z.of_nat (length inp) = 2 ^ 32 ->
  Forall is_u32 inp ->
  2 ^ 33 <= Z.of_nat (length outbuf) ->
  exists n st rest,
    encodeArray ref_pack inp outbuf 0 = (Ok n, st)
    /\ s_outbuf st = 0 :: CookiePadder :: CookiePadder :: CookiePadder :: rest
    /\ (8 <= n)%nat.
Proof.
  intros HL Hu Hcap.
  assert (Hv : valid_length (Z.of_nat (length inp)))
    by (rewrite HL; split; reflexivity).
  pose proof (encoded_stream_bound ref_pack ref_pack_length inp 0 Hu) as Hb.
  assert (Hroom : (length (encoded_stream ref_pack inp 0) <= length outbuf)%nat).
  { change (2 ^ 32) with 4294967296 in HL. change (2 ^ 33) with 8589934592 in Hcap.
    pose proof (Nat.Div0.mul_div_le (length inp) 2048). lia. }
  pose proof (encodeArray_ok ref_pack ref_pack_length inp outbuf 0 Hv Hu Hroom) as He.
  cbv zeta in He.
  eexists _, _, _. split; [exact He|]. cbn [s_outbuf].
  unfold encoded_stream. rewrite HL.
  change (wrap32 (2 ^ 32)) with 0. change (pad_count (0 + 1)) with 3%nat.
  cbn [repeat app length]. split; [reflexivity|].
  pose proof (frames_length_ge ref_pack (length inp) inp) as Hge.
  unfold blocks. change (2 ^ 32) with 4294967296 in HL. lia.
Qed.

(** What [decodeArray] does with a prefix of 0: it stores nothing. *)
Lemma decodeArray_zero_length (rest dst : list Z) :
  decodeArray ref_unpack
    (0 :: CookiePadder :: CookiePadder :: CookiePadder :: rest) 0 dst 0
  = (Ok (4%nat, 0%nat), mkState rest 4 dst 0 []).
Proof. reflexivity. Qed.

Lemma huge_dst_head : nth_error huge_dst 0 = Some 1.
Proof.
  unfold huge_dst.
  replace (Z.to_nat (2 ^ 32)) with (S (Z.to_nat (2 ^ 32 - 1)))
    by (rewrite <- Z2Nat.inj_succ by lia; f_equal).
  reflexivity.
Qed.

Lemma huge_input_head : nth_error huge_input 0 = Some 0.
Proof.
  unfold huge_input.
  replace (Z.to_nat (2 ^ 32)) with (S (Z.to_nat (2 ^ 32 - 1)))
    by (rewrite <- Z2Nat.inj_succ by lia; f_equal).
  reflexivity.
Qed.

(** ** The bounds of the model are not what stops a call

    [LoopBound] is never the outcome of [encodeArray], nor of
    [decodeArray] on a stream whose first word is a 32-bit word: the loops
    of the source end by themselves. *)

Lemma bind_inv_ok {A B} (c : M A) (f : A -> M B) s b s' :
  bind c f s = (Ok b, s') ->
  exists a s1, c s = (Ok a, s1) /\ f a s1 = (Ok b, s').
Proof.
  unfold bind. destruct (c s) as [[a|e1] s1]; intros H.
  - now exists a, s1.
  - discriminate H.
Qed.

Lemma ob_bind {A B} (c : M A) (f : A -> M B) :
  only_oob c -> (forall a, only_oob (f a)) -> only_oob (bind c f).
Proof.
  intros Hc Hf s e s' H. apply bind_inv_err in H as [H|[a [s1 [_ H]]]].
  - exact (Hc _ _ _ H).
  - exact (Hf _ _ _ _ H).
Qed.

Lemma ob_ret {A} (a : A) : only_oob (ret a).
Proof. intros s e s' H. discriminate H. Qed.

Lemma ob_get : only_oob get.
Proof. intros s e s' H. discriminate H. Qed.

Lemma ob_peek_in : only_oob peek_in.
Proof.
  intros s e s' H. unfold peek_in in H.
  destruct (s_in s); [|discriminate H]. now injection H as <- _.
Qed.

Lemma ob_advance_in n : only_oob (advance_in n).
Proof.
  intros s e s' H. unfold advance_in in H.
  destruct (n <=? length (s_in s))%nat; [discriminate H|]. now injection H as <- _.
Qed.

Lemma ob_load_in n : only_oob (load_in n).
Proof.
  intros s e s' H. unfold load_in in H.
  destruct (n <=? length (s_in s))%nat; [discriminate H|]. now injection H as <- _.
Qed.

Lemma ob_advance_out n : only_oob (advance_out n).
Proof.
  intros s e s' H. unfold advance_out in H.
  destruct (s_out s + n <=? length (s_outbuf s))%nat; [discriminate H|].
  now injection H as <- _.
Qed.

Lemma ob_store_out off ws : only_oob (store_out off ws).
Proof.
  intros s e s' H. unfold store_out in H.
  destruct (store _ _ _); [discriminate H|]. now injection H as <- _.
Qed.

Lemma ob_write_out v : only_oob (write_out v).
Proof.
  intros s e s' H. unfold write_out in H.
  destruct (store _ _ _); [discriminate H|]. now injection H as <- _.
Qed.

Lemma ob_log_call off b : only_oob (log_call off b).
Proof. intros s e s' H. discriminate H. Qed.

Lemma ob_for_range body n : forall i,
  (forall j, only_oob (body j)) -> only_oob (for_range i n body).
Proof.
  induction n as [|n IH]; intros i Hb; cbn [for_range].
  - apply ob_ret.
  - apply ob_bind; [apply Hb|]. intros _. now apply IH.
Qed.

Create HintDb ob.

#[local] Hint Resolve ob_ret ob_get ob_peek_in ob_advance_in ob_load_in
  ob_advance_out ob_store_out ob_write_out ob_log_call : ob.

Ltac ob_step :=
  repeat first
    [ apply ob_bind; [|intros ?]
    | apply ob_for_range; intros ?
    | solve [auto with ob] ].

Lemma ob_encode_block pack h : only_oob (encode_block pack h).
Proof. unfold encode_block. ob_step. Qed.

Lemma ob_decode_block unpack h : only_oob (decode_block unpack h).
Proof. unfold decode_block, read_header. ob_step. Qed.

(** A computation that leaves the input cursor, or the output cursor,
    where it was. *)

Lemma keeps_bind {X A B} (f : state -> X) (c : M A) (g : A -> M B) :
  keeps f c -> (forall a, keeps f (g a)) -> keeps f (bind c g).
Proof.
  intros Hc Hg s b s' H. apply bind_inv_ok in H as (a & s1 & H1 & H2).
  rewrite (Hg _ _ _ _ H2). exact (Hc _ _ _ H1).
Qed.

Lemma keeps_ret {X A} (f : state -> X) (a : A) : keeps f (ret a).
Proof. intros s b s' H. now injection H as _ <-. Qed.

Lemma keeps_get {X} (f : state -> X) : keeps f get.
Proof. intros s b s' H. now injection H as _ <-. Qed.

Lemma keeps_for_range {X} (f : state -> X) body n : forall i,
  (forall j, keeps f (body j)) -> keeps f (for_range i n body).
Proof.
  induction n as [|n IH]; intros i Hb; cbn [for_range].
  - apply keeps_ret.
  - apply keeps_bind; [apply Hb|]. intros _. now apply IH.
Qed.

Lemma keeps_in_write_out v : keeps s_in (write_out v).
Proof.
  intros s b s' H. unfold write_out in H.
  destruct (store _ _ _); [|discriminate H]. now injection H as _ <-.
Qed.

Lemma keeps_in_store_out off ws : keeps s_in (store_out off ws).
Proof.
  intros s b s' H. unfold store_out in H.
  destruct (store _ _ _); [|discriminate H]. now injection H as _ <-.
Qed.

Lemma keeps_in_advance_out n : keeps s_in (advance_out n).
Proof.
  intros s b s' H. unfold advance_out in H.
  destruct (s_out s + n <=? length (s_outbuf s))%nat; [|discriminate H].
  now injection H as _ <-.
Qed.

Lemma keeps_log_call {X} (f : state -> X) off b :
  (forall i io ob o c c', f (mkState i io ob o c) = f (mkState i io ob o c')) ->
  keeps f (log_call off b).
Proof.
  intros Hf s u s' H. unfold log_call in H. injection H as _ <-.
  destruct s. apply Hf.
Qed.

Lemma keeps_out_store_out off ws : keeps s_out (store_out off ws).
Proof.
  intros s b s' H. unfold store_out in H.
  destruct (store _ _ _); [|discriminate H]. now injection H as _ <-.
Qed.

Lemma keeps_out_peek_in : keeps s_out peek_in.
Proof.
  intros s b s' H. unfold peek_in in H.
  destruct (s_in s); [discriminate H|]. now injection H as _ <-.
Qed.

Lemma keeps_out_advance_in n : keeps s_out (advance_in n).
Proof.
  intros s b s' H. unfold advance_in in H.
  destruct (n <=? length (s_in s))%nat; [|discriminate H]. now injection H as _ <-.
Qed.

Lemma keeps_out_load_in n : keeps s_out (load_in n).
Proof.
  intros s b s' H. unfold load_in in H.
  destruct (n <=? length (s_in s))%nat; [|discriminate H]. now injection H as _ <-.
Qed.

Create HintDb keeps.

#[local] Hint Resolve keeps_ret keeps_get keeps_in_write_out keeps_in_store_out
  keeps_in_advance_out keeps_out_store_out keeps_out_peek_in
  keeps_out_advance_in keeps_out_load_in : keeps.

Ltac keeps_step :=
  repeat first
    [ apply keeps_bind; [|intros ?]
    | apply keeps_for_range; intros ?
    | apply keeps_log_call; reflexivity
    | solve [auto with keeps] ].

Lemma keeps_in_encode_block pack h : keeps s_in (encode_block pack h).
Proof. unfold encode_block. keeps_step. Qed.

Lemma keeps_out_decode_block unpack h : keeps s_out (decode_block unpack h).
Proof. unfold decode_block, read_header. keeps_step. Qed.

Lemma advance_in_inv n s u s' :
  advance_in n s = (Ok u, s') ->
  (n <= length (s_in s))%nat
  /\ s_in s' = skipn n (s_in s) /\ s_inoff s' = (s_inoff s + n)%nat
  /\ s_out s' = s_out s.
Proof.
  unfold advance_in. destruct (Nat.leb_spec n (length (s_in s))) as [Hle|Hgt];
    intros H; [|discriminate H].
  injection H as _ <-. cbn [s_in s_inoff s_out]. tauto.
Qed.

Lemma advance_out_inv n s u s' :
  advance_out n s = (Ok u, s') ->
  s_out s' = (s_out s + n)%nat /\ s_in s' = s_in s.
Proof.
  unfold advance_out. destruct (_ <=? _)%nat; intros H; [|discriminate H].
  injection H as _ <-. cbn [s_in s_out]. tauto.
Qed.

Lemma pad_out_errors addr fuel : forall s e s',
  (pad_count (addr + Z.of_nat (s_out s)) <= fuel)%nat ->
  pad_out fuel addr s = (Err e, s') -> e = OutOfBounds.
Proof.
  induction fuel as [|fuel IH]; intros s e s' Hf H; cbn [pad_out] in H;
    rewrite bind_get in H;
    destruct (Z.eq_dec ((addr + Z.of_nat (s_out s)) mod 4) 0) as [E|E];
    try (rewrite needPadding_false in H by exact E; discriminate H);
    rewrite pad_count_step in Hf by exact E; [lia|].
  rewrite needPadding_true in H by exact E.
  apply bind_inv_err in H as [H|([] & s1 & H1 & H)].
  - exact (ob_write_out _ _ _ _ H).
  - apply IH in H; [exact H|].
    unfold write_out in H1. destruct (store _ _ _); [|discriminate H1].
    injection H1 as <-. cbn [s_out].
    replace (addr + Z.of_nat (S (s_out s))) with (addr + Z.of_nat (s_out s) + 1) by lia.
    lia.
Qed.

Lemma keeps_in_pad_out addr fuel : keeps s_in (pad_out fuel addr).
Proof.
  induction fuel as [|fuel IH]; cbn [pad_out];
    apply keeps_bind; try apply keeps_get; intros s;
    destruct (needPaddingTo128Bits _); try apply keeps_ret.
  - intros s0 a s' H. discriminate H.
  - apply keeps_bind; [apply keeps_in_write_out|]. intros _. exact IH.
Qed.

Lemma encode_full_blocks_errors pack fuel : forall s e s',
  (length (s_in s) <= fuel)%nat ->
  encode_full_blocks pack fuel s = (Err e, s') -> e = OutOfBounds.
Proof.
  induction fuel as [|fuel IH]; intros s e s' Hf H;
    rewrite encode_full_blocks_eq in H;
    destruct (Nat.leb_spec 2048 (length (s_in s))); try discriminate H; [lia|].
  apply bind_inv_err in H as [H|([] & s1 & H1 & H)].
  - exact (ob_encode_block _ _ _ _ _ H).
  - apply keeps_in_encode_block in H1.
    apply bind_inv_err in H as [H|([] & s2 & H2 & H)].
    + exact (ob_advance_in _ _ _ _ H).
    + apply IH in H; [exact H|].
      apply advance_in_inv in H2 as (_ & -> & _).
      rewrite length_skipn, H1. lia.
Qed.

Lemma encode_full_blocks_mod pack fuel : forall s s',
  encode_full_blocks pack fuel s = (Ok tt, s') ->
  (length (s_in s') mod 128 = length (s_in s) mod 128)%nat.
Proof.
  induction fuel as [|fuel IH]; intros s s' H;
    rewrite encode_full_blocks_eq in H;
    destruct (Nat.leb_spec 2048 (length (s_in s))) as [Hge|Hlt];
    try discriminate H; try (injection H as <-; reflexivity).
  apply bind_inv_ok in H as ([] & s1 & H1 & H).
  apply keeps_in_encode_block in H1.
  apply bind_inv_ok in H as ([] & s2 & H2 & H).
  apply IH in H. rewrite H.
  apply advance_in_inv in H2 as (_ & -> & _).
  rewrite length_skipn, H1.
  replace (length (s_in s)) with ((length (s_in s) - 2048) + 16 * 128)%nat at 2 by lia.
  now rewrite Nat.Div0.mod_add.
Qed.

Lemma encode_trailing_errors pack s e s' :
  (length (s_in s) mod 128 = 0)%nat ->
  encode_trailing pack s = (Err e, s') -> e = OutOfBounds.
Proof.
  intros Hm H. unfold encode_trailing in H. rewrite bind_get in H.
  destruct (0 <? length (s_in s))%nat; [|discriminate H].
  cbv zeta in H. change (Z.to_nat MiniBlockSize) with 128%nat in H.
  apply bind_inv_err in H as [H|([] & s1 & H1 & H)].
  - exact (ob_encode_block _ _ _ _ _ H).
  - apply keeps_in_encode_block in H1.
    apply bind_inv_err in H as [H|([] & s2 & H2 & H)].
    + exact (ob_advance_in _ _ _ _ H).
    + exfalso. rewrite bind_get in H.
      apply advance_in_inv in H2 as (_ & H2 & _).
      rewrite H2, H1 in H.
      rewrite skipn_all2 in H; [discriminate H|].
      pose proof (Nat.Div0.div_mod (length (s_in s)) 128). lia.
Qed.

(** [encodeArray] ends with [nvalue], with InvalidLength, or outside the
    output array: neither the loop bounds of the model nor the assert
    stop it. *)
Lemma encodeArray_errors pack inp outbuf addr e st :
  encodeArray pack inp outbuf addr = (Err e, st) ->
  e = InvalidLength \/ e = OutOfBounds.
Proof.
  unfold encodeArray, encodeArray_body. intros H.
  rewrite bind_get in H. cbn [s_in s_out] in H. cbv zeta in H.
  destruct (checkifdivisibleby (Z.of_nat (length inp)) BlockSize) eqn:Ec;
    [|injection H as <- _; now left].
  right. cbn [check] in H. unfold bind at 1 in H. unfold ret at 1 in H.
  apply andb_true_iff in Ec as [_ Hm]. apply Z.eqb_eq in Hm.
  change BlockSize with 128 in Hm.
  apply bind_inv_err in H as [H|([] & s1 & H1 & H)];
    [exact (ob_write_out _ _ _ _ H)|].
  assert (Hin1 : s_in s1 = inp) by (apply keeps_in_write_out in H1; exact H1).
  apply bind_inv_err in H as [H|([] & s2 & H2 & H)].
  - apply pad_out_errors in H; [exact H|]. pose proof (pad_count_le (addr + Z.of_nat (s_out s1))). lia.
  - assert (Hin2 : s_in s2 = inp)
      by (apply keeps_in_pad_out in H2; now rewrite H2).
    apply bind_inv_err in H as [H|([] & s3 & H3 & H)].
    + apply encode_full_blocks_errors in H; [exact H|]. rewrite Hin2. lia.
    + apply encode_full_blocks_mod in H3. rewrite Hin2 in H3.
      apply bind_inv_err in H as [H|([] & s4 & H4 & H)].
      * apply encode_trailing_errors in H; [exact H|]. rewrite H3.
        apply Nat2Z.inj. rewrite Nat2Z.inj_mod. exact Hm.
      * discriminate H.
Qed.

Lemma skip_padding_errors addr fuel : forall s e s',
  (pad_count (addr + Z.of_nat (s_inoff s)) <= fuel)%nat ->
  skip_padding fuel addr s = (Err e, s') ->
  e = StreamCorrupt \/ e = OutOfBounds.
Proof.
  induction fuel as [|fuel IH]; intros s e s' Hf H; cbn [skip_padding] in H;
    rewrite bind_get in H;
    destruct (Z.eq_dec ((addr + Z.of_nat (s_inoff s)) mod 4) 0) as [E|E];
    try (rewrite needPadding_false in H by exact E; discriminate H);
    rewrite pad_count_step in Hf by exact E; [lia|].
  rewrite needPadding_true in H by exact E.
  apply bind_inv_err in H as [H|(w & s1 & H1 & H)];
    [right; exact (ob_peek_in _ _ _ H)|].
  assert (s1 = s) by (unfold peek_in in H1; destruct (s_in s); [discriminate H1|];
                      now injection H1 as _ <-). subst s1.
  apply bind_inv_err in H as [H|([] & s2 & H2 & H)].
  - left. destruct (w =? CookiePadder); [discriminate H|]. now injection H as <- _.
  - assert (s2 = s) by (destruct (w =? CookiePadder); [|discriminate H2];
                        now injection H2 as <-). subst s2.
    apply bind_inv_err in H as [H|([] & s3 & H3 & H)];
      [right; exact (ob_advance_in _ _ _ _ H)|].
    apply IH in H; [exact H|].
    apply advance_in_inv in H3 as (_ & _ & -> & _).
    replace (addr + Z.of_nat (s_inoff s + 1)) with (addr + Z.of_nat (s_inoff s) + 1) by lia.
    lia.
Qed.

Lemma keeps_out_skip_padding addr fuel : keeps s_out (skip_padding fuel addr).
Proof.
  induction fuel as [|fuel IH]; cbn [skip_padding];
    apply keeps_bind; try apply keeps_get; intros s;
    destruct (needPaddingTo128Bits _); try apply keeps_ret.
  - intros s0 a s' H. discriminate H.
  - apply keeps_bind; [apply keeps_out_peek_in|]. intros w.
    apply keeps_bind.
    + intros s0 a s' H. destruct (w =? CookiePadder); [|discriminate H].
      now injection H as _ <-.
    + intros _. apply keeps_bind; [apply keeps_out_advance_in|]. intros _. exact IH.
Qed.

Lemma decode_full_blocks_errors unpack initout L fuel : forall s e s',
  0 <= L < 2 ^ 32 ->
  Z.of_nat initout + L / 2048 * 2048 - Z.of_nat (s_out s) <= 2048 * Z.of_nat fuel ->
  decode_full_blocks unpack fuel initout L s = (Err e, s') -> e = OutOfBounds.
Proof.
  induction fuel as [|fuel IH]; intros s e s' HL Hf H;
    rewrite decode_full_blocks_eq, block_loop_bound in H by exact HL;
    destruct (Z.ltb_spec (Z.of_nat (s_out s)) (Z.of_nat initout + L / 2048 * 2048));
    try discriminate H; [lia|].
  apply bind_inv_err in H as [H|([] & s1 & H1 & H)].
  - exact (ob_decode_block _ _ _ _ _ H).
  - apply keeps_out_decode_block in H1.
    apply bind_inv_err in H as [H|([] & s2 & H2 & H)].
    + exact (ob_advance_out _ _ _ _ H).
    + apply IH in H; [exact H|exact HL|].
      apply advance_out_inv in H2 as [-> _]. rewrite H1. lia.
Qed.

(** [decodeArray], on a stream that starts with a 32-bit word, is not
    stopped by the loop bounds of the model. *)
Lemma decodeArray_errors unpack L inbuf in_addr dst out_addr e st :
  is_u32 L ->
  decodeArray unpack (L :: inbuf) in_addr dst out_addr = (Err e, st) ->
  e <> LoopBound.
Proof.
  unfold decodeArray, decodeArray_body. intros HL H.
  rewrite peek_advance_ok, bind_get in H. cbn [s_out] in H.
  destruct (needPaddingTo128Bits (out_addr + Z.of_nat 0)); cbn [negb check] in H;
    [injection H as <- _; discriminate|].
  unfold bind at 1 in H. unfold ret at 1 in H.
  apply bind_inv_err in H as [H|([] & s1 & H1 & H)].
  - apply skip_padding_errors in H; [destruct H as [-> | ->]; discriminate|].
    cbn [s_inoff]. pose proof (pad_count_le (in_addr + Z.of_nat (0 + 1))). lia.
  - apply keeps_out_skip_padding in H1. cbn [s_out] in H1.
    apply bind_inv_err in H as [H|([] & s2 & H2 & H)].
    + apply decode_full_blocks_errors in H; [subst e; discriminate|exact HL|].
      rewrite H1. unfold is_u32 in HL. change (2 ^ 32) with 4294967296 in HL.
      rewrite Z2Nat.id by lia. Z.div_mod_to_equations. lia.
    + apply bind_inv_err in H as [H|([] & s3 & H3 & H)]; [|discriminate H].
      unfold decode_trailing in H. rewrite bind_get in H.
      destruct (Z.of_nat (s_out s2) <? _); [|discriminate H].
      cbv zeta in H.
      apply bind_inv_err in H as [H|([] & s4 & H4 & H)];
        [apply ob_decode_block in H; subst e; discriminate|].
      apply bind_inv_err in H as [H|([] & s5 & H5 & H)];
        [apply ob_advance_out in H; subst e; discriminate|].
      rewrite bind_get in H. destruct (_ =? _); [discriminate H|].
      injection H as <- _. discriminate.
Qed.

(** ** The scenarios of the specification, run on the model *)

(** S1: 128 zeros give the prefix, the padding and a header of zeros, and
    no payload. *)
Example scenario_S1 :
  let r := encodeArray ref_pack (repeat 0 128) (repeat 9 12) 0 in
  fst r = Ok 8%nat
  /\ s_outbuf (snd r)
     = [128; CookiePadder; CookiePadder; CookiePadder; 0; 0; 0; 0; 9; 9; 9; 9]
  /\ fst (decodeArray ref_unpack (s_outbuf (snd r)) 0 (repeat 9 128) 0)
     = Ok (8%nat, 128%nat)
  /\ s_outbuf (snd (decodeArray ref_unpack (s_outbuf (snd r)) 0 (repeat 9 128) 0))
     = repeat 0 128.
Proof. vm_compute. repeat split. Qed.

(** S2: [1; 2; ...; 128] has width 8: one header word [0x08000000] and 32
    words of payload. *)
Example scenario_S2 :
  let r := encodeArray ref_pack sample_input sample_outbuf 0 in
  fst r = Ok 40%nat
  /\ firstn 8 (s_outbuf (snd r))
     = [128; CookiePadder; CookiePadder; CookiePadder; 134217728; 0; 0; 0]
  /\ s_calls (snd r) = [(8%nat, 8)].
Proof. vm_compute. repeat split. Qed.

(** S3: [x[i] = i mod 16] for 2048 words: every width is 4, every header
    word [0x04040404], 256 words of payload. *)
Example scenario_S3 :
  let x := map (fun i => Z.of_nat i mod 16) (seq 0 2048) in
  let r := encodeArray ref_pack x (repeat 0 300) 0 in
  fst r = Ok 264%nat
  /\ firstn 4 (skipn 4 (s_outbuf (snd r)))
     = [67372036; 67372036; 67372036; 67372036]
  /\ map snd (s_calls (snd r)) = repeat 4 16.
Proof. vm_compute. repeat split. Qed.

(** S4: 2048 words, the first [0xFFFFFFFF], the others zero: width 32 for
    the first miniblock, 128 words of payload, nothing for the others. *)
Example scenario_S4 :
  let x := 4294967295 :: repeat 0 2047 in
  let r := encodeArray ref_pack x (repeat 0 200) 0 in
  fst r = Ok 136%nat
  /\ firstn 4 (skipn 4 (s_outbuf (snd r))) = [536870912; 0; 0; 0]
  /\ map snd (s_calls (snd r)) = 32 :: repeat 0 15.
Proof. vm_compute. repeat split. Qed.

(** S5: 2176 ones: a full block, then a trailing block of one miniblock
    with the header [0x01000000; 0; 0; 0] and 4 words of payload. *)
Example scenario_S5 :
  let x := repeat 1 2176 in
  let r := encodeArray ref_pack x (repeat 0 100) 0 in
  fst r = Ok 80%nat
  /\ firstn 4 (skipn 72 (s_outbuf (snd r))) = [16777216; 0; 0; 0]
  /\ nth 16 (s_calls (snd r)) (0%nat, 0) = (76%nat, 1)
  /\ fst (decodeArray ref_unpack (s_outbuf (snd r)) 0 (repeat 0 2176) 0)
     = Ok (80%nat, 2176%nat)
  /\ s_outbuf (snd (decodeArray ref_unpack (s_outbuf (snd r)) 0 (repeat 0 2176) 0))
     = x.
Proof. vm_compute. repeat split. Qed.

(** ** What lies at the offsets handed to the pack kernel *)

Lemma firstn_exact' {A} (l r : list A) n :
  n = length l -> firstn n (l ++ r) = l.
Proof. intros ->. now rewrite firstn_app, Nat.sub_diag, firstn_all, firstn_O, app_nil_r. Qed.

Lemma skipn_exact' {A} (l r : list A) n :
  n = length l -> skipn n (l ++ r) = r.
Proof. intros ->. now rewrite skipn_app, Nat.sub_diag, skipn_all, skipn_O. Qed.

Section Payloads.

Variable pack : list Z -> Z -> list Z.
Hypothesis pack_length : pack_contract pack.

Lemma payloads_at (ms : list (list Z)) : forall pre post,
  Forall (Forall is_u32) ms ->
  Forall2 (payload_at pack
             (pre ++ concat (map (fun m => pack m (maxbits m)) ms) ++ post))
          (calls_from (length pre) (map maxbits ms)) ms.
Proof.
  induction ms as [|m ms IH]; intros pre post Hu; [constructor|].
  inversion Hu as [|? ? Hu1 Hu2]; subst.
  pose proof (pack_length m _ (maxbits_range m Hu1)) as Hlen.
  cbn [map concat calls_from]. constructor.
  - split; [reflexivity|]. cbn [fst snd].
    rewrite skipn_exact' by reflexivity.
    rewrite <- !app_assoc. now apply firstn_exact'.
  - rewrite <- Hlen, <- length_app.
    rewrite <- app_assoc, (app_assoc pre).
    now apply IH.
Qed.

Lemma frame_payload_map (blk : list Z) :
  frame_payload pack blk
  = concat (map (fun m => pack m (maxbits m)) (miniblocks_of blk)).
Proof. unfold frame_payload, miniblocks_of. now rewrite map_map. Qed.

Lemma miniblock_widths_map (blk : list Z) :
  miniblock_widths blk = map maxbits (miniblocks_of blk).
Proof. unfold miniblock_widths, miniblocks_of. now rewrite map_map. Qed.

Lemma miniblocks_of_u32 (blk : list Z) :
  Forall is_u32 blk -> Forall (Forall is_u32) (miniblocks_of blk).
Proof.
  intros Hu. unfold miniblocks_of. apply Forall_forall. intros m Hm.
  apply in_map_iff in Hm as [i [<- _]]. now apply miniblock_Forall.
Qed.

Lemma stream_payloads_at (bls : list (list Z)) : forall pre post,
  Forall (Forall is_u32) bls ->
  Forall2 (payload_at pack (pre ++ concat (map (enc_frame pack) bls) ++ post))
          (stream_calls (length pre) bls)
          (concat (map miniblocks_of bls)).
Proof.
  induction bls as [|blk bls IH]; intros pre post Hu; [constructor|].
  inversion Hu as [|? ? Hu1 Hu2]; subst.
  cbn [map concat stream_calls]. apply Forall2_app.
  - unfold frame_calls, enc_frame.
    rewrite miniblock_widths_map, frame_payload_map.
    replace (length pre + 4)%nat with (length (pre ++ frame_header blk))
      by (rewrite length_app; reflexivity).
    rewrite <- !app_assoc, (app_assoc pre).
    apply payloads_at. now apply miniblocks_of_u32.
  - rewrite <- (enc_frame_length pack pack_length blk Hu1), <- length_app.
    rewrite <- app_assoc, (app_assoc pre).
    now apply IH.
Qed.

End Payloads.

(** The miniblocks of the blocks are the miniblocks of the input. *)
Lemma miniblock_skipn (l : list Z) (k i : nat) :
  miniblock (skipn (k * 128) l) i = miniblock l (k + i).
Proof.
  unfold miniblock. rewrite skipn_skipn_add. do 2 f_equal. lia.
Qed.

Lemma map_seq_offset {B} (n : nat) : forall (f : nat -> B) (a : nat),
  map f (seq a n) = map (fun i => f (a + i)%nat) (seq 0 n).
Proof.
  induction n as [|n IH]; intros f a; [reflexivity|].
  cbn [seq map]. rewrite Nat.add_0_r. f_equal.
  rewrite (IH f (S a)), (IH (fun i => f (a + i)%nat) 1%nat).
  apply map_ext. intros i. f_equal. lia.
Qed.

Lemma miniblocks_of_chunks (fuel : nat) : forall inp,
  (length inp <= fuel)%nat -> (length inp mod 128 = 0)%nat ->
  concat (map miniblocks_of (chunks fuel 2048 inp)) = miniblocks_of inp.
Proof.
  induction fuel as [|fuel IH]; intros inp Hf Hm.
  - destruct inp; [reflexivity|cbn [length] in Hf; lia].
  - destruct inp as [|x inp']; [reflexivity|].
    set (inp := x :: inp') in *.
    assert (Hl : (0 < length inp)%nat) by (subst inp; cbn [length]; lia).
    rewrite chunks_cons by exact Hl. cbn [map concat].
    pose proof (Nat.Div0.mod_divides (length inp) 128) as [Hd _].
    destruct (Hd Hm) as [k Hk].
    destruct (Nat.leb_spec 16 k) as [Hge|Hlt].
    + rewrite IH; [ | rewrite length_skipn; lia | ]; cycle 1.
      { rewrite length_skipn, Hk.
        replace (128 * k - 2048)%nat with ((k - 16) * 128)%nat by lia.
        apply Nat.Div0.mod_mul. }
      unfold miniblocks_of.
      rewrite length_firstn, length_skipn, Hk, Nat.min_l by lia.
      change (2048 / 128)%nat with 16%nat.
      replace (128 * k - 2048)%nat with ((k - 16) * 128)%nat by lia.
      rewrite Nat.div_mul by discriminate.
      replace (128 * k)%nat with (k * 128)%nat by lia.
      rewrite Nat.div_mul by discriminate.
      assert (Hs : seq 0 k = seq 0 16 ++ seq 16 (k - 16))
        by (rewrite <- seq_app; f_equal; lia).
      rewrite Hs, map_app. f_equal.
      * apply map_ext_in. intros i Hi. apply in_seq in Hi.
        change 2048%nat with (16 * 128)%nat. apply miniblock_firstn. lia.
      * rewrite (map_seq_offset _ (miniblock inp) 16).
        apply map_ext. intros i.
        change 2048%nat with (16 * 128)%nat. apply miniblock_skipn.
    + rewrite (firstn_all2 (n:=2048)) by lia.
      rewrite (skipn_all2 (n:=2048)) by lia.
      rewrite chunks_nil. cbn [map concat]. now rewrite app_nil_r.
Qed.

(** * The claims *)

(** C1 (as amended).  Round trip: for every input whose length L is a
    positive multiple of 128 below 2^32, with all three arrays 16-byte
    aligned, [decodeArray] run on what [encodeArray] stored writes back the
    input, word for word, leaves the rest of the output array as it was,
    and reports [nvalue = L].  The kernels are any pair that meets the
    contract. *)
Theorem decode_encode_roundtrip
  (pack unpack : list Z -> Z -> list Z) (inp outbuf dst : list Z)
  (addr in_addr out_addr : Z) :
  pack_contract pack -> unpack_contract pack unpack ->
  valid_length (Z.of_nat (length inp)) ->
  Z.of_nat (length inp) < 2 ^ 32 ->
  Forall is_u32 inp ->
  addr mod 4 = 0 -> in_addr mod 4 = 0 -> out_addr mod 4 = 0 ->
  (length (encoded_stream pack inp addr) <= length outbuf)%nat ->
  (length inp <= length dst)%nat ->
  exists n st pos st',
    encodeArray pack inp outbuf addr = (Ok n, st)
    /\ decodeArray unpack (s_outbuf st) in_addr dst out_addr
       = (Ok (pos, length inp), st')
    /\ firstn (length inp) (s_outbuf st') = inp
    /\ skipn (length inp) (s_outbuf st') = skipn (length inp) dst.
Proof.
  intros Hp Hup Hv Hlt Hu Ha Hi Ho Hroom Hdst.
  pose proof (encodeArray_ok pack Hp inp outbuf addr Hv Hu Hroom) as He.
  pose proof (decodeArray_ok pack unpack Hp Hup inp
                (skipn (length (encoded_stream pack inp addr)) outbuf) dst
                addr in_addr out_addr Hv Hlt Hu ltac:(congruence) Ho Hdst) as Hd.
  cbv zeta in He, Hd.
  eexists _, _, _, _. split; [exact He|]. split; [exact Hd|].
  cbn [s_outbuf]. split.
  - now rewrite firstn_app, Nat.sub_diag, firstn_all, firstn_O, app_nil_r.
  - now rewrite skipn_app, Nat.sub_diag, skipn_all, skipn_O.
Qed.

Lemma decode_encode_roundtrip_witness :
  exists n st pos st',
    encodeArray ref_pack sample_input sample_outbuf 0 = (Ok n, st)
    /\ decodeArray ref_unpack (s_outbuf st) 0 sample_dst 0
       = (Ok (pos, length sample_input), st')
    /\ firstn (length sample_input) (s_outbuf st') = sample_input
    /\ skipn (length sample_input) (s_outbuf st')
       = skipn (length sample_input) sample_dst.
Proof.
  apply (decode_encode_roundtrip ref_pack ref_unpack sample_input sample_outbuf
           sample_dst 0 0 0).
  - exact ref_pack_length.
  - exact ref_unpack_pack.
  - split; reflexivity.
  - reflexivity.
  - apply forallb_is_u32. reflexivity.
  - reflexivity.
  - reflexivity.
  - reflexivity.
  - apply Nat.leb_le. vm_compute. reflexivity.
  - apply Nat.leb_le. reflexivity.
Defined.

(** C1, the claim as stated fails: at a length of 2^32 (a positive multiple
    of 128) the prefix stored is 0, and [decodeArray] reports [nvalue = 0]
    and leaves the output as it was. *)
Lemma roundtrip_lost_at_2_32 :
  valid_length (Z.of_nat (length huge_input))
  /\ exists n st st',
       encodeArray ref_pack huge_input huge_outbuf 0 = (Ok n, st)
       /\ decodeArray ref_unpack (s_outbuf st) 0 huge_dst 0
          = (Ok (4%nat, 0%nat), st')
       /\ (0 <> length huge_input)%nat
       /\ nth_error (s_outbuf st') 0 = Some 1
       /\ nth_error huge_input 0 = Some 0.
Proof.
  split; [exact huge_input_valid|].
  destruct (encodeArray_at_2_32 huge_input huge_outbuf huge_input_length
              huge_input_u32 ltac:(rewrite huge_outbuf_length; lia))
    as (n & st & rest & He & Hs & _).
  exists n, st. eexists. split; [exact He|].
  rewrite Hs. split; [apply decodeArray_zero_length|].
  cbn [s_outbuf]. split; [|split; [exact huge_dst_head|exact huge_input_head]].
  pose proof huge_input_length as HL. change (2 ^ 32) with 4294967296 in HL. lia.
Qed.

(** C2.  Invalid length: when the length of the input is zero or not a
    multiple of 128, [encodeArray] throws InvalidLength and the output array
    and both cursors are as they were. *)
Theorem encodeArray_invalid_length
  (pack : list Z -> Z -> list Z) (inp outbuf : list Z) (addr : Z) :
  Z.of_nat (length inp) = 0 \/ Z.of_nat (length inp) mod 128 <> 0 ->
  encodeArray pack inp outbuf addr
  = (Err InvalidLength, mkState inp 0 outbuf 0 []).
Proof.
  intros H. unfold encodeArray, encodeArray_body.
  rewrite bind_get. cbn [s_in s_out]. cbv zeta.
  assert (E : checkifdivisibleby (Z.of_nat (length inp)) BlockSize = false).
  { unfold checkifdivisibleby. change BlockSize with 128.
    destruct H as [H|H].
    - rewrite H. reflexivity.
    - apply andb_false_iff. right. now apply Z.eqb_neq. }
  rewrite E. reflexivity.
Qed.

Lemma encodeArray_invalid_length_witness :
  encodeArray ref_pack (repeat 1 100) sample_outbuf 0
  = (Err InvalidLength, mkState (repeat 1 100) 0 sample_outbuf 0 []).
Proof.
  apply (encodeArray_invalid_length ref_pack (repeat 1 100) sample_outbuf 0).
  right. vm_compute. discriminate.
Defined.

(** C3 (as amended).  [decodeArray] does not look at the header widths: it
    throws StreamCorrupt only in the padding loop, on one of the up to
    three words after the length, when that word differs from CookiePadder
    and the cursor is not aligned; no header has been read then, no kernel
    called and nothing stored. *)
Theorem stream_corrupt_only_in_padding
  (unpack : list Z -> Z -> list Z) (inbuf dst : list Z) (in_addr out_addr : Z)
  (st : state) :
  decodeArray unpack inbuf in_addr dst out_addr = (Err StreamCorrupt, st) ->
  s_calls st = [] /\ s_outbuf st = dst /\ s_out st = 0%nat
  /\ (1 <= s_inoff st <= 3)%nat
  /\ (in_addr + Z.of_nat (s_inoff st)) mod 4 <> 0
  /\ exists w rest, s_in st = w :: rest /\ w <> CookiePadder.
Proof.
  unfold decodeArray, decodeArray_body. intros H.
  destruct inbuf as [|L inbuf]; [discriminate H|].
  rewrite peek_advance_ok, bind_get in H. cbn [s_out] in H.
  destruct (needPaddingTo128Bits (out_addr + Z.of_nat 0)); cbn [negb check] in H;
    [discriminate H|].
  unfold bind at 1 in H. unfold ret at 1 in H.
  apply bind_inv_err in H as [H|(a & s1 & _ & H)].
  - apply skip_padding_corrupt in H.
    cbn [s_in s_inoff s_outbuf s_out s_calls] in H.
    destruct H as (Hw & Hal & Hio & Hb & Ho & Hc).
    pose proof (pad_count_le (in_addr + Z.of_nat (0 + 1))).
    repeat split; try assumption; lia.
  - exfalso. revert H.
    assert (N : never_corrupt
                  (decode_full_blocks unpack (Z.to_nat L) 0 L ;;
                   decode_trailing unpack 0 L ;;
                   s2 <- get ;; ret (s_inoff s2, (s_out s2 - 0)%nat))).
    { apply nc_bind; [apply nc_decode_full_blocks|]. intros _.
      apply nc_bind; [apply nc_decode_trailing|]. intros _.
      apply nc_bind; [apply nc_get|]. intros s2. apply nc_ret. }
    intros H. now apply N in H.
Qed.

Lemma stream_corrupt_only_in_padding_witness :
  let st := mkState [7; 0; 0] 1 sample_dst 0 [] in
  s_calls st = [] /\ s_outbuf st = sample_dst /\ s_out st = 0%nat
  /\ (1 <= s_inoff st <= 3)%nat
  /\ (0 + Z.of_nat (s_inoff st)) mod 4 <> 0
  /\ exists w rest, s_in st = w :: rest /\ w <> CookiePadder.
Proof.
  apply (stream_corrupt_only_in_padding ref_unpack [128; 7; 0; 0] sample_dst 0 0).
  reflexivity.
Defined.

(** C3, the claim as stated fails: a stream whose first header width is 33
    is decoded without an error, and the unpack kernel is called at width
    33 (the one entry of the log). *)
Lemma width_33_not_rejected :
  let stream := [128; CookiePadder; CookiePadder; CookiePadder;
                 Z.shiftl 33 24; 0; 0; 0] ++ repeat 1 132 in
  nth 0 (decode_header (firstn 4 (skipn 4 stream))) 0 = 33
  /\ decodeArray ref_unpack stream 0 sample_dst 0
     = (Ok (140%nat, 128%nat), mkState [] 140 sample_dst 128 [(8%nat, 33)]).
Proof. split; vm_compute; reflexivity. Qed.

Lemma firstn_exact {A} (l r : list A) : firstn (length l) (l ++ r) = l.
Proof. now rewrite firstn_app, Nat.sub_diag, firstn_all, firstn_O, app_nil_r. Qed.

Lemma skipn_exact {A} (l r : list A) : skipn (length l) (l ++ r) = r.
Proof. now rewrite skipn_app, Nat.sub_diag, skipn_all, skipn_O. Qed.

Lemma decode_frame_header (blk : list Z) :
  Forall is_u32 blk -> (length blk <= 2048)%nat ->
  decode_header (frame_header blk) = block_widths blk (length blk / 128).
Proof.
  intros Hu Hl. unfold decode_header, frame_header. cbn [flat_map].
  rewrite app_nil_r. apply header_roundtrip.
  - apply block_widths_length.
    apply Nat.Div0.div_le_upper_bound. lia.
  - now apply block_widths_bytes.
Qed.

(** C4.  Width minimality: the stream is the length, the padding and one
    frame per block of the input; the first four words of each frame are a
    header from which the decoder takes, for every miniblock [i] of the
    block, the width [ceil (log2 (max + 1))] of the miniblock, which is 0
    when the maximum is 0 and [floor (log2 max) + 1] otherwise. *)
Theorem header_widths_minimal
  (pack : list Z -> Z -> list Z) (inp outbuf : list Z) (addr : Z) :
  pack_contract pack ->
  valid_length (Z.of_nat (length inp)) ->
  Forall is_u32 inp ->
  (length (encoded_stream pack inp addr) <= length outbuf)%nat ->
  exists n st,
    encodeArray pack inp outbuf addr = (Ok n, st)
    /\ firstn n (s_outbuf st)
       = wrap32 (Z.of_nat (length inp))
         :: repeat CookiePadder (pad_count (addr + 1))
         ++ concat (map (enc_frame pack) (blocks inp))
    /\ concat (blocks inp) = inp
    /\ forall blk, In blk (blocks inp) ->
       forall i, (i < length blk / 128)%nat ->
       let B := nth i (decode_header (firstn 4 (enc_frame pack blk))) 0 in
       let mx := list_max (miniblock blk i) in
       B = Z.log2_up (mx + 1)
       /\ B = (if mx =? 0 then 0 else Z.log2 mx + 1).
Proof.
  intros Hp Hv Hu Hroom.
  pose proof (encodeArray_ok pack Hp inp outbuf addr Hv Hu Hroom) as He.
  cbv zeta in He. eexists _, _. split; [exact He|]. cbn [s_outbuf].
  split; [apply firstn_exact|].
  split; [apply concat_chunks; lia|].
  intros blk Hin i Hi.
  pose proof (chunks_Forall is_u32 (length inp) 2048 inp Hu) as HF.
  pose proof (chunks_length_le (length inp) 2048 inp) as HL.
  rewrite Forall_forall in HF, HL.
  specialize (HF blk Hin). specialize (HL blk Hin).
  unfold enc_frame.
  change 4%nat with (length (frame_header blk)).
  rewrite firstn_exact, decode_frame_header by assumption.
  rewrite nth_block_widths by exact Hi.
  split; [apply maxbits_log2_up|reflexivity].
Qed.

Lemma header_widths_minimal_witness :
  exists n st,
    encodeArray ref_pack sample_input sample_outbuf 0 = (Ok n, st)
    /\ firstn n (s_outbuf st)
       = wrap32 (Z.of_nat (length sample_input))
         :: repeat CookiePadder (pad_count (0 + 1))
         ++ concat (map (enc_frame ref_pack) (blocks sample_input))
    /\ concat (blocks sample_input) = sample_input
    /\ forall blk, In blk (blocks sample_input) ->
       forall i, (i < length blk / 128)%nat ->
       let B := nth i (decode_header (firstn 4 (enc_frame ref_pack blk))) 0 in
       let mx := list_max (miniblock blk i) in
       B = Z.log2_up (mx + 1)
       /\ B = (if mx =? 0 then 0 else Z.log2 mx + 1).
Proof.
  apply (header_widths_minimal ref_pack sample_input sample_outbuf 0).
  - exact ref_pack_length.
  - split; reflexivity.
  - apply forallb_is_u32. reflexivity.
  - apply Nat.leb_le. vm_compute. reflexivity.
Defined.



Lemma block_widths_range (inp : list Z) (h : nat) :
  Forall is_u32 inp -> Forall (fun b => 0 <= b <= 32) (block_widths inp h).
Proof.
  intros Hu. unfold block_widths. apply Forall_app. split.
  - apply Forall_map, Forall_forall. intros i _.
    apply maxbits_range. now apply miniblock_Forall.
  - apply Forall_repeat. lia.
Qed.



(** ** The padding loop on a word that is not the sentinel *)

Lemma skip_padding_mismatch (addr : Z) (fuel : nat) :
  forall j w rest io ob o c,
  (j < pad_count (addr + Z.of_nat io))%nat ->
  (j < fuel)%nat ->
  w <> CookiePadder ->
  skip_padding fuel addr
    (mkState (repeat CookiePadder j ++ w :: rest) io ob o c)
  = (Err StreamCorrupt, mkState (w :: rest) (io + j) ob o c).
Proof.
  induction fuel as [|fuel IH]; intros j w rest io ob o c Hj Hf Hw; [lia|].
  destruct (Z.eq_dec ((addr + Z.of_nat io) mod 4) 0) as [E|E];
    [rewrite pad_count_aligned in Hj by exact E; lia|].
  cbn [skip_padding]. rewrite bind_get. cbn [s_inoff].
  rewrite needPadding_true by exact E.
  rewrite pad_count_step in Hj by exact E.
  destruct j as [|j].
  - cbn [repeat app]. unfold bind at 1. unfold peek_in at 1. cbn [s_in].
    destruct (Z.eqb_spec w CookiePadder) as [|_]; [contradiction|].
    cbn [check]. unfold bind at 1. unfold fail at 1.
    now rewrite Nat.add_0_r.
  - cbn [repeat app]. unfold bind at 1. unfold peek_in at 1. cbn [s_in].
    rewrite Z.eqb_refl. cbn [check].
    unfold bind at 1. unfold ret at 1.
    unfold bind at 1. unfold advance_in at 1. cbn [s_in length Nat.leb skipn].
    cbn [s_outbuf s_out s_in s_inoff s_calls].
    rewrite IH; [ | | lia | exact Hw ].
    + do 2 f_equal. lia.
    + replace (addr + Z.of_nat (io + 1)) with (addr + Z.of_nat io + 1) by lia. lia.
Qed.

Lemma decodeArray_bad_padding (unpack : list Z -> Z -> list Z)
  (L : Z) (j : nat) (w : Z) (rest dst : list Z) (in_addr out_addr : Z) :
  out_addr mod 4 = 0 ->
  (j < pad_count (in_addr + 1))%nat ->
  w <> CookiePadder ->
  decodeArray unpack (L :: repeat CookiePadder j ++ w :: rest) in_addr dst out_addr
  = (Err StreamCorrupt, mkState (w :: rest) (1 + j) dst 0 []).
Proof.
  intros Ho Hj Hw. unfold decodeArray, decodeArray_body.
  rewrite peek_advance_ok, bind_get. cbn [s_out].
  rewrite Z.add_0_r, needPadding_false by exact Ho. cbn [negb check].
  unfold bind at 1. unfold ret at 1.
  erewrite bind_err; [reflexivity|].
  apply skip_padding_mismatch; [exact Hj| |exact Hw].
  pose proof (pad_count_le (in_addr + 1)). 
  change (Z.of_nat (0 + 1)) with 1 in Hj. lia.
Qed.

Lemma decodeArray_bad_output (unpack : list Z -> Z -> list Z)
  (L : Z) (rest dst : list Z) (in_addr out_addr : Z) :
  out_addr mod 4 <> 0 ->
  decodeArray unpack (L :: rest) in_addr dst out_addr
  = (Err BadOutputAlignment, mkState rest 1 dst 0 []).
Proof.
  intros Ho. unfold decodeArray, decodeArray_body.
  rewrite peek_advance_ok, bind_get. cbn [s_out].
  rewrite Z.add_0_r, needPadding_true by exact Ho. reflexivity.
Qed.

Lemma firstn_repeat_app (c : Z) (j : nat) (r : list Z) :
  firstn j (repeat c j ++ r) = repeat c j.
Proof.
  pose proof (firstn_exact (repeat c j) r) as H.
  now rewrite repeat_length in H.
Qed.

Lemma skipn_repeat_app (c : Z) (j : nat) (r : list Z) :
  skipn j (repeat c j ++ r) = r.
Proof.
  pose proof (skipn_exact (repeat c j) r) as H.
  now rewrite repeat_length in H.
Qed.

Lemma mutate_padding (L v : Z) (p j : nat) (rest : list Z) :
  (1 <= j <= p)%nat ->
  mutate j v (L :: repeat CookiePadder p ++ rest)
  = L :: repeat CookiePadder (j - 1) ++ v :: repeat CookiePadder (p - j) ++ rest.
Proof.
  intros Hj. unfold mutate.
  destruct j as [|j]; [lia|]. rewrite firstn_cons, skipn_cons.
  replace p with (j + (1 + (p - S j)))%nat at 1 2 by lia.
  rewrite !repeat_app, <- !app_assoc.
  rewrite firstn_repeat_app.
  replace (S j) with (j + 1)%nat at 1 by lia.
  rewrite <- skipn_skipn_add, skipn_repeat_app.
  cbn [repeat app skipn Nat.sub]. now rewrite Nat.sub_0_r.
Qed.

(** C6.  Padding sentinel.  In [decodeArray], once the check of the output
    alignment has passed, a word read by the padding loop (the loop that
    runs while the input cursor is not aligned) that differs from
    CookiePadder aborts the call with StreamCorrupt.  So a stream of
    [encodeArray] in which a padding word was replaced by another value
    makes [decodeArray] fail: with StreamCorrupt when the output is
    aligned, and with BadOutputAlignment, thrown before the padding is
    read, when it is not. *)
Theorem padding_sentinel
  (pack unpack : list Z -> Z -> list Z) (inp outbuf dst : list Z)
  (addr in_addr out_addr : Z) (j : nat) (v : Z) :
  pack_contract pack ->
  valid_length (Z.of_nat (length inp)) ->
  Forall is_u32 inp ->
  (length (encoded_stream pack inp addr) <= length outbuf)%nat ->
  in_addr mod 4 = addr mod 4 ->
  (1 <= j <= pad_count (addr + 1))%nat ->
  v <> CookiePadder ->
  (forall L k rest,
     out_addr mod 4 = 0 ->
     (k < pad_count (in_addr + 1))%nat ->
     decodeArray unpack (L :: repeat CookiePadder k ++ v :: rest)
                 in_addr dst out_addr
     = (Err StreamCorrupt, mkState (v :: rest) (1 + k) dst 0 []))
  /\ exists n st e st',
       encodeArray pack inp outbuf addr = (Ok n, st)
       /\ decodeArray unpack (mutate j v (s_outbuf st)) in_addr dst out_addr
          = (Err e, st')
       /\ (out_addr mod 4 = 0 -> e = StreamCorrupt)
       /\ (out_addr mod 4 <> 0 -> e = BadOutputAlignment).
Proof.
  intros Hp Hv Hu Hroom Hin Hj Hne. split.
  - intros L k rest Ho Hk. now apply decodeArray_bad_padding.
  - pose proof (encodeArray_ok pack Hp inp outbuf addr Hv Hu Hroom) as He.
    cbv zeta in He. eexists _, _. 
    assert (Hpc : pad_count (in_addr + 1) = pad_count (addr + 1)).
    { unfold pad_count. f_equal. Z.div_mod_to_equations. lia. }
    destruct (Z.eq_dec (out_addr mod 4) 0) as [Ho|Ho].
    + eexists _, _. split; [exact He|]. cbn [s_outbuf].
      unfold encoded_stream. cbn [app]. rewrite <- app_assoc.
      rewrite mutate_padding by exact Hj.
      split; [|split; [reflexivity|contradiction]].
      apply decodeArray_bad_padding; [exact Ho|lia|exact Hne].
    + eexists _, _. split; [exact He|]. cbn [s_outbuf].
      unfold encoded_stream. cbn [app]. rewrite <- app_assoc.
      rewrite mutate_padding by exact Hj.
      split; [|split; [contradiction|reflexivity]].
      now apply decodeArray_bad_output.
Qed.

Lemma padding_sentinel_witness :
  (forall L k rest,
     0 mod 4 = 0 ->
     (k < pad_count (0 + 1))%nat ->
     decodeArray ref_unpack (L :: repeat CookiePadder k ++ 0 :: rest)
                 0 sample_dst 0
     = (Err StreamCorrupt, mkState (0 :: rest) (1 + k) sample_dst 0 []))
  /\ exists n st e st',
       encodeArray ref_pack sample_input sample_outbuf 0 = (Ok n, st)
       /\ decodeArray ref_unpack (mutate 2 0 (s_outbuf st)) 0 sample_dst 0
          = (Err e, st')
       /\ (0 mod 4 = 0 -> e = StreamCorrupt)
       /\ (0 mod 4 <> 0 -> e = BadOutputAlignment).
Proof.
  apply (padding_sentinel ref_pack ref_unpack sample_input sample_outbuf
           sample_dst 0 0 0 2 0).
  - exact ref_pack_length.
  - split; reflexivity.
  - apply forallb_is_u32. reflexivity.
  - apply Nat.leb_le. vm_compute. reflexivity.
  - reflexivity.
  - vm_compute. lia.
  - discriminate.
Defined.

(** C7 (as amended).  Length prefix: the first word stored is the length
    taken modulo 2^32, whatever the values and the size of the stream; it
    is the length L itself as long as L < 2^32. *)
Theorem length_prefix_word
  (pack : list Z -> Z -> list Z) (inp outbuf : list Z) (addr : Z) :
  pack_contract pack ->
  valid_length (Z.of_nat (length inp)) ->
  Forall is_u32 inp ->
  (length (encoded_stream pack inp addr) <= length outbuf)%nat ->
  exists n st,
    encodeArray pack inp outbuf addr = (Ok n, st)
    /\ nth_error (s_outbuf st) 0 = Some (Z.of_nat (length inp) mod 2 ^ 32)
    /\ (Z.of_nat (length inp) < 2 ^ 32 ->
        nth_error (s_outbuf st) 0 = Some (Z.of_nat (length inp))).
Proof.
  intros Hp Hv Hu Hroom.
  pose proof (encodeArray_ok pack Hp inp outbuf addr Hv Hu Hroom) as He.
  cbv zeta in He. eexists _, _. split; [exact He|]. cbn [s_outbuf].
  unfold encoded_stream. cbn [app nth_error]. unfold wrap32.
  split; [reflexivity|]. intros Hlt.
  now rewrite Z.mod_small by lia.
Qed.

Lemma length_prefix_word_witness :
  exists n st,
    encodeArray ref_pack sample_input sample_outbuf 0 = (Ok n, st)
    /\ nth_error (s_outbuf st) 0 = Some (Z.of_nat (length sample_input) mod 2 ^ 32)
    /\ (Z.of_nat (length sample_input) < 2 ^ 32 ->
        nth_error (s_outbuf st) 0 = Some (Z.of_nat (length sample_input))).
Proof.
  apply (length_prefix_word ref_pack sample_input sample_outbuf 0).
  - exact ref_pack_length.
  - split; reflexivity.
  - apply forallb_is_u32. reflexivity.
  - apply Nat.leb_le. vm_compute. reflexivity.
Defined.

(** C7, the claim as stated fails: at a length of 2^32 the first word
    stored is 0. *)
Lemma length_prefix_wraps_at_2_32 :
  valid_length (Z.of_nat (length huge_input))
  /\ Z.of_nat (length huge_input) = 2 ^ 32
  /\ exists n st,
       encodeArray ref_pack huge_input huge_outbuf 0 = (Ok n, st)
       /\ nth_error (s_outbuf st) 0 = Some 0.
Proof.
  split; [exact huge_input_valid|]. split; [exact huge_input_length|].
  destruct (encodeArray_at_2_32 huge_input huge_outbuf huge_input_length
              huge_input_u32 ltac:(rewrite huge_outbuf_length; lia))
    as (n & st & rest & He & Hs & _).
  exists n, st. split; [exact He|]. now rewrite Hs.
Qed.

(** C8.  Payload alignment: from an aligned output array, [encodeArray]
    calls the pack kernel once per miniblock of the input, in order; the
    offset it hands to the kernel is where the payload of that miniblock
    lies in the stream (the first of a block being where the payload of
    the block begins), and every such offset is a multiple of 4 words. *)
Theorem payload_alignment
  (pack : list Z -> Z -> list Z) (inp outbuf : list Z) (addr : Z) :
  pack_contract pack ->
  valid_length (Z.of_nat (length inp)) ->
  Forall is_u32 inp ->
  addr mod 4 = 0 ->
  (length (encoded_stream pack inp addr) <= length outbuf)%nat ->
  exists n st,
    encodeArray pack inp outbuf addr = (Ok n, st)
    /\ s_calls st = stream_calls 4 (blocks inp)
    /\ length (s_calls st) = (length inp / 128)%nat
    /\ Forall2 (payload_at pack (s_outbuf st)) (s_calls st) (miniblocks_of inp)
    /\ Forall aligned_call (s_calls st).
Proof.
  intros Hp [Hpos Hmod] Hu Ha Hroom.
  pose proof (encodeArray_ok pack Hp inp outbuf addr (conj Hpos Hmod) Hu Hroom) as He.
  cbv zeta in He. eexists _, _. split; [exact He|]. cbn [s_calls].
  assert (Hpc : pad_count (addr + 1) = 3%nat).
  { unfold pad_count. replace ((- (addr + 1)) mod 4) with 3; [reflexivity|].
    Z.div_mod_to_equations. lia. }
  assert (Hm : (length inp mod 128 = 0)%nat)
    by (apply Nat2Z.inj; rewrite Nat2Z.inj_mod; exact Hmod).
  rewrite Hpc. cbn [Nat.add s_outbuf]. split; [reflexivity|]. split; [|split].
  - unfold blocks. apply stream_calls_length; [lia|exact Hm].
  - unfold encoded_stream. rewrite Hpc.
    rewrite <- (miniblocks_of_chunks (length inp) inp (le_n _) Hm).
    set (pre := [wrap32 (Z.of_nat (length inp)); CookiePadder; CookiePadder;
                 CookiePadder]).
    change 4%nat with (length pre).
    change (wrap32 (Z.of_nat (length inp)) :: repeat CookiePadder 3
            ++ concat (map (enc_frame pack) (blocks inp)))
      with (pre ++ concat (map (enc_frame pack) (blocks inp))).
    rewrite <- app_assoc.
    apply (stream_payloads_at pack Hp). now apply chunks_Forall.
  - apply stream_calls_aligned; [reflexivity|].
    now apply chunks_Forall.
Qed.

Lemma payload_alignment_witness :
  exists n st,
    encodeArray ref_pack sample_input sample_outbuf 0 = (Ok n, st)
    /\ s_calls st = stream_calls 4 (blocks sample_input)
    /\ length (s_calls st) = (length sample_input / 128)%nat
    /\ Forall2 (payload_at ref_pack (s_outbuf st)) (s_calls st)
               (miniblocks_of sample_input)
    /\ Forall aligned_call (s_calls st).
Proof.
  apply (payload_alignment ref_pack sample_input sample_outbuf 0).
  - exact ref_pack_length.
  - split; reflexivity.
  - apply forallb_is_u32. reflexivity.
  - reflexivity.
  - apply Nat.leb_le. vm_compute. reflexivity.
Defined.

(** C9 (as amended).  Exact consumption: for a length below 2^32 the
    cursor [decodeArray] returns is the start of the stream plus the
    [nvalue] that [encodeArray] reported. *)
Theorem decode_consumes_stream
  (pack unpack : list Z -> Z -> list Z) (inp outbuf dst : list Z)
  (addr in_addr out_addr : Z) :
  pack_contract pack -> unpack_contract pack unpack ->
  valid_length (Z.of_nat (length inp)) ->
  Z.of_nat (length inp) < 2 ^ 32 ->
  Forall is_u32 inp ->
  addr mod 4 = 0 -> in_addr mod 4 = 0 -> out_addr mod 4 = 0 ->
  (length (encoded_stream pack inp addr) <= length outbuf)%nat ->
  (length inp <= length dst)%nat ->
  exists n st nvalue st',
    encodeArray pack inp outbuf addr = (Ok n, st)
    /\ decodeArray unpack (s_outbuf st) in_addr dst out_addr
       = (Ok (n, nvalue), st')
    /\ s_inoff st' = n
    /\ s_in st' = skipn n (s_outbuf st).
Proof.
  intros Hp Hup Hv Hlt Hu Ha Hi Ho Hroom Hdst.
  pose proof (encodeArray_ok pack Hp inp outbuf addr Hv Hu Hroom) as He.
  pose proof (decodeArray_ok pack unpack Hp Hup inp
                (skipn (length (encoded_stream pack inp addr)) outbuf) dst
                addr in_addr out_addr Hv Hlt Hu ltac:(congruence) Ho Hdst) as Hd.
  cbv zeta in He, Hd.
  eexists _, _, _, _. split; [exact He|]. split; [exact Hd|].
  cbn [s_inoff s_in s_outbuf]. split; [reflexivity|].
  now rewrite skipn_exact.
Qed.

Lemma decode_consumes_stream_witness :
  exists n st nvalue st',
    encodeArray ref_pack sample_input sample_outbuf 0 = (Ok n, st)
    /\ decodeArray ref_unpack (s_outbuf st) 0 sample_dst 0
       = (Ok (n, nvalue), st')
    /\ s_inoff st' = n
    /\ s_in st' = skipn n (s_outbuf st).
Proof.
  apply (decode_consumes_stream ref_pack ref_unpack sample_input sample_outbuf
           sample_dst 0 0 0).
  - exact ref_pack_length.
  - exact ref_unpack_pack.
  - split; reflexivity.
  - reflexivity.
  - apply forallb_is_u32. reflexivity.
  - reflexivity.
  - reflexivity.
  - reflexivity.
  - apply Nat.leb_le. vm_compute. reflexivity.
  - apply Nat.leb_le. reflexivity.
Defined.

(** C9, the claim as stated fails: at a length of 2^32 [encodeArray]
    reports at least 8 words and [decodeArray] returns the cursor 4 words
    after the start. *)
Lemma consumption_short_at_2_32 :
  valid_length (Z.of_nat (length huge_input))
  /\ exists n st st',
       encodeArray ref_pack huge_input huge_outbuf 0 = (Ok n, st)
       /\ decodeArray ref_unpack (s_outbuf st) 0 huge_dst 0
          = (Ok (4%nat, 0%nat), st')
       /\ (4 <> n)%nat.
Proof.
  split; [exact huge_input_valid|].
  destruct (encodeArray_at_2_32 huge_input huge_outbuf huge_input_length
              huge_input_u32 ltac:(rewrite huge_outbuf_length; lia))
    as (n & st & rest & He & Hs & Hn).
  exists n, st. eexists. split; [exact He|].
  rewrite Hs. split; [apply decodeArray_zero_length|lia].
Qed.

(** C10.  Padding count: after the length, [encodeArray] stores
    [pad_count (addr + 1)] words CookiePadder, at most three, and the
    header of the first block follows them; from an aligned array they are
    three, at the offsets 1, 2, 3, and the first header starts at offset
    4. *)
Theorem padding_count
  (pack : list Z -> Z -> list Z) (inp outbuf : list Z) (addr : Z) :
  pack_contract pack ->
  valid_length (Z.of_nat (length inp)) ->
  Forall is_u32 inp ->
  (length (encoded_stream pack inp addr) <= length outbuf)%nat ->
  exists n st,
    encodeArray pack inp outbuf addr = (Ok n, st)
    /\ let p := pad_count (addr + 1) in
       (p <= 3)%nat
       /\ firstn (1 + p) (s_outbuf st)
          = wrap32 (Z.of_nat (length inp)) :: repeat CookiePadder p
       /\ firstn 4 (skipn (1 + p) (s_outbuf st))
          = frame_header (firstn 2048 inp)
       /\ (addr mod 4 = 0 ->
           p = 3%nat
           /\ firstn 4 (s_outbuf st)
              = [wrap32 (Z.of_nat (length inp));
                 CookiePadder; CookiePadder; CookiePadder]
           /\ firstn 4 (skipn 4 (s_outbuf st))
              = frame_header (firstn 2048 inp)).
Proof.
  intros Hp Hv Hu Hroom.
  pose proof (encodeArray_ok pack Hp inp outbuf addr Hv Hu Hroom) as He.
  cbv zeta in He. eexists _, _. split; [exact He|]. cbn [s_outbuf]. cbv zeta.
  assert (Hpos : (0 < length inp)%nat) by (destruct Hv; lia).
  assert (H1 : firstn (1 + pad_count (addr + 1))
                 (encoded_stream pack inp addr
                  ++ skipn (length (encoded_stream pack inp addr)) outbuf)
               = wrap32 (Z.of_nat (length inp))
                 :: repeat CookiePadder (pad_count (addr + 1))).
  { unfold encoded_stream. cbn [Nat.add firstn app]. f_equal.
    rewrite <- app_assoc.
    rewrite <- (repeat_length CookiePadder (pad_count (addr + 1))) at 1.
    apply firstn_exact. }
  assert (H2 : firstn 4 (skipn (1 + pad_count (addr + 1))
                 (encoded_stream pack inp addr
                  ++ skipn (length (encoded_stream pack inp addr)) outbuf))
               = frame_header (firstn 2048 inp)).
  { unfold encoded_stream. cbn [Nat.add skipn app].
    rewrite <- app_assoc.
    rewrite <- (repeat_length CookiePadder (pad_count (addr + 1))) at 1.
    rewrite skipn_exact, blocks_cons by exact Hpos.
    cbn [map concat]. unfold enc_frame at 1. rewrite <- !app_assoc.
    change 4%nat with (length (frame_header (firstn 2048 inp))).
    apply firstn_exact. }
  split; [apply pad_count_le|]. split; [exact H1|]. split; [exact H2|].
  intros Ha.
  assert (Hpc : pad_count (addr + 1) = 3%nat).
  { unfold pad_count. replace ((- (addr + 1)) mod 4) with 3; [reflexivity|].
    Z.div_mod_to_equations. lia. }
  rewrite Hpc in H1, H2. split; [exact Hpc|]. split; [exact H1|exact H2].
Qed.

Lemma padding_count_witness :
  exists n st,
    encodeArray ref_pack sample_input sample_outbuf 0 = (Ok n, st)
    /\ let p := pad_count (0 + 1) in
       (p <= 3)%nat
       /\ firstn (1 + p) (s_outbuf st)
          = wrap32 (Z.of_nat (length sample_input)) :: repeat CookiePadder p
       /\ firstn 4 (skipn (1 + p) (s_outbuf st))
          = frame_header (firstn 2048 sample_input)
       /\ (0 mod 4 = 0 ->
           p = 3%nat
           /\ firstn 4 (s_outbuf st)
              = [wrap32 (Z.of_nat (length sample_input));
                 CookiePadder; CookiePadder; CookiePadder]
           /\ firstn 4 (skipn 4 (s_outbuf st))
              = frame_header (firstn 2048 sample_input)).
Proof.
  apply (padding_count ref_pack sample_input sample_outbuf 0).
  - exact ref_pack_length.
  - split; reflexivity.
  - apply forallb_is_u32. reflexivity.
  - apply Nat.leb_le. vm_compute. reflexivity.
Defined.

(** * Further properties *)

(** ** What every run of the decoder keeps

    These lemmas follow [decodeArray] on an arbitrary stream and with an
    arbitrary unpack kernel, whatever the outcome. *)

Lemma wrap32_words_mod4 (bit : Z) :
  (Z.to_nat (wrap32 (MiniBlockSize / 32 * bit)) mod 4 = 0)%nat.
Proof.
  unfold wrap32. change (MiniBlockSize / 32) with 4.
  apply Nat2Z.inj. rewrite Nat2Z.inj_mod.
  change (2 ^ 32) with 4294967296.
  pose proof (Z.mod_pos_bound (4 * bit) 4294967296 ltac:(lia)).
  rewrite Z2Nat.id by lia. change (Z.of_nat 4) with 4. change (Z.of_nat 0) with 0.
  Z.div_mod_to_equations. lia.
Qed.

Section DecoderRuns.

Variable unpack : list Z -> Z -> list Z.
Variable in_addr : Z.

Lemma unpack_step_run (bit : Z) (off n : nat) s o s' :
  (s0 <- get ;;
   log_call (s_inoff s0) bit ;;
   src <- load_in n ;;
   store_out off (unpack src bit) ;;
   advance_in n) s = (o, s') ->
  s_calls s' = s_calls s ++ [(s_inoff s, bit)]
  /\ s_out s' = s_out s
  /\ (forall u, o = Ok u -> s_inoff s' = (s_inoff s + n)%nat).
Proof.
  rewrite bind_get. unfold bind, log_call, load_in, store_out, advance_in.
  destruct s as [sin io ob ou c].
  cbn [s_in s_inoff s_outbuf s_out s_calls].
  destruct (n <=? length sin)%nat eqn:En;
    cbn [s_in s_inoff s_outbuf s_out s_calls].
  - destruct (store _ _ _); cbn [s_in s_inoff s_outbuf s_out s_calls];
      try rewrite En; intros H; injection H as <- <-;
      cbn [s_in s_inoff s_outbuf s_out s_calls]; repeat split; discriminate.
  - intros H. injection H as <- <-. cbn [s_in s_inoff s_outbuf s_out s_calls].
    repeat split. discriminate.
Qed.

Lemma unpack_loop_run (Bs : list Z) (n : nat) : forall i s o s',
  aligned_run in_addr s_inoff s ->
  for_range i n (fun i =>
    s <- get ;;
    log_call (s_inoff s) (nth i Bs 0) ;;
    src <- load_in (Z.to_nat (wrap32 (MiniBlockSize / 32 * nth i Bs 0))) ;;
    store_out (i * Z.to_nat MiniBlockSize) (unpack src (nth i Bs 0)) ;;
    advance_in (Z.to_nat (wrap32 (MiniBlockSize / 32 * nth i Bs 0)))) s
  = (o, s') ->
  Forall (call_aligned_at in_addr) (s_calls s')
  /\ s_out s' = s_out s
  /\ (forall u, o = Ok u ->
      aligned_run in_addr s_inoff s' /\ length (s_calls s') = (length (s_calls s) + n)%nat).
Proof.
  induction n as [|n IH]; intros i s o s' [Hal Hc] H.
  - cbn [for_range] in H. injection H as <- <-.
    repeat split; try assumption. lia.
  - cbn [for_range] in H. unfold bind at 1 in H.
    match type of H with
    | context [match ?c s with _ => _ end] => destruct (c s) as [[[]|e] s1] eqn:E1
    end.
    + apply unpack_step_run in E1 as (Hc1 & Ho1 & Hi1).
      specialize (Hi1 tt eq_refl).
      assert (A1 : aligned_run in_addr s_inoff s1).
      { split.
        - rewrite Hi1, Nat2Z.inj_add.
          pose proof (wrap32_words_mod4 (nth i Bs 0)) as Hm.
          apply (f_equal Z.of_nat) in Hm. rewrite Nat2Z.inj_mod in Hm.
          change (Z.of_nat 4) with 4 in Hm. change (Z.of_nat 0) with 0 in Hm.
          Z.div_mod_to_equations. lia.
        - rewrite Hc1. apply Forall_app. split; [exact Hc|].
          constructor; [exact Hal|constructor]. }
      destruct (IH _ _ _ _ A1 H) as (H1 & H2 & H3).
      split; [exact H1|]. split; [congruence|].
      intros u Hu. destruct (H3 u Hu) as [H4 H5]. split; [exact H4|].
      rewrite H5, Hc1, length_app. cbn [length]. lia.
    + injection H as <- <-.
      apply unpack_step_run in E1 as (Hc1 & Ho1 & _).
      split; [|split; [exact Ho1|discriminate]].
      rewrite Hc1. apply Forall_app. split; [exact Hc|].
      constructor; [exact Hal|constructor].
Qed.

Lemma read_header_run s o s' :
  read_header s = (o, s') ->
  s_calls s' = s_calls s /\ s_out s' = s_out s
  /\ (forall Bs, o = Ok Bs -> s_inoff s' = (s_inoff s + 4)%nat).
Proof.
  unfold read_header, bind, peek_in, advance_in, ret.
  destruct s as [sin io ob ou c]. cbn [s_in s_inoff s_outbuf s_out s_calls].
  destruct sin as [|w0 sin]; [intros H; injection H as <- <-; repeat split; discriminate|].
  cbn [length Nat.leb skipn s_in s_inoff s_outbuf s_out s_calls].
  destruct sin as [|w1 sin]; [intros H; injection H as <- <-; repeat split; discriminate|].
  cbn [length Nat.leb skipn s_in s_inoff s_outbuf s_out s_calls].
  destruct sin as [|w2 sin]; [intros H; injection H as <- <-; repeat split; discriminate|].
  cbn [length Nat.leb skipn s_in s_inoff s_outbuf s_out s_calls].
  destruct sin as [|w3 sin]; [intros H; injection H as <- <-; repeat split; discriminate|].
  cbn [length Nat.leb skipn s_in s_inoff s_outbuf s_out s_calls].
  intros H. injection H as <- <-. cbn [s_in s_inoff s_outbuf s_out s_calls].
  repeat split. intros _ _. lia.
Qed.

Lemma decode_block_run (h : nat) s o s' :
  aligned_run in_addr s_inoff s ->
  decode_block unpack h s = (o, s') ->
  Forall (call_aligned_at in_addr) (s_calls s')
  /\ s_out s' = s_out s
  /\ (forall u, o = Ok u ->
      aligned_run in_addr s_inoff s' /\ length (s_calls s') = (length (s_calls s) + h)%nat).
Proof.
  intros [Hal Hc] H. unfold decode_block in H. unfold bind at 1 in H.
  destruct (read_header s) as [[Bs|e] s1] eqn:E1.
  - apply read_header_run in E1 as (Hc1 & Ho1 & Hi1).
    specialize (Hi1 Bs eq_refl).
    assert (A1 : aligned_run in_addr s_inoff s1).
    { split; [|now rewrite Hc1].
      rewrite Hi1, Nat2Z.inj_add. change (Z.of_nat 4) with 4.
      Z.div_mod_to_equations. lia. }
    cbv zeta in H.
    destruct (unpack_loop_run Bs h 0 s1 o s' A1 H) as (H1 & H2 & H3).
    split; [exact H1|]. split; [congruence|].
    intros u Hu. destruct (H3 u Hu) as [H4 H5]. split; [exact H4|]. congruence.
  - injection H as <- <-. apply read_header_run in E1 as (Hc1 & Ho1 & _).
    split; [now rewrite Hc1|]. split; [exact Ho1|discriminate].
Qed.

Lemma skip_padding_run (fuel : nat) : forall s o s',
  skip_padding fuel in_addr s = (o, s') ->
  s_calls s' = s_calls s /\ s_out s' = s_out s
  /\ (forall u, o = Ok u -> (in_addr + Z.of_nat (s_inoff s')) mod 4 = 0).
Proof.
  induction fuel as [|fuel IH]; intros s o s' H; cbn [skip_padding] in H;
    rewrite bind_get in H;
    destruct (needPaddingTo128Bits (in_addr + Z.of_nat (s_inoff s))) eqn:En;
    try (injection H as <- <-; repeat split; try discriminate;
         intros _ _; unfold needPaddingTo128Bits in En;
         apply negb_false_iff, Z.eqb_eq in En; exact En).
  unfold bind at 1 in H. unfold peek_in at 1 in H.
  destruct s as [sin io ob ou c]. cbn [s_in s_inoff s_outbuf s_out s_calls] in *.
  destruct sin as [|w sin]; [injection H as <- <-; repeat split; discriminate|].
  destruct (w =? CookiePadder).
  - cbn [check] in H. unfold bind at 1 in H. unfold ret at 1 in H.
    unfold bind at 1 in H. unfold advance_in at 1 in H.
    cbn [s_in length Nat.leb skipn s_inoff s_outbuf s_out s_calls] in H.
    apply IH in H. cbn [s_in s_inoff s_outbuf s_out s_calls] in H. exact H.
  - cbn [check] in H. unfold bind at 1 in H. unfold fail at 1 in H.
    injection H as <- <-. repeat split; discriminate.
Qed.

Lemma decode_full_blocks_run (initout : nat) (L : Z) (fuel : nat) :
  forall s o s',
  0 <= L < 2 ^ 32 ->
  aligned_run in_addr s_inoff s ->
  (initout <= s_out s)%nat ->
  ((s_out s - initout) mod 2048 = 0)%nat ->
  decode_full_blocks unpack fuel initout L s = (o, s') ->
  Forall (call_aligned_at in_addr) (s_calls s')
  /\ (forall u, o = Ok u ->
      aligned_run in_addr s_inoff s'
      /\ Z.of_nat (s_out s')
         = Z.max (Z.of_nat (s_out s)) (Z.of_nat initout + L / 2048 * 2048)
      /\ Z.of_nat (length (s_calls s'))
         = Z.of_nat (length (s_calls s))
           + (Z.of_nat (s_out s') - Z.of_nat (s_out s)) / 128).
Proof.
  induction fuel as [|fuel IH]; intros s o s' HL A Hio Hm H;
    rewrite decode_full_blocks_eq, block_loop_bound in H by exact HL;
    destruct (Z.ltb_spec (Z.of_nat (s_out s)) (Z.of_nat initout + L / 2048 * 2048))
      as [Hlt|Hge].
  - injection H as <- <-. split; [apply A|discriminate].
  - injection H as <- <-. split; [apply A|]. intros _ _.
    split; [exact A|]. split; [lia|].
    rewrite Z.sub_diag. change (0 / 128) with 0. lia.
  - unfold bind at 1 in H.
    destruct (decode_block unpack 16 s) as [[[]|e] s1] eqn:E1.
    + destruct (decode_block_run 16 s _ s1 A E1) as (H1 & H2 & H3).
      destruct (H3 tt eq_refl) as [A1 Hn1].
      unfold bind at 1 in H.
      destruct (advance_out 2048 s1) as [[[]|e] s2] eqn:E2.
      * assert (Hs2 : s_out s2 = (s_out s1 + 2048)%nat
                      /\ s_inoff s2 = s_inoff s1 /\ s_calls s2 = s_calls s1).
        { unfold advance_out in E2.
          destruct (_ <=? _)%nat; [|discriminate E2].
          injection E2 as <-. cbn [s_out s_inoff s_calls]. repeat split. }
        destruct Hs2 as (Ho2 & Hi2 & Hc2).
        assert (A2 : aligned_run in_addr s_inoff s2) by (split; [rewrite Hi2|rewrite Hc2]; apply A1).
        assert (Hd : exists d, (s_out s - initout = 2048 * d)%nat)
          by (apply Nat.Div0.mod_divides; exact Hm).
        destruct Hd as [d Hd].
        apply IH in H; [ | exact HL | exact A2 | lia | ].
        -- destruct H as [Hf Hk]. split; [exact Hf|].
           intros u Hu. destruct (Hk u Hu) as (B1 & B2 & B3).
           split; [exact B1|].
           assert (Hle : Z.of_nat (s_out s2) <= Z.of_nat initout + L / 2048 * 2048).
           { rewrite Ho2, H2. Z.div_mod_to_equations. lia. }
           split; [lia|].
           rewrite B3, Hc2, Hn1, B2, Ho2, H2.
           rewrite !Z.max_r by lia.
           rewrite Nat2Z.inj_add. change (Z.of_nat 16) with 16.
           replace (Z.of_nat initout + L / 2048 * 2048 - Z.of_nat (s_out s))
             with ((Z.of_nat initout + L / 2048 * 2048
                    - Z.of_nat (s_out s + 2048)) + 16 * 128) by lia.
           rewrite Z.div_add by lia. lia.
        -- rewrite Ho2, H2.
           replace (s_out s + 2048 - initout)%nat with ((d + 1) * 2048)%nat by lia.
           apply Nat.Div0.mod_mul.
      * injection H as <- <-.
        assert (Hc2 : s_calls s2 = s_calls s1).
        { unfold advance_out in E2. destruct (_ <=? _)%nat; [discriminate E2|].
          now injection E2 as _ <-. }
        split; [now rewrite Hc2|discriminate].
    + injection H as <- <-.
      destruct (decode_block_run 16 s _ s1 A E1) as (H1 & _).
      split; [exact H1|discriminate].
  - injection H as <- <-. split; [apply A|]. intros _ _.
    split; [exact A|]. split; [lia|].
    rewrite Z.sub_diag. change (0 / 128) with 0. lia.
Qed.

Lemma decode_trailing_run (initout : nat) (L : Z) s o s' :
  aligned_run in_addr s_inoff s ->
  decode_trailing unpack initout L s = (o, s') ->
  Forall (call_aligned_at in_addr) (s_calls s')
  /\ (forall u, o = Ok u ->
      aligned_run in_addr s_inoff s'
      /\ ((Z.of_nat initout + L <= Z.of_nat (s_out s) /\ s' = s)
          \/ (Z.of_nat (s_out s) < Z.of_nat initout + L
              /\ Z.of_nat (s_out s') = Z.of_nat initout + L
              /\ Z.of_nat (s_out s')
                 = Z.of_nat (s_out s)
                   + (Z.of_nat initout + L - Z.of_nat (s_out s)) / 128 * 128
              /\ Z.of_nat (length (s_calls s'))
                 = Z.of_nat (length (s_calls s))
                   + (Z.of_nat initout + L - Z.of_nat (s_out s)) / 128))).
Proof.
  intros A H. unfold decode_trailing in H. rewrite bind_get in H.
  destruct (Z.ltb_spec (Z.of_nat (s_out s)) (Z.of_nat initout + L)) as [Hlt|Hge].
  2:{ injection H as <- <-. split; [apply A|]. intros _ _.
      split; [exact A|]. left. split; [lia|reflexivity]. }
  cbv zeta in H. change MiniBlockSize with 128 in H.
  set (h := Z.to_nat ((Z.of_nat initout + L - Z.of_nat (s_out s)) / 128)) in H.
  assert (Hh : Z.of_nat h = (Z.of_nat initout + L - Z.of_nat (s_out s)) / 128).
  { unfold h. rewrite Z2Nat.id; [reflexivity|]. apply Z.div_pos; lia. }
  unfold bind at 1 in H.
  destruct (decode_block unpack h s) as [[[]|e] s1] eqn:E1.
  - destruct (decode_block_run h s _ s1 A E1) as (H1 & H2 & H3).
    destruct (H3 tt eq_refl) as [A1 Hn1].
    unfold bind at 1 in H.
    destruct (advance_out (h * Z.to_nat 128) s1) as [[[]|e] s2] eqn:E2.
    + assert (Hs2 : s_out s2 = (s_out s1 + h * Z.to_nat 128)%nat
                    /\ s_inoff s2 = s_inoff s1 /\ s_calls s2 = s_calls s1).
      { unfold advance_out in E2.
        destruct (_ <=? _)%nat; [|discriminate E2].
        injection E2 as <-. cbn [s_out s_inoff s_calls]. repeat split. }
      destruct Hs2 as (Ho2 & Hi2 & Hc2).
      assert (A2 : aligned_run in_addr s_inoff s2) by (split; [rewrite Hi2|rewrite Hc2]; apply A1).
      rewrite bind_get in H. unfold check in H.
      destruct (Z.eqb_spec (Z.of_nat (s_out s2)) (Z.of_nat initout + L)) as [He|Hne].
      * injection H as <- <-. split; [apply A2|]. intros _ _.
        split; [exact A2|]. right. split; [exact Hlt|]. split; [exact He|].
        rewrite Hc2, Hn1, Ho2, H2, !Nat2Z.inj_add, Nat2Z.inj_mul, Hh.
        change (Z.of_nat (Z.to_nat 128)) with 128. split; reflexivity.
      * injection H as <- <-. split; [apply A2|discriminate].
    + injection H as <- <-.
      assert (Hc2 : s_calls s2 = s_calls s1).
      { unfold advance_out in E2. destruct (_ <=? _)%nat; [discriminate E2|].
        now injection E2 as _ <-. }
      split; [now rewrite Hc2|discriminate].
  - injection H as <- <-.
    destruct (decode_block_run h s _ s1 A E1) as (H1 & _).
    split; [exact H1|discriminate].
Qed.

(** Every run of [decodeArray] on a stream whose prefix is a 32-bit word. *)
Lemma decodeArray_run (L : Z) (inbuf dst : list Z) (out_addr : Z) o st :
  is_u32 L ->
  decodeArray unpack (L :: inbuf) in_addr dst out_addr = (o, st) ->
  Forall (call_aligned_at in_addr) (s_calls st)
  /\ (forall pos nv, o = Ok (pos, nv) ->
      out_addr mod 4 = 0
      /\ pos = s_inoff st /\ nv = s_out st
      /\ (in_addr + Z.of_nat pos) mod 4 = 0
      /\ Z.of_nat nv = L
      /\ L mod 128 = 0
      /\ Z.of_nat (length (s_calls st)) = L / 128).
Proof.
  intros HL H. unfold decodeArray, decodeArray_body in H.
  unfold bind at 1 in H. unfold peek_in at 1 in H. cbn [s_in] in H.
  unfold bind at 1 in H. unfold advance_in at 1 in H.
  cbn [s_in s_inoff s_outbuf s_out s_calls length Nat.leb skipn Nat.add] in H.
  rewrite bind_get in H. cbn [s_out] in H.
  change (Z.of_nat 0) with 0 in H. rewrite Z.add_0_r in H.
  unfold needPaddingTo128Bits at 1 in H. rewrite negb_involutive in H.
  destruct (Z.eqb_spec (out_addr mod 4) 0) as [Hout|Hout].
  2:{ cbn [check] in H. unfold bind at 1 in H. unfold fail at 1 in H.
      injection H as <- <-. split; [constructor|discriminate]. }
  cbn [check] in H. unfold bind at 1 in H. unfold ret at 1 in H.
  unfold bind at 1 in H.
  destruct (skip_padding 4 in_addr _) as [[[]|e] s1] eqn:E1.
  2:{ injection H as <- <-. apply skip_padding_run in E1 as (Hc & _).
      cbn [s_calls] in Hc. rewrite Hc. split; [constructor|discriminate]. }
  apply skip_padding_run in E1 as (Hc1 & Ho1 & Hi1).
  cbn [s_calls s_out] in Hc1, Ho1. specialize (Hi1 tt eq_refl).
  assert (A1 : aligned_run in_addr s_inoff s1) by (split; [exact Hi1|rewrite Hc1; constructor]).
  unfold bind at 1 in H.
  destruct (decode_full_blocks unpack _ 0 L s1) as [[[]|e] s2] eqn:E2.
  2:{ injection H as <- <-.
      apply decode_full_blocks_run in E2 as (Hf & _);
        [ | exact HL | exact A1 | lia | now rewrite Ho1 ].
      split; [exact Hf|discriminate]. }
  apply decode_full_blocks_run in E2 as (Hf2 & Hk2);
    [ | exact HL | exact A1 | lia | now rewrite Ho1 ].
  destruct (Hk2 tt eq_refl) as (A2 & Ho2 & Hn2).
  rewrite Ho1, Hc1 in Hn2. rewrite Ho1 in Ho2. cbn [length] in Hn2.
  change (Z.of_nat 0) with 0 in Ho2, Hn2.
  unfold bind at 1 in H.
  destruct (decode_trailing unpack 0 L s2) as [[[]|e] s3] eqn:E3.
  2:{ injection H as <- <-.
      apply decode_trailing_run in E3 as (Hf & _); [|exact A2].
      split; [exact Hf|discriminate]. }
  apply decode_trailing_run in E3 as (Hf3 & Hk3); [|exact A2].
  destruct (Hk3 tt eq_refl) as (A3 & Hcase).
  rewrite bind_get in H. unfold ret in H. injection H as <- <-.
  split; [exact Hf3|]. intros pos nv Hpn. injection Hpn as <- <-.
  rewrite Nat.sub_0_r. change (Z.of_nat 0) with 0 in Hcase.
  unfold is_u32 in HL.
  split; [exact Hout|]. split; [reflexivity|]. split; [reflexivity|].
  split; [apply A3|].
  destruct Hcase as [[Hge ->]|(Hlt & He & Hs & Hn)].
  - assert (HLe : L = L / 2048 * 2048) by (Z.div_mod_to_equations; lia).
    split; [lia|]. split; [Z.div_mod_to_equations; lia|].
    rewrite Hn2. replace (Z.of_nat (s_out s2)) with L by lia.
    now rewrite Z.add_0_l, Z.sub_0_r.
  - assert (Hm : Z.of_nat (s_out s2) = L / 2048 * 2048).
    { rewrite Ho2, Z.add_0_l. apply Z.max_r. Z.div_mod_to_equations. lia. }
    rewrite Hm, Z.add_0_l in Hs, Hn. rewrite He, Z.add_0_l in Hs.
    split; [lia|]. split; [Z.div_mod_to_equations; lia|].
    rewrite Hn, Hn2, Hm, Z.add_0_l, Z.sub_0_r.
    Z.div_mod_to_equations. lia.
Qed.

End DecoderRuns.

(** ** The exceptions of the decoder *)

Section Raises.

Variable P : error -> Prop.
Hypothesis P_oob : P OutOfBounds.

Lemma ro_bind {A B} (c : M A) (f : A -> M B) :
  raises_only P c -> (forall a, raises_only P (f a)) -> raises_only P (bind c f).
Proof.
  intros Hc Hf s e s' H. apply bind_inv_err in H as [H|[a [s1 [_ H]]]].
  - exact (Hc _ _ _ H).
  - exact (Hf _ _ _ _ H).
Qed.

Lemma ro_ret {A} (a : A) : raises_only P (ret a).
Proof. intros s e s' H. discriminate H. Qed.

Lemma ro_get : raises_only P get.
Proof. intros s e s' H. discriminate H. Qed.

Lemma ro_check b e : P e -> raises_only P (check b e).
Proof.
  intros He s e' s' H. destruct b; [discriminate H|].
  unfold check, fail in H. now injection H as <- _.
Qed.

Lemma ro_peek_in : raises_only P peek_in.
Proof.
  intros s e s' H. unfold peek_in in H.
  destruct (s_in s); [now injection H as <- _|discriminate H].
Qed.

Lemma ro_advance_in n : raises_only P (advance_in n).
Proof.
  intros s e s' H. unfold advance_in in H.
  destruct (_ <=? _)%nat; [discriminate H|now injection H as <- _].
Qed.

Lemma ro_load_in n : raises_only P (load_in n).
Proof.
  intros s e s' H. unfold load_in in H.
  destruct (_ <=? _)%nat; [discriminate H|now injection H as <- _].
Qed.

Lemma ro_advance_out n : raises_only P (advance_out n).
Proof.
  intros s e s' H. unfold advance_out in H.
  destruct (_ <=? _)%nat; [discriminate H|now injection H as <- _].
Qed.

Lemma ro_store_out off ws : raises_only P (store_out off ws).
Proof.
  intros s e s' H. unfold store_out in H.
  destruct (store _ _ _); [discriminate H|now injection H as <- _].
Qed.

Lemma ro_log_call off b : raises_only P (log_call off b).
Proof. intros s e s' H. discriminate H. Qed.

Lemma ro_for_range body n : forall i,
  (forall j, raises_only P (body j)) -> raises_only P (for_range i n body).
Proof.
  induction n as [|n IH]; intros i Hb; cbn [for_range].
  - apply ro_ret.
  - apply ro_bind; [apply Hb|]. intros _. now apply IH.
Qed.

Lemma ro_read_header : raises_only P read_header.
Proof.
  unfold read_header.
  repeat first [ apply ro_bind; [|intros ?] | apply ro_peek_in
               | apply ro_advance_in | apply ro_ret ].
Qed.

Lemma ro_decode_block unpack h : raises_only P (decode_block unpack h).
Proof.
  unfold decode_block. apply ro_bind; [apply ro_read_header|]. intros Bs.
  apply ro_for_range. intros j.
  repeat first [ apply ro_bind; [|intros ?] | apply ro_get | apply ro_log_call
               | apply ro_load_in | apply ro_store_out | apply ro_advance_in ].
Qed.

Hypothesis P_loop : P LoopBound.

Lemma ro_decode_full_blocks unpack fuel initout L :
  raises_only P (decode_full_blocks unpack fuel initout L).
Proof.
  induction fuel as [|fuel IH]; cbn [decode_full_blocks];
    apply ro_bind; try apply ro_get; intros s;
    destruct (Z.of_nat (s_out s) <? _); try apply ro_ret.
  - intros s0 e s' H. now injection H as <- _.
  - apply ro_bind; [apply ro_decode_block|]. intros _.
    apply ro_bind; [apply ro_advance_out|]. intros _. exact IH.
Qed.

Hypothesis P_assert : P AssertionFailed.

Lemma ro_decode_trailing unpack initout L :
  raises_only P (decode_trailing unpack initout L).
Proof.
  unfold decode_trailing. apply ro_bind; [apply ro_get|]. intros s.
  destruct (Z.of_nat (s_out s) <? _); [|apply ro_ret].
  cbv zeta. apply ro_bind; [apply ro_decode_block|]. intros _.
  apply ro_bind; [apply ro_advance_out|]. intros _.
  apply ro_bind; [apply ro_get|]. intros s1. now apply ro_check.
Qed.

Hypothesis P_corrupt : P StreamCorrupt.

Lemma ro_skip_padding fuel in_addr : raises_only P (skip_padding fuel in_addr).
Proof.
  induction fuel as [|fuel IH]; cbn [skip_padding];
    apply ro_bind; try apply ro_get; intros s;
    destruct (needPaddingTo128Bits _); try apply ro_ret.
  - intros s0 e s' H. now injection H as <- _.
  - apply ro_bind; [apply ro_peek_in|]. intros w.
    apply ro_bind; [now apply ro_check|]. intros _.
    apply ro_bind; [apply ro_advance_in|]. intros _. exact IH.
Qed.

Hypothesis P_align : P BadOutputAlignment.

Lemma ro_decodeArray_body unpack in_addr out_addr :
  raises_only P (decodeArray_body unpack in_addr out_addr).
Proof.
  unfold decodeArray_body.
  apply ro_bind; [apply ro_peek_in|]. intros L.
  apply ro_bind; [apply ro_advance_in|]. intros _.
  apply ro_bind; [apply ro_get|]. intros s0.
  apply ro_bind; [now apply ro_check|]. intros _.
  apply ro_bind; [apply ro_skip_padding|]. intros _.
  cbv zeta.
  apply ro_bind; [apply ro_decode_full_blocks|]. intros _.
  apply ro_bind; [apply ro_decode_trailing|]. intros _.
  apply ro_bind; [apply ro_get|]. intros s1. apply ro_ret.
Qed.

End Raises.

(** ** What every run of the encoder keeps

    [encodeArray] on an arbitrary input, with an arbitrary pack kernel and
    from an arbitrary address, whatever the outcome. *)

Section EncoderRuns.

Variable pack : list Z -> Z -> list Z.
Variable out_addr : Z.

Lemma write_out_run (v : Z) s o s' :
  write_out v s = (o, s') ->
  s_calls s' = s_calls s
  /\ (forall u, o = Ok u -> s_out s' = S (s_out s)).
Proof.
  unfold write_out. destruct (store _ _ _); intros H; injection H as <- <-;
    cbn [s_calls s_out]; split; try reflexivity; discriminate.
Qed.

Lemma pack_step_run (m : list Z) (bit : Z) (n : nat) s o s' :
  (s0 <- get ;;
   log_call (s_out s0) bit ;;
   store_out 0 (pack m bit) ;;
   advance_out n) s = (o, s') ->
  s_calls s' = s_calls s ++ [(s_out s, bit)]
  /\ (forall u, o = Ok u -> s_out s' = (s_out s + n)%nat).
Proof.
  rewrite bind_get. unfold bind, log_call, store_out, advance_out.
  destruct s as [sin io ob ou c].
  cbn [s_in s_inoff s_outbuf s_out s_calls].
  destruct (store _ _ _); cbn [s_in s_inoff s_outbuf s_out s_calls].
  - destruct (_ <=? _)%nat; intros H; injection H as <- <-;
      cbn [s_in s_inoff s_outbuf s_out s_calls]; split; try reflexivity; discriminate.
  - intros H; injection H as <- <-;
      cbn [s_in s_inoff s_outbuf s_out s_calls]; split; try reflexivity; discriminate.
Qed.

Lemma pack_loop_run (inp Bs : list Z) (n : nat) : forall i s o s',
  aligned_run out_addr s_out s ->
  for_range i n (fun i =>
    s' <- get ;;
    log_call (s_out s') (nth i Bs 0) ;;
    store_out 0 (pack (miniblock inp i) (nth i Bs 0)) ;;
    advance_out (Z.to_nat (wrap32 (MiniBlockSize / 32 * nth i Bs 0)))) s
  = (o, s') ->
  Forall (call_aligned_at out_addr) (s_calls s')
  /\ (forall u, o = Ok u -> aligned_run out_addr s_out s').
Proof.
  induction n as [|n IH]; intros i s o s' [Hal Hc] H.
  - cbn [for_range] in H. injection H as <- <-.
    split; [exact Hc|]. intros _ _. split; assumption.
  - cbn [for_range] in H. unfold bind at 1 in H.
    match type of H with
    | context [match ?c s with _ => _ end] => destruct (c s) as [[[]|e] s1] eqn:E1
    end.
    + apply pack_step_run in E1 as (Hc1 & Ho1).
      specialize (Ho1 tt eq_refl).
      assert (A1 : aligned_run out_addr s_out s1).
      { split.
        - rewrite Ho1, Nat2Z.inj_add.
          pose proof (wrap32_words_mod4 (nth i Bs 0)) as Hm.
          apply (f_equal Z.of_nat) in Hm. rewrite Nat2Z.inj_mod in Hm.
          change (Z.of_nat 4) with 4 in Hm. change (Z.of_nat 0) with 0 in Hm.
          Z.div_mod_to_equations. lia.
        - rewrite Hc1. apply Forall_app. split; [exact Hc|].
          constructor; [exact Hal|constructor]. }
      exact (IH _ _ _ _ A1 H).
    + injection H as <- <-.
      apply pack_step_run in E1 as (Hc1 & _).
      split; [|discriminate].
      rewrite Hc1. apply Forall_app. split; [exact Hc|].
      constructor; [exact Hal|constructor].
Qed.

Lemma encode_block_run (h : nat) s o s' :
  aligned_run out_addr s_out s ->
  encode_block pack h s = (o, s') ->
  Forall (call_aligned_at out_addr) (s_calls s')
  /\ (forall u, o = Ok u -> aligned_run out_addr s_out s').
Proof.
  intros [Hal Hc] H. unfold encode_block in H. rewrite bind_get in H.
  cbv zeta in H.
  unfold bind at 1 in H.
  destruct (write_out _ s) as [[[]|e] s1] eqn:E1;
    apply write_out_run in E1 as (Hc1 & Ho1);
    [specialize (Ho1 tt eq_refl)
    |injection H as <- <-; split; [now rewrite Hc1|discriminate]].
  unfold bind at 1 in H.
  destruct (write_out _ s1) as [[[]|e] s2] eqn:E2;
    apply write_out_run in E2 as (Hc2 & Ho2);
    [specialize (Ho2 tt eq_refl)
    |injection H as <- <-; split; [now rewrite Hc2, Hc1|discriminate]].
  unfold bind at 1 in H.
  destruct (write_out _ s2) as [[[]|e] s3] eqn:E3;
    apply write_out_run in E3 as (Hc3 & Ho3);
    [specialize (Ho3 tt eq_refl)
    |injection H as <- <-; split; [now rewrite Hc3, Hc2, Hc1|discriminate]].
  unfold bind at 1 in H.
  destruct (write_out _ s3) as [[[]|e] s4] eqn:E4;
    apply write_out_run in E4 as (Hc4 & Ho4);
    [specialize (Ho4 tt eq_refl)
    |injection H as <- <-; split; [now rewrite Hc4, Hc3, Hc2, Hc1|discriminate]].
  assert (A4 : aligned_run out_addr s_out s4).
  { split; [|now rewrite Hc4, Hc3, Hc2, Hc1].
    rewrite Ho4, Ho3, Ho2, Ho1, !Nat2Z.inj_succ.
    Z.div_mod_to_equations. lia. }
  exact (pack_loop_run _ _ h 0 s4 o s' A4 H).
Qed.

Lemma pad_out_run (fuel : nat) : forall s o s',
  pad_out fuel out_addr s = (o, s') ->
  s_calls s' = s_calls s
  /\ (forall u, o = Ok u -> (out_addr + Z.of_nat (s_out s')) mod 4 = 0).
Proof.
  induction fuel as [|fuel IH]; intros s o s' H; cbn [pad_out] in H;
    rewrite bind_get in H;
    destruct (needPaddingTo128Bits (out_addr + Z.of_nat (s_out s))) eqn:En;
    try (injection H as <- <-; split; [reflexivity|]; try discriminate;
         intros _ _; unfold needPaddingTo128Bits in En;
         apply negb_false_iff, Z.eqb_eq in En; exact En).
  unfold bind at 1 in H.
  destruct (write_out CookiePadder s) as [[[]|e] s1] eqn:E1;
    apply write_out_run in E1 as (Hc1 & _).
  - apply IH in H as (Hc & Ho). split; [congruence|exact Ho].
  - injection H as <- <-. split; [exact Hc1|discriminate].
Qed.

Lemma advance_in_run (n : nat) s o s' :
  advance_in n s = (o, s') -> s_calls s' = s_calls s /\ s_out s' = s_out s.
Proof.
  unfold advance_in. destruct (_ <=? _)%nat; intros H; injection H as <- <-;
    split; reflexivity.
Qed.

Lemma encode_full_blocks_run (fuel : nat) : forall s o s',
  aligned_run out_addr s_out s ->
  encode_full_blocks pack fuel s = (o, s') ->
  Forall (call_aligned_at out_addr) (s_calls s')
  /\ (forall u, o = Ok u -> aligned_run out_addr s_out s').
Proof.
  induction fuel as [|fuel IH]; intros s o s' A H;
    rewrite encode_full_blocks_eq in H;
    destruct (_ <=? _)%nat.
  - injection H as <- <-. split; [apply A|discriminate].
  - injection H as <- <-. split; [apply A|]. intros _ _. exact A.
  - unfold bind at 1 in H.
    destruct (encode_block pack 16 s) as [[[]|e] s1] eqn:E1.
    + destruct (encode_block_run 16 s _ s1 A E1) as (H1 & H2).
      specialize (H2 tt eq_refl). unfold bind at 1 in H.
      destruct (advance_in _ s1) as [[[]|e] s2] eqn:E2;
        apply advance_in_run in E2 as (Hc2 & Ho2).
      * apply IH in H; [exact H|].
        split; [rewrite Ho2|rewrite Hc2]; apply H2.
      * injection H as <- <-. split; [now rewrite Hc2|discriminate].
    + injection H as <- <-.
      destruct (encode_block_run 16 s _ s1 A E1) as (H1 & _).
      split; [exact H1|discriminate].
  - injection H as <- <-. split; [apply A|]. intros _ _. exact A.
Qed.

Lemma encode_trailing_run s o s' :
  aligned_run out_addr s_out s ->
  encode_trailing pack s = (o, s') ->
  Forall (call_aligned_at out_addr) (s_calls s')
  /\ (forall u, o = Ok u -> aligned_run out_addr s_out s').
Proof.
  intros A H. unfold encode_trailing in H. rewrite bind_get in H.
  destruct (0 <? length (s_in s))%nat.
  2:{ injection H as <- <-. split; [apply A|]. intros _ _. exact A. }
  cbv zeta in H. unfold bind at 1 in H.
  match type of H with
  | context [encode_block pack ?h s] =>
      destruct (encode_block pack h s) as [[[]|e] s1] eqn:E1;
      destruct (encode_block_run h s _ s1 A E1) as (H1 & H2)
  end.
  - specialize (H2 tt eq_refl). unfold bind at 1 in H.
    destruct (advance_in _ s1) as [[[]|e] s2] eqn:E2;
      apply advance_in_run in E2 as (Hc2 & Ho2).
    + assert (A2 : aligned_run out_addr s_out s2) by (split; [rewrite Ho2|rewrite Hc2]; apply H2).
      rewrite bind_get in H. unfold check in H.
      destruct (s_in s2); injection H as <- <-;
        (split; [apply A2|]); [intros _ _; exact A2|discriminate].
    + injection H as <- <-. split; [now rewrite Hc2|discriminate].
  - injection H as <- <-. split; [exact H1|discriminate].
Qed.

(** Every run of [encodeArray]. *)
Lemma encodeArray_run (inp outbuf : list Z) o st :
  encodeArray pack inp outbuf out_addr = (o, st) ->
  Forall (call_aligned_at out_addr) (s_calls st)
  /\ (forall n, o = Ok n ->
      n = s_out st /\ (out_addr + Z.of_nat n) mod 4 = 0).
Proof.
  intros H. unfold encodeArray, encodeArray_body in H.
  rewrite bind_get in H. cbn [s_in s_out] in H. cbv zeta in H.
  destruct (checkifdivisibleby _ _).
  2:{ cbn [check] in H. unfold bind at 1 in H. unfold fail at 1 in H.
      injection H as <- <-. split; [constructor|discriminate]. }
  cbn [check] in H. unfold bind at 1 in H. unfold ret at 1 in H.
  unfold bind at 1 in H.
  destruct (write_out _ _) as [[[]|e] s1] eqn:E1;
    apply write_out_run in E1 as (Hc1 & _); cbn [s_calls] in Hc1.
  2:{ injection H as <- <-. rewrite Hc1. split; [constructor|discriminate]. }
  unfold bind at 1 in H.
  destruct (pad_out 4 out_addr s1) as [[[]|e] s2] eqn:E2;
    apply pad_out_run in E2 as (Hc2 & Ho2).
  2:{ injection H as <- <-. rewrite Hc2, Hc1. split; [constructor|discriminate]. }
  assert (A2 : aligned_run out_addr s_out s2).
  { split; [exact (Ho2 tt eq_refl)|rewrite Hc2, Hc1; constructor]. }
  unfold bind at 1 in H.
  destruct (encode_full_blocks pack _ s2) as [[[]|e] s3] eqn:E3;
    apply (encode_full_blocks_run _ _ _ _ A2) in E3 as (Hf3 & A3).
  2:{ injection H as <- <-. split; [exact Hf3|discriminate]. }
  specialize (A3 tt eq_refl). unfold bind at 1 in H.
  destruct (encode_trailing pack s3) as [[[]|e] s4] eqn:E4;
    apply (encode_trailing_run _ _ _ A3) in E4 as (Hf4 & A4).
  2:{ injection H as <- <-. split; [exact Hf4|discriminate]. }
  specialize (A4 tt eq_refl).
  rewrite bind_get in H. unfold ret in H. injection H as <- <-.
  split; [exact Hf4|]. intros n Hn. injection Hn as <-.
  rewrite Nat.sub_0_r. split; [reflexivity|apply A4].
Qed.

End EncoderRuns.

(** ** The exceptions of the encoder *)

Section EncoderRaises.

Variable P : error -> Prop.
Hypothesis P_oob : P OutOfBounds.
Hypothesis P_loop : P LoopBound.
Hypothesis P_assert : P AssertionFailed.

Lemma ro_write_out v : raises_only P (write_out v).
Proof.
  intros s e s' H. unfold write_out in H.
  destruct (store _ _ _); [discriminate H|now injection H as <- _].
Qed.

Lemma ro_pad_out fuel addr : raises_only P (pad_out fuel addr).
Proof.
  induction fuel as [|fuel IH]; cbn [pad_out];
    apply ro_bind; try apply ro_get; intros s;
    destruct (needPaddingTo128Bits _); try apply ro_ret.
  - intros s0 e s' H. now injection H as <- _.
  - apply ro_bind; [now apply ro_write_out|]. intros _. exact IH.
Qed.

Lemma ro_encode_block pack h : raises_only P (encode_block pack h).
Proof.
  unfold encode_block. apply ro_bind; [apply ro_get|]. intros s. cbv zeta.
  do 4 (apply ro_bind; [now apply ro_write_out|]; intros _).
  apply ro_for_range. intros j.
  repeat first [ apply ro_bind; [|intros ?] | apply ro_get | apply ro_log_call
               | apply ro_store_out | apply ro_advance_out ]; assumption.
Qed.

Lemma ro_encode_full_blocks pack fuel : raises_only P (encode_full_blocks pack fuel).
Proof.
  induction fuel as [|fuel IH]; cbn [encode_full_blocks];
    apply ro_bind; try apply ro_get; intros s;
    destruct (_ <=? _)%nat; try apply ro_ret.
  - intros s0 e s' H. now injection H as <- _.
  - apply ro_bind; [apply ro_encode_block|]. intros _.
    apply ro_bind; [now apply ro_advance_in|]. intros _. exact IH.
Qed.

Lemma ro_encode_trailing pack : raises_only P (encode_trailing pack).
Proof.
  unfold encode_trailing. apply ro_bind; [apply ro_get|]. intros s.
  destruct (0 <? _)%nat; [|apply ro_ret].
  cbv zeta. apply ro_bind; [apply ro_encode_block|]. intros _.
  apply ro_bind; [now apply ro_advance_in|]. intros _.
  apply ro_bind; [apply ro_get|]. intros s1. now apply ro_check.
Qed.

End EncoderRaises.

(** Past the check of the length, [encodeArray] does not throw
    InvalidLength. *)
Lemma encodeArray_errors_valid pack inp outbuf addr e st :
  checkifdivisibleby (Z.of_nat (length inp)) BlockSize = true ->
  encodeArray pack inp outbuf addr = (Err e, st) ->
  e = OutOfBounds.
Proof.
  intros Hc H.
  destruct (encodeArray_errors _ _ _ _ _ _ H) as [He | He]; [subst e|exact He].
  exfalso. unfold encodeArray, encodeArray_body in H.
  rewrite bind_get in H. cbn [s_in s_out] in H. cbv zeta in H.
  rewrite Hc in H. cbn [check] in H. unfold bind at 1 in H. unfold ret at 1 in H.
  revert H. generalize (mkState inp 0 outbuf 0 []). intros s H.
  assert (R : raises_only (fun e => e <> InvalidLength)
    (write_out (wrap32 (Z.of_nat (length inp))) ;;
     pad_out 4 addr ;;
     encode_full_blocks pack (length inp) ;;
     encode_trailing pack ;;
     s1 <- get ;; ret (s_out s1 - 0)%nat)).
  { apply ro_bind; [apply ro_write_out; discriminate|]. intros _.
    apply ro_bind; [apply ro_pad_out; discriminate|]. intros _.
    apply ro_bind; [apply ro_encode_full_blocks; discriminate|]. intros _.
    apply ro_bind; [apply ro_encode_trailing; discriminate|]. intros _.
    apply ro_bind; [apply ro_get|]. intros s1. apply ro_ret. }
  exact (R _ _ _ H eq_refl).
Qed.

(** ** The size of the stream *)

Lemma payload_words_app (a b : list (list Z)) :
  payload_words (a ++ b) = (payload_words a + payload_words b)%nat.
Proof.
  unfold payload_words. induction a as [|m a IH]; cbn [app fold_right]; [reflexivity|].
  rewrite IH. lia.
Qed.

Lemma frame_length_payload (blk : list Z) :
  frame_length blk = (4 + payload_words (miniblocks_of blk))%nat.
Proof.
  unfold frame_length, payload_words, miniblock_widths, miniblocks_of.
  f_equal. induction (seq 0 (length blk / 128)) as [|i l IH];
    cbn [map fold_right]; [reflexivity|now rewrite IH].
Qed.

Lemma maxbits_le (m : list Z) (b : Z) :
  0 <= b -> Forall (fun v => 0 <= v < 2 ^ b) m -> maxbits m <= b.
Proof.
  intros Hb Hm. unfold maxbits.
  destruct (Z.eqb_spec (list_max m) 0) as [|Hne]; [exact Hb|].
  destruct (list_max_in m) as [H0|Hin]; [contradiction|].
  rewrite Forall_forall in Hm. specialize (Hm _ Hin).
  assert (Z.log2 (list_max m) < b) by (apply Z.log2_lt_pow2; lia).
  lia.
Qed.

Lemma payload_words_le (b : Z) (ms : list (list Z)) :
  0 <= b ->
  Forall (Forall (fun v => 0 <= v < 2 ^ b)) ms ->
  (payload_words ms <= Z.to_nat (4 * b) * length ms)%nat.
Proof.
  intros Hb. induction 1 as [|m ms Hm _ IH]; cbn [payload_words fold_right length].
  - lia.
  - fold (payload_words ms). pose proof (maxbits_le m b Hb Hm).
    assert (Z.to_nat (4 * maxbits m) <= Z.to_nat (4 * b))%nat by lia. nia.
Qed.

Lemma miniblocks_of_length (inp : list Z) :
  length (miniblocks_of inp) = (length inp / 128)%nat.
Proof. unfold miniblocks_of. now rewrite length_map, length_seq. Qed.

Lemma miniblocks_of_Forall (P : Z -> Prop) (inp : list Z) :
  Forall P inp -> Forall (Forall P) (miniblocks_of inp).
Proof.
  intros H. unfold miniblocks_of. apply Forall_map, Forall_forall.
  intros i _. now apply miniblock_Forall.
Qed.

Lemma chunks_count (fuel : nat) : forall inp,
  (length inp <= fuel)%nat ->
  length (chunks fuel 2048 inp) = ((length inp + 2047) / 2048)%nat.
Proof.
  induction fuel as [|fuel IH]; intros inp Hf.
  - destruct inp; [|cbn [length] in Hf; lia]. cbn [chunks length].
    symmetry. apply Nat.div_small. lia.
  - destruct inp as [|x inp'] eqn:E.
    + cbn [chunks length]. symmetry. apply Nat.div_small. lia.
    + rewrite <- E in *. assert (H0 : (0 < length inp)%nat) by (subst; cbn; lia).
      rewrite chunks_cons by exact H0. cbn [length].
      rewrite IH by (rewrite length_skipn; lia). rewrite length_skipn.
      destruct (Nat.le_gt_cases 2048 (length inp)) as [Hge|Hlt].
      * replace (length inp + 2047)%nat
          with ((length inp - 2048 + 2047) + 1 * 2048)%nat by lia.
        rewrite Nat.div_add by lia. lia.
      * replace (length inp - 2048)%nat with 0%nat by lia.
        rewrite (Nat.div_small (0 + 2047)) by lia.
        apply (Nat.div_unique _ _ _ (length inp - 1)); lia.
Qed.

Section StreamLength.

Variable pack : list Z -> Z -> list Z.
Hypothesis pack_length : pack_contract pack.

Lemma frames_length (bls : list (list Z)) :
  Forall (Forall is_u32) bls ->
  length (concat (map (enc_frame pack) bls))
  = (4 * length bls + payload_words (concat (map miniblocks_of bls)))%nat.
Proof.
  induction 1 as [|blk bls Hu _ IH]; [reflexivity|].
  cbn [map concat length]. rewrite length_app, IH, payload_words_app.
  rewrite (enc_frame_length pack pack_length _ Hu), frame_length_payload. lia.
Qed.

Lemma encoded_stream_length (inp : list Z) (addr : Z) :
  (length inp mod 128 = 0)%nat -> Forall is_u32 inp ->
  length (encoded_stream pack inp addr)
  = (1 + pad_count (addr + 1) + 4 * ((length inp + 2047) / 2048)
     + payload_words (miniblocks_of inp))%nat.
Proof.
  intros Hm Hu. unfold encoded_stream, blocks. cbn [length].
  rewrite length_app, repeat_length, frames_length
    by (apply chunks_Forall; exact Hu).
  rewrite chunks_count, miniblocks_of_chunks by (try exact Hm; lia). lia.
Qed.

End StreamLength.

(** ** Header words and the padding word *)

Lemma Forall_nth0 (P : Z -> Prop) (l : list Z) (i : nat) :
  P 0 -> Forall P l -> P (nth i l 0).
Proof.
  intros H0 H. destruct (Nat.lt_ge_cases i (length l)) as [Hlt|Hge].
  - rewrite Forall_forall in H. apply H, nth_In, Hlt.
  - now rewrite nth_overflow.
Qed.

Lemma header_word_not_padder (inp : list Z) (h k : nat) :
  Forall is_u32 inp ->
  header_word (block_widths inp h) k <> CookiePadder.
Proof.
  intros Hu E.
  pose proof (block_widths_bytes inp h Hu) as Hb.
  pose proof (block_widths_range inp h Hu) as Hr.
  assert (B0 : is_byte 0) by (unfold is_byte; lia).
  pose proof (header_widths_word (block_widths inp h) k
                (Forall_nth0 _ _ _ B0 Hb) (Forall_nth0 _ _ _ B0 Hb)
                (Forall_nth0 _ _ _ B0 Hb) (Forall_nth0 _ _ _ B0 Hb)) as Hw.
  rewrite E in Hw.
  assert (Hc : nth (4 * k + 2) (block_widths inp h) 0 = 226).
  { change (header_widths CookiePadder) with [0; 1; 226; 64] in Hw.
    injection Hw as _ _ H2 _. symmetry. exact H2. }
  assert (Hn : 0 <= nth (4 * k + 2) (block_widths inp h) 0 <= 32).
  { apply (Forall_nth0 (fun b => 0 <= b <= 32)); [lia|exact Hr]. }
  lia.
Qed.

(** ** The widths of miniblocks that are not there *)

Lemma nth_block_widths_absent (inp : list Z) (h j : nat) :
  (h <= j)%nat -> nth j (block_widths inp h) 0 = 0.
Proof.
  intros Hj. unfold block_widths.
  rewrite app_nth2 by (rewrite length_map, length_seq; lia).
  apply nth_repeat.
Qed.

(** ** Properties of every run *)

(** X1.  The exceptions of [encodeArray]: with any pack kernel, any input,
    any output array and any address, a run that does not return [nvalue]
    ends either with the exception of [checkifdivisibleby] (as the spec
    describes that helper), and then the length is zero or no multiple of
    128, or outside the output array, and then the length is a positive
    multiple of 128.  So the loops end, and [assert(in == final)] never
    fails. *)
Theorem encodeArray_exceptions
  (pack : list Z -> Z -> list Z) (inp outbuf : list Z) (addr : Z) (e : error) :
  fst (encodeArray pack inp outbuf addr) = Err e ->
  (e = InvalidLength /\ ~ valid_length (Z.of_nat (length inp)))
  \/ (e = OutOfBounds /\ valid_length (Z.of_nat (length inp))).
Proof.
  destruct (encodeArray pack inp outbuf addr) as [o st] eqn:E.
  cbn [fst]. intros ->.
  destruct (checkifdivisibleby (Z.of_nat (length inp)) BlockSize) eqn:Ec.
  - right. split; [exact (encodeArray_errors_valid _ _ _ _ _ _ Ec E)|].
    unfold checkifdivisibleby in Ec. apply andb_true_iff in Ec as [H0 Hm].
    split; [now apply Z.ltb_lt|now apply Z.eqb_eq in Hm].
  - left. split.
    + unfold encodeArray, encodeArray_body in E.
      rewrite bind_get in E. cbn [s_in s_out] in E. cbv zeta in E.
      rewrite Ec in E. now injection E as <- _.
    + intros Hv. apply checkifdivisibleby_true in Hv. congruence.
Qed.

Lemma encodeArray_exceptions_witness :
  (OutOfBounds = InvalidLength /\ ~ valid_length (Z.of_nat (length sample_input)))
  \/ (OutOfBounds = OutOfBounds /\ valid_length (Z.of_nat (length sample_input))).
Proof.
  apply (encodeArray_exceptions ref_pack sample_input (repeat 0 10) 0 OutOfBounds).
  vm_compute. reflexivity.
Defined.

(** X2.  Alignment of the stores of the encoder: with any pack kernel, any
    input and from any address [out], whatever the outcome, every address
    that [encodeArray] hands to the pack kernel is a multiple of 16 bytes
    (four words), and when [nvalue] is returned [out + nvalue] is one too:
    what is written next to the stream starts aligned. *)
Theorem pack_stores_aligned
  (pack : list Z -> Z -> list Z) (inp outbuf : list Z) (addr : Z) :
  Forall (call_aligned_at addr) (s_calls (snd (encodeArray pack inp outbuf addr)))
  /\ forall n, fst (encodeArray pack inp outbuf addr) = Ok n ->
       n = s_out (snd (encodeArray pack inp outbuf addr))
       /\ (addr + Z.of_nat n) mod 4 = 0.
Proof.
  destruct (encodeArray pack inp outbuf addr) as [o st] eqn:E.
  cbn [fst snd]. exact (encodeArray_run pack addr inp outbuf o st E).
Qed.

Lemma pack_stores_aligned_witness :
  Forall (call_aligned_at 2)
         (s_calls (snd (encodeArray ref_pack sample_input sample_outbuf 2)))
  /\ forall n, fst (encodeArray ref_pack sample_input sample_outbuf 2) = Ok n ->
       n = s_out (snd (encodeArray ref_pack sample_input sample_outbuf 2))
       /\ (2 + Z.of_nat n) mod 4 = 0.
Proof.
  exact (pack_stores_aligned ref_pack sample_input sample_outbuf 2).
Defined.

(** X3.  The exceptions of [decodeArray]: on any stream of 32-bit words,
    with any unpack kernel and any addresses, a run that does not return
    ends outside an array, with the exception for the alignment of [out],
    with the one for the padding, or at [assert(out == initout +
    actuallength)]: the loops end. *)
Theorem decodeArray_exceptions
  (unpack : list Z -> Z -> list Z) (inbuf dst : list Z) (in_addr out_addr : Z)
  (e : error) :
  Forall is_u32 inbuf ->
  fst (decodeArray unpack inbuf in_addr dst out_addr) = Err e ->
  e = OutOfBounds \/ e = BadOutputAlignment \/ e = StreamCorrupt
  \/ e = AssertionFailed.
Proof.
  intros Hu.
  destruct (decodeArray unpack inbuf in_addr dst out_addr) as [o st] eqn:E.
  cbn [fst]. intros ->.
  destruct inbuf as [|L inbuf].
  - left. unfold decodeArray, decodeArray_body in E.
    unfold bind at 1 in E. unfold peek_in at 1 in E. cbn [s_in] in E.
    now injection E as <- _.
  - pose proof (decodeArray_errors _ _ _ _ _ _ _ _ (Forall_inv Hu) E) as H1.
    assert (H2 : e <> InvalidLength).
    { refine (ro_decodeArray_body (fun e => e <> InvalidLength)
                _ _ _ _ _ unpack in_addr out_addr _ _ _ E); discriminate. }
    destruct e; auto; contradiction.
Qed.

Lemma decodeArray_exceptions_witness :
  OutOfBounds = OutOfBounds \/ OutOfBounds = BadOutputAlignment
  \/ OutOfBounds = StreamCorrupt \/ OutOfBounds = AssertionFailed.
Proof.
  apply (decodeArray_exceptions ref_unpack
           [128; CookiePadder; CookiePadder; CookiePadder; 134217728; 0; 0; 0]
           sample_dst 0 0 OutOfBounds).
  - apply forallb_is_u32. reflexivity.
  - vm_compute. reflexivity.
Defined.

(** X4.  What a decoded stream must look like: on any stream of 32-bit
    words and with any unpack kernel, [decodeArray] returns only if [out]
    is 16-byte aligned and the length prefix is a multiple of 128; then
    [nvalue] is the prefix, the unpack kernel was called once per 128
    words of it, and the returned cursor is 16-byte aligned.  A prefix
    that is no multiple of 128 ends in an exception. *)
Theorem decodeArray_returns_prefix
  (unpack : list Z -> Z -> list Z) (inbuf dst : list Z) (in_addr out_addr : Z)
  (pos nv : nat) :
  Forall is_u32 inbuf ->
  fst (decodeArray unpack inbuf in_addr dst out_addr) = Ok (pos, nv) ->
  nth_error inbuf 0 = Some (Z.of_nat nv)
  /\ Z.of_nat nv mod 128 = 0
  /\ out_addr mod 4 = 0
  /\ (in_addr + Z.of_nat pos) mod 4 = 0
  /\ s_inoff (snd (decodeArray unpack inbuf in_addr dst out_addr)) = pos
  /\ s_out (snd (decodeArray unpack inbuf in_addr dst out_addr)) = nv
  /\ Z.of_nat (length (s_calls (snd (decodeArray unpack inbuf in_addr dst out_addr))))
     = Z.of_nat nv / 128.
Proof.
  intros Hu.
  destruct (decodeArray unpack inbuf in_addr dst out_addr) as [o st] eqn:E.
  cbn [fst snd]. intros ->.
  destruct inbuf as [|L inbuf].
  - unfold decodeArray, decodeArray_body in E.
    unfold bind at 1 in E. unfold peek_in at 1 in E. cbn [s_in] in E.
    discriminate E.
  - destruct (decodeArray_run unpack in_addr L inbuf dst out_addr _ _
                (Forall_inv Hu) E) as [_ H].
    destruct (H pos nv eq_refl) as (H1 & H2 & H3 & H4 & H5 & H6 & H7).
    cbn [nth_error]. rewrite H5. repeat split; try assumption; congruence.
Qed.

Lemma decodeArray_returns_prefix_witness :
  let stream := [128; CookiePadder; CookiePadder; CookiePadder; 0; 0; 0; 0] in
  nth_error stream 0 = Some (Z.of_nat 128)
  /\ Z.of_nat 128 mod 128 = 0
  /\ 0 mod 4 = 0
  /\ (0 + Z.of_nat 8) mod 4 = 0
  /\ s_inoff (snd (decodeArray ref_unpack stream 0 sample_dst 0)) = 8%nat
  /\ s_out (snd (decodeArray ref_unpack stream 0 sample_dst 0)) = 128%nat
  /\ Z.of_nat (length (s_calls (snd (decodeArray ref_unpack stream 0 sample_dst 0))))
     = Z.of_nat 128 / 128.
Proof.
  apply (decodeArray_returns_prefix ref_unpack
           [128; CookiePadder; CookiePadder; CookiePadder; 0; 0; 0; 0]
           sample_dst 0 0 8 128).
  - apply forallb_is_u32. reflexivity.
  - vm_compute. reflexivity.
Defined.

(** X5.  Alignment of the loads of the decoder: on any stream of 32-bit
    words, with any unpack kernel, from any address [in] and whatever the
    outcome, every address that [decodeArray] hands to the unpack kernel
    as a vector pointer is a multiple of 16 bytes.  This is the answer to
    the question the source asks at the cast. *)
Theorem unpack_loads_aligned
  (unpack : list Z -> Z -> list Z) (inbuf dst : list Z) (in_addr out_addr : Z) :
  Forall is_u32 inbuf ->
  Forall (call_aligned_at in_addr)
         (s_calls (snd (decodeArray unpack inbuf in_addr dst out_addr))).
Proof.
  intros Hu.
  destruct (decodeArray unpack inbuf in_addr dst out_addr) as [o st] eqn:E.
  cbn [snd]. destruct inbuf as [|L inbuf].
  - unfold decodeArray, decodeArray_body in E.
    unfold bind at 1 in E. unfold peek_in at 1 in E. cbn [s_in] in E.
    injection E as _ <-. constructor.
  - exact (proj1 (decodeArray_run unpack in_addr L inbuf dst out_addr _ _
                    (Forall_inv Hu) E)).
Qed.

Lemma unpack_loads_aligned_witness :
  Forall (call_aligned_at 2)
         (s_calls (snd (decodeArray ref_unpack
                          (s_outbuf (snd (encodeArray ref_pack sample_input
                                            sample_outbuf 2)))
                          2 sample_dst 0))).
Proof.
  apply (unpack_loads_aligned ref_unpack
           (s_outbuf (snd (encodeArray ref_pack sample_input sample_outbuf 2)))
           sample_dst 2 0).
  apply forallb_is_u32. vm_compute. reflexivity.
Defined.

(** ** Streams that are moved *)

(** X6.  Round trip at any alignment: the stream written at an address
    [addr] that need not be aligned decodes to the input from every
    address [in_addr] with the same remainder modulo 16 bytes: the
    returned cursor is [in_addr + nvalue] of the encoder, the decoder's
    [nvalue] is the length, the words of the output past it are untouched
    and the unpack kernel is called at the offsets and with the widths of
    the pack kernel. *)
Theorem roundtrip_any_alignment
  (pack unpack : list Z -> Z -> list Z) (inp outbuf dst : list Z)
  (addr in_addr out_addr : Z) :
  pack_contract pack -> unpack_contract pack unpack ->
  valid_length (Z.of_nat (length inp)) ->
  Z.of_nat (length inp) < 2 ^ 32 ->
  Forall is_u32 inp ->
  in_addr mod 4 = addr mod 4 -> out_addr mod 4 = 0 ->
  (length (encoded_stream pack inp addr) <= length outbuf)%nat ->
  (length inp <= length dst)%nat ->
  exists n st st',
    encodeArray pack inp outbuf addr = (Ok n, st)
    /\ decodeArray unpack (s_outbuf st) in_addr dst out_addr
       = (Ok (n, length inp), st')
    /\ s_outbuf st' = inp ++ skipn (length inp) dst
    /\ s_calls st' = s_calls st.
Proof.
  intros Hp Hup Hv Hlt Hu Hi Ho Hroom Hdst.
  pose proof (encodeArray_ok pack Hp inp outbuf addr Hv Hu Hroom) as He.
  pose proof (decodeArray_ok pack unpack Hp Hup inp
                (skipn (length (encoded_stream pack inp addr)) outbuf) dst
                addr in_addr out_addr Hv Hlt Hu Hi Ho Hdst) as Hd.
  cbv zeta in He, Hd.
  eexists _, _, _. split; [exact He|]. split; [exact Hd|].
  split; reflexivity.
Qed.

Lemma roundtrip_any_alignment_witness :
  exists n st st',
    encodeArray ref_pack sample_input sample_outbuf 1 = (Ok n, st)
    /\ decodeArray ref_unpack (s_outbuf st) 5 sample_dst 0
       = (Ok (n, length sample_input), st')
    /\ s_outbuf st' = sample_input ++ skipn (length sample_input) sample_dst
    /\ s_calls st' = s_calls st.
Proof.
  apply (roundtrip_any_alignment ref_pack ref_unpack sample_input sample_outbuf
           sample_dst 1 5 0).
  - exact ref_pack_length.
  - exact ref_unpack_pack.
  - split; reflexivity.
  - reflexivity.
  - apply forallb_is_u32. reflexivity.
  - reflexivity.
  - reflexivity.
  - apply Nat.leb_le. vm_compute. reflexivity.
  - apply Nat.leb_le. reflexivity.
Defined.

(** X7.  A stream moved to an alignment that asks for more padding is
    refused: when the decoder reads, from an address that needs more
    padding words than the encoder wrote, the stream of an input, it
    throws the exception of the padding at the first header word, which
    is never the padding word, having stored nothing. *)
Theorem misplaced_stream_rejected
  (pack unpack : list Z -> Z -> list Z) (inp outbuf dst : list Z)
  (addr in_addr out_addr : Z) :
  pack_contract pack ->
  valid_length (Z.of_nat (length inp)) ->
  Forall is_u32 inp ->
  out_addr mod 4 = 0 ->
  (pad_count (addr + 1) < pad_count (in_addr + 1))%nat ->
  (length (encoded_stream pack inp addr) <= length outbuf)%nat ->
  exists n st st',
    encodeArray pack inp outbuf addr = (Ok n, st)
    /\ decodeArray unpack (s_outbuf st) in_addr dst out_addr
       = (Err StreamCorrupt, st')
    /\ s_inoff st' = (1 + pad_count (addr + 1))%nat
    /\ nth_error (s_in st') 0
       = Some (header_word (block_widths inp (length (firstn 2048 inp) / 128)) 0)
    /\ s_outbuf st' = dst /\ s_calls st' = [].
Proof.
  intros Hp Hv Hu Ho Hpad Hroom.
  pose proof (encodeArray_ok pack Hp inp outbuf addr Hv Hu Hroom) as He.
  cbv zeta in He. eexists _, _, _. split; [exact He|]. cbn [s_outbuf].
  assert (H0 : (0 < length inp)%nat) by (destruct Hv; lia).
  unfold encoded_stream. rewrite (blocks_cons inp H0). cbn [map concat].
  unfold enc_frame at 1. unfold frame_header at 1. cbn [app].
  rewrite <- !app_assoc. cbn [app].
  rewrite (decodeArray_bad_padding unpack _ _ _ _ dst in_addr out_addr Ho Hpad).
  - cbn [s_inoff s_in s_outbuf s_calls nth_error].
    repeat split. f_equal. f_equal.
    set (h := (length (firstn 2048 inp) / 128)%nat).
    assert (Hh : (h * 128 <= 2048)%nat).
    { unfold h. rewrite length_firstn.
      pose proof (Nat.Div0.mul_div_le (Nat.min 2048 (length inp)) 128). lia. }
    rewrite <- (block_widths_firstn inp h).
    rewrite <- (block_widths_firstn (firstn 2048 inp) h).
    now rewrite firstn_firstn, Nat.min_l by exact Hh.
  - apply header_word_not_padder. now apply Forall_firstn_skipn.
Qed.

Lemma misplaced_stream_rejected_witness :
  exists n st st',
    encodeArray ref_pack sample_input sample_outbuf 2 = (Ok n, st)
    /\ decodeArray ref_unpack (s_outbuf st) 0 sample_dst 0
       = (Err StreamCorrupt, st')
    /\ s_inoff st' = (1 + pad_count (2 + 1))%nat
    /\ nth_error (s_in st') 0
       = Some (header_word
                 (block_widths sample_input
                    (length (firstn 2048 sample_input) / 128)) 0)
    /\ s_outbuf st' = sample_dst /\ s_calls st' = [].
Proof.
  apply (misplaced_stream_rejected ref_pack ref_unpack sample_input
           sample_outbuf sample_dst 2 0 0).
  - exact ref_pack_length.
  - split; reflexivity.
  - apply forallb_is_u32. reflexivity.
  - reflexivity.
  - vm_compute. lia.
  - apply Nat.leb_le. vm_compute. reflexivity.
Defined.

(** ** The size of what is written *)

Lemma payload_words_u32 (inp : list Z) :
  Forall is_u32 inp -> (payload_words (miniblocks_of inp) <= length inp)%nat.
Proof.
  intros Hu.
  pose proof (payload_words_le 32 (miniblocks_of inp) ltac:(lia)
                (miniblocks_of_Forall _ inp Hu)) as H.
  rewrite miniblocks_of_length in H.
  change (Z.to_nat (4 * 32)) with 128%nat in H.
  pose proof (Nat.Div0.mul_div_le (length inp) 128). lia.
Qed.

Lemma valid_length_mod (inp : list Z) :
  valid_length (Z.of_nat (length inp)) -> (length inp mod 128 = 0)%nat.
Proof.
  intros [_ Hm]. apply Nat2Z.inj. rewrite Nat2Z.inj_mod. exact Hm.
Qed.

(** X8.  The size of the stream: in an output array of at least
    [4 + length + 4 * ceil(length / 2048)] words, [encodeArray] returns;
    [nvalue] is one word for the prefix, the padding, four header words
    per block and four words per bit of width ([maxbits], as the spec
    describes it) of each miniblock, which is at most the bound above;
    the output array keeps its length and the words from [nvalue] on are
    untouched. *)
Theorem encoded_size
  (pack : list Z -> Z -> list Z) (inp outbuf : list Z) (addr : Z) :
  pack_contract pack ->
  valid_length (Z.of_nat (length inp)) ->
  Forall is_u32 inp ->
  (4 + length inp + 4 * ((length inp + 2047) / 2048) <= length outbuf)%nat ->
  exists n st,
    encodeArray pack inp outbuf addr = (Ok n, st)
    /\ n = (1 + pad_count (addr + 1) + 4 * ((length inp + 2047) / 2048)
            + payload_words (miniblocks_of inp))%nat
    /\ (n <= 4 + length inp + 4 * ((length inp + 2047) / 2048))%nat
    /\ length (s_outbuf st) = length outbuf
    /\ skipn n (s_outbuf st) = skipn n outbuf.
Proof.
  intros Hp Hv Hu Hroom.
  pose proof (encoded_stream_length pack Hp inp addr (valid_length_mod _ Hv) Hu) as Hl.
  pose proof (payload_words_u32 inp Hu) as Hw.
  pose proof (pad_count_le (addr + 1)) as Hpc.
  assert (Hcap : (length (encoded_stream pack inp addr) <= length outbuf)%nat) by lia.
  pose proof (encodeArray_ok pack Hp inp outbuf addr Hv Hu Hcap) as He.
  cbv zeta in He. eexists _, _. split; [exact He|]. cbn [s_outbuf].
  split; [exact Hl|]. split; [lia|]. split.
  - rewrite length_app, length_skipn. lia.
  - apply skipn_exact.
Qed.

Lemma encoded_size_witness :
  exists n st,
    encodeArray ref_pack sample_input (repeat 0 136) 0 = (Ok n, st)
    /\ n = (1 + pad_count (0 + 1) + 4 * ((length sample_input + 2047) / 2048)
            + payload_words (miniblocks_of sample_input))%nat
    /\ (n <= 4 + length sample_input
             + 4 * ((length sample_input + 2047) / 2048))%nat
    /\ length (s_outbuf st) = length (repeat 0 136)
    /\ skipn n (s_outbuf st) = skipn n (repeat 0 136).
Proof.
  apply (encoded_size ref_pack sample_input (repeat 0 136) 0).
  - exact ref_pack_length.
  - split; reflexivity.
  - apply forallb_is_u32. reflexivity.
  - apply Nat.leb_le. vm_compute. reflexivity.
Defined.

Lemma forallb_below (b : Z) (l : list Z) :
  forallb (fun v => (0 <=? v) && (v <? 2 ^ b)) l = true ->
  Forall (fun v => 0 <= v < 2 ^ b) l.
Proof.
  intros H. apply Forall_forall. intros v Hv.
  rewrite forallb_forall in H. specialize (H v Hv).
  apply andb_true_iff in H as [H1 H2].
  apply Z.leb_le in H1. apply Z.ltb_lt in H2. lia.
Qed.

Lemma calls_from_widths (P : Z -> Prop) (bs : list Z) : forall off,
  Forall P bs -> Forall (fun c => P (snd c)) (calls_from off bs).
Proof.
  induction bs as [|w bs IH]; intros off H; cbn [calls_from]; [constructor|].
  inversion H as [|? ? H1 H2]; subst.
  constructor; [exact H1|]. now apply IH.
Qed.

Lemma miniblock_widths_le (b : Z) (blk : list Z) :
  0 <= b <= 32 ->
  Forall (fun v => 0 <= v < 2 ^ b) blk ->
  Forall (fun w => 0 <= w <= b) (miniblock_widths blk).
Proof.
  intros Hb Hin. unfold miniblock_widths.
  apply Forall_map, Forall_forall. intros i _.
  pose proof (miniblock_Forall _ blk i Hin) as Hm.
  pose proof (maxbits_le _ b ltac:(lia) Hm).
  assert (Hu : Forall is_u32 (miniblock blk i)).
  { apply (Forall_impl _ (P := fun v => 0 <= v < 2 ^ b)); [|exact Hm].
    intros v Hv. unfold is_u32.
    assert (2 ^ b <= 2 ^ 32) by (apply Z.pow_le_mono_r; lia). lia. }
  pose proof (maxbits_range _ Hu). lia.
Qed.

Lemma stream_calls_widths (b : Z) (bls : list (list Z)) : forall off,
  0 <= b <= 32 ->
  Forall (Forall (fun v => 0 <= v < 2 ^ b)) bls ->
  Forall (fun c => 0 <= snd c <= b) (stream_calls off bls).
Proof.
  induction bls as [|blk bls IH]; intros off Hb H; cbn [stream_calls];
    [constructor|].
  inversion H as [|? ? H1 H2]; subst. apply Forall_app. split.
  - unfold frame_calls.
    apply (calls_from_widths (fun w => 0 <= w <= b)).
    now apply miniblock_widths_le.
  - now apply IH.
Qed.

Lemma chunks_Forall_below (b : Z) (fuel n : nat) : forall l,
  Forall (fun v => 0 <= v < 2 ^ b) l ->
  Forall (Forall (fun v => 0 <= v < 2 ^ b)) (chunks fuel n l).
Proof. intros l. apply (chunks_Forall (fun v => 0 <= v < 2 ^ b)). Qed.

Section ZeroFrames.

Variable pack : list Z -> Z -> list Z.
Hypothesis pack_length : pack_contract pack.

Lemma zero_frame (blk : list Z) :
  Forall (fun v => 0 <= v < 2 ^ 0) blk ->
  enc_frame pack blk = [0; 0; 0; 0].
Proof.
  intros Hz.
  assert (Hu : Forall is_u32 blk).
  { apply (Forall_impl _ (P := fun v => 0 <= v < 2 ^ 0)); [|exact Hz].
    intros v Hv. unfold is_u32. change (2 ^ 0) with 1 in Hv. lia. }
  assert (Hm : forall i, maxbits (miniblock blk i) = 0).
  { intros i.
    pose proof (maxbits_le _ 0 ltac:(lia) (miniblock_Forall _ blk i Hz)).
    pose proof (maxbits_range _ (miniblock_Forall _ blk i Hu)). lia. }
  assert (Hn : forall j, nth j (block_widths blk (length blk / 128)) 0 = 0).
  { intros j. destruct (Nat.lt_ge_cases j (length blk / 128)) as [Hj|Hj].
    - rewrite nth_block_widths by exact Hj. apply Hm.
    - now apply nth_block_widths_absent. }
  unfold enc_frame, frame_header, header_word. rewrite !Hn.
  replace (frame_payload pack blk) with (@nil Z); [reflexivity|].
  unfold frame_payload. symmetry.
  induction (seq 0 (length blk / 128)) as [|i l IH]; [reflexivity|].
  cbn [map concat]. rewrite IH, app_nil_r, Hm.
  apply length_zero_iff_nil. now rewrite pack_length by lia.
Qed.

Lemma zero_frames (bls : list (list Z)) :
  Forall (Forall (fun v => 0 <= v < 2 ^ 0)) bls ->
  concat (map (enc_frame pack) bls) = repeat 0 (4 * length bls).
Proof.
  induction 1 as [|blk bls Hz _ IH]; [reflexivity|].
  cbn [map concat length]. rewrite IH, (zero_frame _ Hz).
  replace (4 * S (length bls))%nat with (4 + 4 * length bls)%nat by lia.
  reflexivity.
Qed.

End ZeroFrames.

(** X9.  What is saved: when every value of the input is below [2^b], for
    a [b] from 0 to 32, [encodeArray] returns in an output array of
    [4 + 4 * ceil(length / 2048) + 4 * b * (length / 128)] words.
    [nvalue] is exactly one word for the prefix, the padding, four header
    words per block and the payload; the pack kernel is called once per
    miniblock, each time with a width of at most [b], so that the payload
    is at most [4 * b] words per miniblock.  With [b = 0], an input of
    zeros, there is no payload: [nvalue] is the prefix, the padding and
    four header words per block, and the headers are zero. *)
Theorem encoded_size_bits
  (pack : list Z -> Z -> list Z) (inp outbuf : list Z) (addr b : Z) :
  pack_contract pack ->
  valid_length (Z.of_nat (length inp)) ->
  0 <= b <= 32 ->
  Forall (fun v => 0 <= v < 2 ^ b) inp ->
  (4 + 4 * ((length inp + 2047) / 2048) + Z.to_nat (4 * b) * (length inp / 128)
   <= length outbuf)%nat ->
  exists n st,
    encodeArray pack inp outbuf addr = (Ok n, st)
    /\ n = (1 + pad_count (addr + 1) + 4 * ((length inp + 2047) / 2048)
            + payload_words (miniblocks_of inp))%nat
    /\ (payload_words (miniblocks_of inp)
        <= Z.to_nat (4 * b) * (length inp / 128))%nat
    /\ length (s_calls st) = (length inp / 128)%nat
    /\ Forall (fun c => 0 <= snd c <= b) (s_calls st)
    /\ (b = 0 ->
        n = (1 + pad_count (addr + 1) + 4 * ((length inp + 2047) / 2048))%nat
        /\ firstn n (s_outbuf st)
           = wrap32 (Z.of_nat (length inp))
             :: repeat CookiePadder (pad_count (addr + 1))
             ++ repeat 0 (4 * ((length inp + 2047) / 2048))).
Proof.
  intros Hp Hv Hb Hin Hroom.
  assert (Hu : Forall is_u32 inp).
  { apply (Forall_impl _ (P := fun v => 0 <= v < 2 ^ b)); [|exact Hin].
    intros v Hv'. unfold is_u32.
    assert (2 ^ b <= 2 ^ 32) by (apply Z.pow_le_mono_r; lia). lia. }
  pose proof (valid_length_mod _ Hv) as Hm.
  pose proof (encoded_stream_length pack Hp inp addr Hm Hu) as Hl.
  pose proof (payload_words_le b (miniblocks_of inp) ltac:(lia)
                (miniblocks_of_Forall _ inp Hin)) as Hw.
  rewrite miniblocks_of_length in Hw.
  pose proof (pad_count_le (addr + 1)) as Hpc.
  assert (Hcap : (length (encoded_stream pack inp addr) <= length outbuf)%nat) by lia.
  pose proof (encodeArray_ok pack Hp inp outbuf addr Hv Hu Hcap) as He.
  cbv zeta in He. eexists _, _. split; [exact He|]. cbn [s_calls s_outbuf].
  split; [exact Hl|]. split; [exact Hw|].
  split; [apply stream_calls_length; [lia|exact Hm]|].
  split; [apply stream_calls_widths; [exact Hb|now apply chunks_Forall_below]|].
  intros ->. change (Z.to_nat (4 * 0)) with 0%nat in Hw.
  split; [lia|]. rewrite firstn_exact. unfold encoded_stream.
  do 2 f_equal. unfold blocks.
  rewrite (zero_frames pack Hp) by now apply chunks_Forall_below.
  now rewrite chunks_count by lia.
Qed.

Lemma encoded_size_bits_witness :
  exists n st,
    encodeArray ref_pack (repeat 0%Z 128) (repeat 9%Z 8) 3 = (Ok n, st)
    /\ n = (1 + pad_count (3 + 1) + 4 * ((length (repeat 0%Z 128) + 2047) / 2048)
            + payload_words (miniblocks_of (repeat 0%Z 128)))%nat
    /\ (payload_words (miniblocks_of (repeat 0%Z 128))
        <= Z.to_nat (4 * 0) * (length (repeat 0%Z 128) / 128))%nat
    /\ length (s_calls st) = (length (repeat 0%Z 128) / 128)%nat
    /\ Forall (fun c => 0 <= snd c <= 0) (s_calls st)
    /\ (0 = 0 ->
        n = (1 + pad_count (3 + 1)
             + 4 * ((length (repeat 0%Z 128) + 2047) / 2048))%nat
        /\ firstn n (s_outbuf st)
           = wrap32 (Z.of_nat (length (repeat 0%Z 128)))
             :: repeat CookiePadder (pad_count (3 + 1))
             ++ repeat 0 (4 * ((length (repeat 0%Z 128) + 2047) / 2048))).
Proof.
  apply (encoded_size_bits ref_pack (repeat 0%Z 128) (repeat 9%Z 8) 3 0).
  - exact ref_pack_length.
  - split; reflexivity.
  - lia.
  - apply forallb_below. reflexivity.
  - apply Nat.leb_le. vm_compute. reflexivity.
Defined.

(** ** The header of a block that is not full *)

(** X10.  No stale widths: of every block of the stream that
    [encodeArray] writes, the four header words decode to sixteen widths
    from 0 to 32, and the widths of the miniblocks that the block does not
    have, in a trailing block of fewer than sixteen, are the zeros of the
    [memset], not what the block before left in [Bs]. *)
Theorem absent_widths_zero
  (pack : list Z -> Z -> list Z) (inp outbuf : list Z) (addr : Z) :
  pack_contract pack ->
  valid_length (Z.of_nat (length inp)) ->
  Forall is_u32 inp ->
  (length (encoded_stream pack inp addr) <= length outbuf)%nat ->
  exists n st,
    encodeArray pack inp outbuf addr = (Ok n, st)
    /\ firstn n (s_outbuf st)
       = wrap32 (Z.of_nat (length inp))
         :: repeat CookiePadder (pad_count (addr + 1))
         ++ concat (map (enc_frame pack) (blocks inp))
    /\ forall blk, In blk (blocks inp) ->
       let Bs := decode_header (firstn 4 (enc_frame pack blk)) in
       length Bs = 16%nat
       /\ Forall (fun w => 0 <= w <= 32) Bs
       /\ forall i, (length blk / 128 <= i)%nat -> nth i Bs 0 = 0.
Proof.
  intros Hp Hv Hu Hroom.
  pose proof (encodeArray_ok pack Hp inp outbuf addr Hv Hu Hroom) as He.
  cbv zeta in He. eexists _, _. split; [exact He|]. cbn [s_outbuf].
  split; [apply firstn_exact|].
  intros blk Hin.
  assert (Hub : Forall is_u32 blk).
  { pose proof (chunks_Forall is_u32 (length inp) 2048 inp Hu) as H.
    rewrite Forall_forall in H. exact (H _ Hin). }
  assert (Hlb : (length blk <= 2048)%nat).
  { pose proof (chunks_length_le (length inp) 2048 inp) as H.
    rewrite Forall_forall in H. exact (H _ Hin). }
  assert (Hh : (length blk / 128 <= 16)%nat).
  { change 16%nat with (2048 / 128)%nat. apply Nat.Div0.div_le_mono. exact Hlb. }
  assert (Hf : firstn 4 (enc_frame pack blk) = frame_header blk)
    by (unfold enc_frame; now apply firstn_exact').
  cbv zeta. rewrite Hf, decode_frame_header by assumption.
  split; [now apply block_widths_length|].
  split; [now apply block_widths_range|].
  intros i Hi. now apply nth_block_widths_absent.
Qed.

Lemma absent_widths_zero_witness :
  exists n st,
    encodeArray ref_pack sample_input sample_outbuf 0 = (Ok n, st)
    /\ firstn n (s_outbuf st)
       = wrap32 (Z.of_nat (length sample_input))
         :: repeat CookiePadder (pad_count (0 + 1))
         ++ concat (map (enc_frame ref_pack) (blocks sample_input))
    /\ forall blk, In blk (blocks sample_input) ->
       let Bs := decode_header (firstn 4 (enc_frame ref_pack blk)) in
       length Bs = 16%nat
       /\ Forall (fun w => 0 <= w <= 32) Bs
       /\ forall i, (length blk / 128 <= i)%nat -> nth i Bs 0 = 0.
Proof.
  apply (absent_widths_zero ref_pack sample_input sample_outbuf 0).
  - exact ref_pack_length.
  - split; reflexivity.
  - apply forallb_is_u32. reflexivity.
  - apply Nat.leb_le. vm_compute. reflexivity.
Defined.

(** ** Streams written one after the other *)

(** X11.  Streams are self-delimiting: when [encodeArray] writes the
    stream of a second input where the first call left [out], the
    decoder, started on the first stream, returns the first input and the
    cursor at which a second call returns the second. *)
Theorem streams_concatenate
  (pack unpack : list Z -> Z -> list Z) (inp1 inp2 outbuf dst1 dst2 : list Z)
  (addr in_addr out1 out2 : Z) :
  pack_contract pack -> unpack_contract pack unpack ->
  valid_length (Z.of_nat (length inp1)) -> Z.of_nat (length inp1) < 2 ^ 32 ->
  Forall is_u32 inp1 ->
  valid_length (Z.of_nat (length inp2)) -> Z.of_nat (length inp2) < 2 ^ 32 ->
  Forall is_u32 inp2 ->
  in_addr mod 4 = addr mod 4 -> out1 mod 4 = 0 -> out2 mod 4 = 0 ->
  (length (encoded_stream pack inp1 addr)
   + length (encoded_stream pack inp2
               (addr + Z.of_nat (length (encoded_stream pack inp1 addr))))
   <= length outbuf)%nat ->
  (length inp1 <= length dst1)%nat -> (length inp2 <= length dst2)%nat ->
  exists n1 e1 n2 e2 d1 d2,
    encodeArray pack inp1 outbuf addr = (Ok n1, e1)
    /\ encodeArray pack inp2 (skipn n1 (s_outbuf e1)) (addr + Z.of_nat n1)
       = (Ok n2, e2)
    /\ decodeArray unpack (firstn n1 (s_outbuf e1) ++ s_outbuf e2)
                   in_addr dst1 out1
       = (Ok (n1, length inp1), d1)
    /\ firstn (length inp1) (s_outbuf d1) = inp1
    /\ decodeArray unpack (s_in d1) (in_addr + Z.of_nat n1) dst2 out2
       = (Ok (n2, length inp2), d2)
    /\ firstn (length inp2) (s_outbuf d2) = inp2.
Proof.
  intros Hp Hup Hv1 Hlt1 Hu1 Hv2 Hlt2 Hu2 Hi Ho1 Ho2 Hroom Hd1 Hd2.
  set (s1 := encoded_stream pack inp1 addr) in *.
  set (a2 := addr + Z.of_nat (length s1)) in *.
  set (s2 := encoded_stream pack inp2 a2) in *.
  pose proof (encodeArray_ok pack Hp inp1 outbuf addr Hv1 Hu1 ltac:(fold s1; lia))
    as He1.
  cbv zeta in He1. fold s1 in He1.
  assert (Hcap2 : (length s2 <= length (skipn (length s1) outbuf))%nat)
    by (rewrite length_skipn; lia).
  pose proof (encodeArray_ok pack Hp inp2 (skipn (length s1) outbuf) a2
                Hv2 Hu2 Hcap2) as He2.
  cbv zeta in He2. fold s2 in He2.
  set (rest := skipn (length s2) (skipn (length s1) outbuf)) in *.
  pose proof (decodeArray_ok pack unpack Hp Hup inp1 (s2 ++ rest) dst1
                addr in_addr out1 Hv1 Hlt1 Hu1 Hi Ho1 Hd1) as Hdec1.
  cbv zeta in Hdec1. fold s1 in Hdec1.
  assert (Hi2 : (in_addr + Z.of_nat (length s1)) mod 4 = a2 mod 4).
  { unfold a2. Z.div_mod_to_equations. lia. }
  pose proof (decodeArray_ok pack unpack Hp Hup inp2 rest dst2
                a2 (in_addr + Z.of_nat (length s1)) out2
                Hv2 Hlt2 Hu2 Hi2 Ho2 Hd2) as Hdec2.
  cbv zeta in Hdec2. fold s2 in Hdec2.
  eexists _, _, _, _, _, _.
  split; [exact He1|]. cbn [s_outbuf].
  rewrite skipn_exact, firstn_exact.
  split; [exact He2|]. cbn [s_outbuf].
  split; [exact Hdec1|]. cbn [s_outbuf s_in].
  split; [apply firstn_exact|].
  split; [exact Hdec2|]. cbn [s_outbuf].
  apply firstn_exact.
Qed.

Lemma streams_concatenate_witness :
  exists n1 e1 n2 e2 d1 d2,
    encodeArray ref_pack sample_input (repeat 0 96) 0 = (Ok n1, e1)
    /\ encodeArray ref_pack (repeat 1 128) (skipn n1 (s_outbuf e1))
                   (0 + Z.of_nat n1)
       = (Ok n2, e2)
    /\ decodeArray ref_unpack (firstn n1 (s_outbuf e1) ++ s_outbuf e2)
                   0 sample_dst 0
       = (Ok (n1, length sample_input), d1)
    /\ firstn (length sample_input) (s_outbuf d1) = sample_input
    /\ decodeArray ref_unpack (s_in d1) (0 + Z.of_nat n1) sample_dst 0
       = (Ok (n2, length (repeat 1 128)), d2)
    /\ firstn (length (repeat 1 128)) (s_outbuf d2) = repeat 1 128.
Proof.
  apply (streams_concatenate ref_pack ref_unpack sample_input (repeat 1 128)
           (repeat 0 96) sample_dst sample_dst 0 0 0 0).
  - exact ref_pack_length.
  - exact ref_unpack_pack.
  - split; reflexivity.
  - reflexivity.
  - apply forallb_is_u32. reflexivity.
  - split; reflexivity.
  - reflexivity.
  - apply forallb_is_u32. reflexivity.
  - reflexivity.
  - reflexivity.
  - reflexivity.
  - apply Nat.leb_le. vm_compute. reflexivity.
  - apply Nat.leb_le. reflexivity.
  - apply Nat.leb_le. reflexivity.
Defined.
